(** * cog: a shallow embedding of the lexer, parser and code generator

    The development follows the three source files of the compiler:
    [lexer.ts] (tokens, the token cursor and the scanner), [parser.ts]
    (the recursive-descent parser with its shunting-yard expression
    parser) and [codegen.ts] (the JavaScript emitter).

    JavaScript values are modelled as follows.
    - [undefined] read from an array out of range is [None];
    - a thrown [Error(msg)] is [Error msg]; reading a property of
      [undefined] is [TypeError];
    - the mutable [TokenList] object is threaded explicitly;
    - the unbounded recursion of the parser is bounded by a fuel
      argument; running out of it is the separate outcome [OutOfFuel]. *)

From Stdlib Require Import String Ascii List ZArith Lia Bool DecimalString.
Import ListNotations.

Set Warnings "-register-all".

Local Open Scope string_scope.

(* ================================================================== *)
(** * lexer.ts *)

Module TokenType.
Inductive t : Type :=
| Func | Identifier | LBrace | RBrace | LParen | RParen | LBracket | RBracket
| String | Number | Comma | Colon | Assign | Plus | Minus | Asterisk
| ForwardSlash | Range | Equal | NotEqual | LessThan | LessThanEqual
| GreaterThan | GreaterThanEqual | Type_ | Return | Let | True | False
| And | Or | If | ElseIf | Else | For | It | In | Break | Skip | Defer | EOF.

Definition eq_dec (a b : t) : {a = b} + {a <> b}.
Proof. decide equality. Defined.

Definition eqb (a b : t) : bool := if eq_dec a b then true else false.
End TokenType.

(** [TokenType.Match] is read by parser.ts, but the enum of lexer.ts
    declares no such member: the property read yields [undefined]. *)
Definition TokenType_Match : option TokenType.t := None.

(** [ty === k] where [k] is a (possibly undefined) member of the enum. *)
Definition type_is (ty : TokenType.t) (k : option TokenType.t) : bool :=
  match k with
  | Some k' => TokenType.eqb ty k'
  | None => false
  end.

Record Token : Type := mkToken {
  tok_type : TokenType.t;
  tok_value : option string
}.

Definition tok (ty : TokenType.t) : Token := mkToken ty None.
Definition tokv (ty : TokenType.t) (v : string) : Token := mkToken ty (Some v).

(** [token.value as string].  The scanner attaches a payload to every
    identifier, number, string and type token; a token built without one
    yields [undefined], which the generated text prints as that word. *)
Definition value_as_string (t : Token) : string :=
  match tok_value t with
  | Some v => v
  | None => "undefined"
  end.

Record TokenList : Type := mkTokenList {
  tokens : list Token;
  cursor : Z
}.

(** [new TokenList(tokens)] *)
Definition newTokenList (ts : list Token) : TokenList := mkTokenList ts (-1).

Definition len (tl : TokenList) : Z := Z.of_nat (length (tokens tl)).

(** [arr[i]] for an integer index: [undefined] out of range. *)
Definition index {A : Type} (l : list A) (i : Z) : option A :=
  if (i <? 0)%Z then None else nth_error l (Z.to_nat i).

Definition pop (tl : TokenList) : option Token * TokenList :=
  let c := if (cursor tl >=? len tl)%Z then (len tl - 1)%Z else cursor tl in
  let c' := (c + 1)%Z in
  (index (tokens tl) c', mkTokenList (tokens tl) c').

Definition peek (pos : Z) (tl : TokenList) : option Token * TokenList :=
  let c := if (cursor tl >=? len tl)%Z then (len tl - 2)%Z else cursor tl in
  (index (tokens tl) (c + pos)%Z, mkTokenList (tokens tl) c).

Definition tokenToString (tokenType : TokenType.t) : string :=
  match tokenType with
  | TokenType.Func => "func"
  | TokenType.Identifier => "identifier"
  | TokenType.LBrace => "lbrace"
  | TokenType.RBrace => "rbrace"
  | TokenType.LParen => "lparen"
  | TokenType.RParen => "rparen"
  | TokenType.LBracket => "lbracket"
  | TokenType.RBracket => "rbracket"
  | TokenType.String => "string"
  | TokenType.Number => "number"
  | TokenType.Comma => "comma"
  | TokenType.Colon => "colon"
  | TokenType.Assign => "assign"
  | TokenType.Plus => "plus"
  | TokenType.Minus => "minus"
  | TokenType.Asterisk => "asterisk"
  | TokenType.ForwardSlash => "forward_slash"
  | TokenType.Range => "range"
  | TokenType.Equal => "equal"
  | TokenType.NotEqual => "not_equal"
  | TokenType.LessThan => "less_than"
  | TokenType.LessThanEqual => "less_than_or_equal"
  | TokenType.GreaterThan => "greater_than"
  | TokenType.GreaterThanEqual => "greater_than_or_equal"
  | TokenType.Type_ => "type"
  | TokenType.Return => "return"
  | TokenType.Let => "let"
  | TokenType.True => "true"
  | TokenType.False => "false"
  | TokenType.And => "and"
  | TokenType.Or => "or"
  | TokenType.EOF => "eof"
  | TokenType.If => "if"
  | TokenType.ElseIf => "else if"
  | TokenType.Else => "else"
  | TokenType.For => "for"
  | TokenType.It => "it"
  | TokenType.In => "in"
  | TokenType.Break => "break;"
  | TokenType.Skip => "skip"
  | TokenType.Defer => "defer"
  end.

(** ** The scanner *)

Definition code (c : ascii) : nat := nat_of_ascii c.

Definition between (lo hi c : ascii) : bool :=
  (code lo <=? code c)%nat && (code c <=? code hi)%nat.

Definition isWhitespace (ch : ascii) : bool :=
  Ascii.eqb ch " " || Ascii.eqb ch "010" || Ascii.eqb ch "013"
  || Ascii.eqb ch "009".

Definition isCharacter (ch : ascii) : bool :=
  between "a" "z" ch || between "A" "Z" ch || between "0" "9" ch
  || Ascii.eqb ch "_".

Definition isDigit (ch : ascii) : bool := between "0" "9" ch.

(** [while (i < chars.length && p(chars[i])) ++i], returning the final [i]. *)
Fixpoint scan_while (fuel : nat) (p : ascii -> bool) (chars : list ascii)
  (i : nat) : nat :=
  match fuel with
  | O => i
  | S fuel' =>
      match nth_error chars i with
      | Some c => if p c then scan_while fuel' p chars (S i) else i
      | None => i
      end
  end.

Definition skipWhitespace (chars : list ascii) (i : nat) : nat :=
  scan_while (length chars) isWhitespace chars i.

(** [chars.slice(start, i).join('')] *)
Definition slice (chars : list ascii) (start i : nat) : string :=
  string_of_list_ascii (firstn (i - start) (skipn start chars)).

(** [chars[i] === c], false when [chars[i]] is [undefined]. *)
Definition char_at_is (chars : list ascii) (i : nat) (c : ascii) : bool :=
  match nth_error chars i with
  | Some c' => Ascii.eqb c' c
  | None => false
  end.

(** The keyword table applied to an identifier-class run. *)
Definition classify (value : string) : Token :=
  if String.eqb value "func" then tok TokenType.Func
  else if String.eqb value "string" then tokv TokenType.Type_ value
  else if String.eqb value "i32" then tokv TokenType.Type_ value
  else if String.eqb value "bool" then tokv TokenType.Type_ value
  else if String.eqb value "void" then tokv TokenType.Type_ value
  else if String.eqb value "return" then tok TokenType.Return
  else if String.eqb value "let" then tok TokenType.Let
  else if String.eqb value "true" then tok TokenType.True
  else if String.eqb value "false" then tok TokenType.False
  else if String.eqb value "and" then tok TokenType.And
  else if String.eqb value "or" then tok TokenType.Or
  else if String.eqb value "if" then tok TokenType.If
  else if String.eqb value "elif" then tok TokenType.ElseIf
  else if String.eqb value "else" then tok TokenType.Else
  else if String.eqb value "for" then tok TokenType.For
  else if String.eqb value "it" then tok TokenType.It
  else if String.eqb value "in" then tok TokenType.In
  else if String.eqb value "break" then tok TokenType.Break
  else if String.eqb value "skip" then tok TokenType.Skip
  else if String.eqb value "defer" then tok TokenType.Defer
  else tokv TokenType.Identifier value.

(** One turn of the body of the [for] loop of [lex], after
    [skipWhitespace]: the new index (before the loop's own [++i]) and the
    tokens pushed. *)
Definition lex_step (chars : list ascii) (i : nat) : nat * list Token :=
  let n := length chars in
  match nth_error chars i with
  | None => (i, [])
  | Some c =>
      if Ascii.eqb c "(" then (i, [tok TokenType.LParen])
      else if Ascii.eqb c ")" then (i, [tok TokenType.RParen])
      else if Ascii.eqb c "{" then (i, [tok TokenType.LBrace])
      else if Ascii.eqb c "}" then (i, [tok TokenType.RBrace])
      else if Ascii.eqb c "[" then (i, [tok TokenType.LBracket])
      else if Ascii.eqb c "]" then (i, [tok TokenType.RBracket])
      else if isDigit c then
        let j := scan_while n isDigit chars i in
        (j - 1, [tokv TokenType.Number (slice chars i j)])%nat
      else if isCharacter c then
        let j := scan_while n isCharacter chars i in
        (j - 1, [classify (slice chars i j)])%nat
      else if Ascii.eqb c "'" then
        let start := S i in
        let j := scan_while n (fun ch => negb (Ascii.eqb ch "'")) chars start in
        (j, [tokv TokenType.String (slice chars start j)])
      else if Ascii.eqb c "," then (i, [tok TokenType.Comma])
      else if Ascii.eqb c ":" then (i, [tok TokenType.Colon])
      else if Ascii.eqb c "=" then
        if char_at_is chars (S i) "=" then (S i, [tok TokenType.Equal])
        else (i, [tok TokenType.Assign])
      else if Ascii.eqb c "!" then
        if char_at_is chars (S i) "=" then (S i, [tok TokenType.NotEqual])
        else (i, [])
      else if Ascii.eqb c "<" then
        if char_at_is chars (S i) "=" then (S i, [tok TokenType.LessThanEqual])
        else (i, [tok TokenType.LessThan])
      else if Ascii.eqb c ">" then
        if char_at_is chars (S i) "=" then (S i, [tok TokenType.GreaterThanEqual])
        else (i, [tok TokenType.GreaterThan])
      else if Ascii.eqb c "+" then (i, [tok TokenType.Plus])
      else if Ascii.eqb c "-" then (i, [tok TokenType.Minus])
      else if Ascii.eqb c "*" then (i, [tok TokenType.Asterisk])
      else if Ascii.eqb c "/" then (i, [tok TokenType.ForwardSlash])
      else if Ascii.eqb c "." then
        if char_at_is chars (S i) "." then (S i, [tok TokenType.Range])
        else (i, [])
      else if Ascii.eqb c "#" then
        (scan_while n (fun ch => negb (Ascii.eqb ch "010")) chars i, [])
      else (i, [])
  end.

Fixpoint lex_loop (fuel : nat) (chars : list ascii) (i : nat)
  (result : list Token) : list Token :=
  match fuel with
  | O => result
  | S fuel' =>
      if (i <? length chars)%nat then
        let i1 := skipWhitespace chars i in
        let '(i2, pushed) := lex_step chars i1 in
        lex_loop fuel' chars (S i2) (result ++ pushed)
      else result
  end.

(** The token array built by [lex]; every turn of the loop advances the
    index, so [length chars] turns suffice. *)
Definition lex_tokens (src : string) : list Token :=
  let chars := list_ascii_of_string src in
  lex_loop (length chars) chars 0 [] ++ [tok TokenType.EOF].

Definition lex (src : string) : TokenList := newTokenList (lex_tokens src).


(* ================================================================== *)
(** * parser.ts: the syntax tree *)

Module DataType.
Inductive t : Type := Void | String | I32 | Bool.
End DataType.

Module Operator.
Inductive t : Type :=
| Add | Subtract | Multiply | Divide | Equal | NotEqual | LessThan
| LessThanOrEqual | GreaterThan | GreaterThanOrEqual | And | Or | Range.

Definition eq_dec (a b : t) : {a = b} + {a <> b}.
Proof. decide equality. Defined.

Definition eqb (a b : t) : bool := if eq_dec a b then true else false.
End Operator.

(** [Expression]: the tag [type] is the constructor, [data] its fields.
    [E_function_call] carries the fields of [FunctionCall], [E_array]
    those of [Arr], [E_binary_operation] the object
    [{ operator, left, right }] built by [parseExpression]. *)
Inductive Expression : Type :=
| E_function_call (name : string) (arguments : list Expression)
| E_string (data : string)
| E_i32 (data : string)
| E_bool (data : string)
| E_array (type : DataType.t) (items : list Expression)
| E_variable (data : string)
| E_operator (data : Operator.t)
| E_binary_operation (operator : Operator.t) (left right : Expression).

Record VariableDecl : Type := mkVariableDecl {
  vd_name : string;
  vd_type : DataType.t;
  vd_isArray : bool;
  vd_value : Expression
}.

Inductive Statement : Type :=
| St_expression (data : Expression)
| St_return (data : Expression)
| St_variable_decl (data : VariableDecl)
| St_if_statement (data : IfStatement)
| St_match_statement (data : MatchStatement)
| St_for_statement (data : ForStatement)
| St_break
| St_skip
| St_defer (data : Expression)
with Block : Type :=
| mkBlock (statements : list Statement) (variables : list VariableDecl)
with IfStatement : Type :=
| mkIfStatement (if_condition : Expression) (if_block : Block)
    (elseif : list (Expression * Block)) (else_ : option Block)
with MatchStatement : Type :=
| mkMatchStatement (pattern : Expression) (cases : list MatchCase)
    (else_ : option Block)
with MatchCase : Type :=
| mkMatchCase (pattern : Expression) (block : Block)
with ForStatement : Type :=
| mkForStatement (item : option string) (expression : option Expression)
    (block : Block).

Definition statements (b : Block) : list Statement :=
  match b with mkBlock ss _ => ss end.

Definition variables (b : Block) : list VariableDecl :=
  match b with mkBlock _ vs => vs end.

(** [Parameter] in parser.ts. *)
Record FuncParameter : Type := mkFuncParameter {
  param_name : string;
  param_type : DataType.t
}.

Record Func : Type := mkFunc {
  func_name : string;
  func_params : list FuncParameter;
  func_block : Block;
  func_returns : DataType.t
}.

Record ParsedFile : Type := mkParsedFile {
  funcs : list Func
}.

Definition OPERATOR_PRECEDENCE (op : Operator.t) : nat :=
  match op with
  | Operator.Add => 100
  | Operator.Subtract => 100
  | Operator.Multiply => 120
  | Operator.Divide => 120
  | Operator.Range => 70
  | Operator.Equal => 50
  | Operator.NotEqual => 50
  | Operator.LessThan => 50
  | Operator.LessThanOrEqual => 50
  | Operator.GreaterThan => 50
  | Operator.GreaterThanOrEqual => 50
  | Operator.And => 25
  | Operator.Or => 25
  end.

(* ================================================================== *)
(** * parser.ts: the parsing monad *)

Inductive Exn : Type :=
| Error (msg : string)   (* [throw new Error(msg)] *)
| TypeError.             (* a property of [undefined] was read *)

(** Outcome of a parsing function run on the shared [TokenList]: a value
    and the cursor after it, an exception and the cursor where it was
    raised, or exhaustion of the fuel of the model. *)
Inductive Res (A : Type) : Type :=
| Ok (a : A) (tl : TokenList)
| Throw (e : Exn) (tl : TokenList)
| OutOfFuel.

Arguments Ok {A} a tl.
Arguments Throw {A} e tl.
Arguments OutOfFuel {A}.

Definition M (A : Type) : Type := TokenList -> Res A.

Definition ret {A} (a : A) : M A := fun tl => Ok a tl.

Definition bind {A B} (m : M A) (f : A -> M B) : M B :=
  fun tl =>
    match m tl with
    | Ok a tl' => f a tl'
    | Throw e tl' => Throw e tl'
    | OutOfFuel => OutOfFuel
    end.

Definition throw {A} (msg : string) : M A := fun tl => Throw (Error msg) tl.

Definition out_of_fuel {A} : M A := fun _ => OutOfFuel.

Notation "x <- m ;; k" := (bind m (fun x => k))
  (at level 61, m at next level, right associativity).
Notation "' p <- m ;; k" := (bind m (fun x => let p := x in k))
  (at level 61, p pattern, m at next level, right associativity).
Notation "m ;;; k" := (bind m (fun _ => k))
  (at level 61, right associativity).

(** [token = tokenList.pop()] where [token.type] is read next: an
    [undefined] token makes that read a [TypeError]. *)
Definition popT : M Token :=
  fun tl =>
    match pop tl with
    | (Some t, tl') => Ok t tl'
    | (None, tl') => Throw TypeError tl'
    end.

(** [tokenList.pop()] whose result is not inspected. *)
Definition pop_ : M unit := fun tl => Ok tt (snd (pop tl)).

(** [token = tokenList.peek(pos)] where [token.type] is read next. *)
Definition peekT (pos : Z) : M Token :=
  fun tl =>
    match peek pos tl with
    | (Some t, tl') => Ok t tl'
    | (None, tl') => Throw TypeError tl'
    end.

Definition has_type (t : Token) (ty : TokenType.t) : bool :=
  TokenType.eqb (tok_type t) ty.

Definition got (t : Token) : string := tokenToString (tok_type t).

(** [if (token.type !== ty) throw new Error(msg)] *)
Definition expect (t : Token) (ty : TokenType.t) (msg : string) : M unit :=
  if has_type t ty then ret tt else throw msg.

(* ================================================================== *)
(** * parser.ts: the parsing functions *)

Definition parseType : M DataType.t :=
  token <- popT ;;
  expect token TokenType.Colon ("Expected ':', got '" ++ got token ++ "'") ;;;
  token <- popT ;;
  expect token TokenType.Type_
    ("Expected data type, got '" ++ got token ++ "'") ;;;
  match tok_value token with
  | Some v =>
      if String.eqb v "string" then ret DataType.String
      else if String.eqb v "i32" then ret DataType.I32
      else if String.eqb v "void" then ret DataType.Void
      else ret DataType.Void
  | None => ret DataType.Void
  end.

Definition parseFunctionParameter : M FuncParameter :=
  token <- popT ;;
  if has_type token TokenType.Identifier then
    type <- parseType ;;
    ret (mkFuncParameter (value_as_string token) type)
  else throw ("Expected parameter name, got '" ++ got token ++ "'").

(** The [data] field of the ['operator'] expression returned by
    [parseOperator]: [None] is [null]. *)
Definition operator_of (ty : TokenType.t) : option Operator.t :=
  match ty with
  | TokenType.Plus => Some Operator.Add
  | TokenType.Minus => Some Operator.Subtract
  | TokenType.Asterisk => Some Operator.Multiply
  | TokenType.ForwardSlash => Some Operator.Divide
  | TokenType.LessThan => Some Operator.LessThan
  | TokenType.GreaterThan => Some Operator.GreaterThan
  | TokenType.Equal => Some Operator.Equal
  | TokenType.NotEqual => Some Operator.NotEqual
  | TokenType.LessThanEqual => Some Operator.LessThanOrEqual
  | TokenType.GreaterThanEqual => Some Operator.GreaterThanOrEqual
  | TokenType.And => Some Operator.And
  | TokenType.Or => Some Operator.Or
  | TokenType.Range => Some Operator.Range
  | _ => None
  end.

Definition parseOperator : M (option Operator.t) :=
  token <- peekT 1 ;;
  match operator_of (tok_type token) with
  | Some op => pop_ ;;; ret (Some op)
  | None => ret None
  end.

(** The two stacks of [parseExpression] are lists with the top of the
    stack at the head.  One reduction pops an operator and two operands
    and pushes the binary operation. *)
Definition reduce (op : Operator.t) (operandsStack : list Expression)
  : list Expression :=
  match operandsStack with
  | rhs :: lhs :: rest => E_binary_operation op lhs rhs :: rest
  | _ => operandsStack
      (* not reached: the operand stack holds one entry more than the
         operator stack, see [parseExpression_loop_stacks] *)
  end.

(** [while (operatorStack.length > 0 &&
            OPERATOR_PRECEDENCE[top] >= currentPrecedence) { reduce }] *)
Fixpoint reduce_while (currentPrecedence : nat)
  (operandsStack : list Expression) (operatorStack : list Operator.t)
  : list Expression * list Operator.t :=
  match operatorStack with
  | op :: operatorStack' =>
      if (currentPrecedence <=? OPERATOR_PRECEDENCE op)%nat
      then reduce_while currentPrecedence (reduce op operandsStack)
             operatorStack'
      else (operandsStack, operatorStack)
  | [] => (operandsStack, operatorStack)
  end.

(** [while (operatorStack.length > 0) { reduce }] *)
Fixpoint drain (operandsStack : list Expression)
  (operatorStack : list Operator.t) : list Expression :=
  match operatorStack with
  | op :: operatorStack' => drain (reduce op operandsStack) operatorStack'
  | [] => operandsStack
  end.

(** [operandsStack[0]]: the bottom of the stack. *)
Definition bottom (first : Expression) (operandsStack : list Expression)
  : Expression := last operandsStack first.

Definition not_end (token : Token) (closing : TokenType.t) : bool :=
  negb (has_type token TokenType.EOF) && negb (has_type token closing).

(** The parsing functions call each other without bound; each call and
    each turn of a loop spends one unit of [fuel].  A function named
    [f_loop] is the [while] loop of [f], its arguments the variables the
    loop updates. *)
Fixpoint parseExpression (fuel : nat) : M Expression :=
  match fuel with
  | O => out_of_fuel
  | S fuel =>
      operand <- parseOperand fuel ;;
      token <- peekT 1 ;;
      '(operandsStack, operatorStack) <-
        (if negb (has_type token TokenType.EOF)
         then parseExpression_loop fuel [operand] []
         else ret ([operand], [])) ;;
      ret (bottom operand (drain operandsStack operatorStack))
  end

with parseExpression_loop (fuel : nat) (operandsStack : list Expression)
  (operatorStack : list Operator.t)
  : M (list Expression * list Operator.t) :=
  match fuel with
  | O => out_of_fuel
  | S fuel =>
      operator <- parseOperator ;;
      match operator with
      | None => ret (operandsStack, operatorStack)
      | Some op =>
          let currentPrecedence := OPERATOR_PRECEDENCE op in
          let '(operandsStack, operatorStack) :=
            reduce_while currentPrecedence operandsStack operatorStack in
          let operatorStack := op :: operatorStack in
          nextOperand <- parseOperand fuel ;;
          parseExpression_loop fuel (nextOperand :: operandsStack)
            operatorStack
      end
  end

with parseOperand (fuel : nat) : M Expression :=
  match fuel with
  | O => out_of_fuel
  | S fuel =>
      token <- peekT 1 ;;
      match tok_type token with
      | TokenType.String => pop_ ;;; ret (E_string (value_as_string token))
      | TokenType.Number => pop_ ;;; ret (E_i32 (value_as_string token))
      | TokenType.True => pop_ ;;; ret (E_bool "true")
      | TokenType.False => pop_ ;;; ret (E_bool "false")
      | TokenType.Identifier =>
          token2 <- peekT 2 ;;
          if has_type token2 TokenType.LParen then
            '(name, arguments) <- parseFunctionCall fuel ;;
            ret (E_function_call name arguments)
          else
            pop_ ;;; ret (E_variable (value_as_string token))
      | TokenType.It => pop_ ;;; ret (E_variable "it")
      | TokenType.LBracket =>
          '(type, items) <- parseArray fuel ;;
          ret (E_array type items)
      | _ => throw ("Expected expression, got '" ++ got token ++ "'")
      end
  end

with parseFunctionCall (fuel : nat) : M (string * list Expression) :=
  match fuel with
  | O => out_of_fuel
  | S fuel =>
      token <- popT ;;
      expect token TokenType.Identifier
        ("Expected function name, got '" ++ got token ++ "'") ;;;
      let name := value_as_string token in
      token <- popT ;;
      expect token TokenType.LParen ("Expected '(', got " ++ got token) ;;;
      token <- peekT 1 ;;
      token <- (if has_type token TokenType.RParen then popT else ret token) ;;
      '(arguments, token) <- parseFunctionCall_loop fuel [] token ;;
      expect token TokenType.RParen
        ("Expected ')', got '" ++ got token ++ "'") ;;;
      ret (name, arguments)
  end

with parseFunctionCall_loop (fuel : nat) (arguments : list Expression)
  (token : Token) : M (list Expression * Token) :=
  match fuel with
  | O => out_of_fuel
  | S fuel =>
      if not_end token TokenType.RParen then
        argument <- parseExpression fuel ;;
        token <- popT ;;
        parseFunctionCall_loop fuel (arguments ++ [argument]) token
      else ret (arguments, token)
  end

with parseArray (fuel : nat) : M (DataType.t * list Expression) :=
  match fuel with
  | O => out_of_fuel
  | S fuel =>
      token <- popT ;;
      expect token TokenType.LBracket
        ("Expected '[', got '" ++ got token ++ "'") ;;;
      token <- peekT 1 ;;
      items <- parseArray_loop fuel [] token ;;
      ret (DataType.I32, items)
  end

with parseArray_loop (fuel : nat) (items : list Expression) (token : Token)
  : M (list Expression) :=
  match fuel with
  | O => out_of_fuel
  | S fuel =>
      if not_end token TokenType.RBracket then
        item <- parseExpression fuel ;;
        token <- peekT 1 ;;
        if negb (has_type token TokenType.Comma)
           && negb (has_type token TokenType.RBracket)
        then throw ("Expected ',', got '" ++ got token ++ "'")
        else
          token <- popT ;;
          parseArray_loop fuel (items ++ [item]) token
      else ret items
  end.

Definition parseVariableDecl (fuel : nat) : M VariableDecl :=
  token <- popT ;;
  expect token TokenType.Let ("Expected 'let', got '" ++ got token ++ "'") ;;;
  token <- popT ;;
  expect token TokenType.Identifier
    ("Expected variable name, got '" ++ got token ++ "'") ;;;
  let name := value_as_string token in
  type <- parseType ;;
  token <- peekT 1 ;;
  isArray <-
    (if has_type token TokenType.LBracket then
       pop_ ;;;
       token <- popT ;;
       if has_type token TokenType.RBracket then ret true
       else throw ("Expected '[]', got " ++ got token)
     else ret false) ;;
  token <- popT ;;
  expect token TokenType.Assign ("Expected '=', got '" ++ got token ++ "'") ;;;
  value <- parseExpression fuel ;;
  ret (mkVariableDecl name type isArray value).

Fixpoint parseBlock (fuel : nat) : M Block :=
  match fuel with
  | O => out_of_fuel
  | S fuel =>
      token <- popT ;;
      expect token TokenType.LBrace
        ("Expected '{', got '" ++ got token ++ "'") ;;;
      token <- peekT 1 ;;
      '(result, token) <- parseBlock_loop fuel (mkBlock [] []) token ;;
      expect token TokenType.RBrace
        ("Expected '}', got '" ++ got token ++ "'") ;;;
      pop_ ;;;
      ret result
  end

with parseBlock_loop (fuel : nat) (result : Block) (token : Token)
  : M (Block * Token) :=
  match fuel with
  | O => out_of_fuel
  | S fuel =>
      if not_end token TokenType.RBrace then
        stmnt <- parseStatement fuel ;;
        let variables' :=
          match stmnt with
          | St_variable_decl data => (variables result ++ [data])%list
          | _ => variables result
          end in
        token <- peekT 1 ;;
        parseBlock_loop fuel
          (mkBlock (statements result ++ [stmnt]) variables') token
      else ret (result, token)
  end

with parseStatement (fuel : nat) : M Statement :=
  match fuel with
  | O => out_of_fuel
  | S fuel =>
      token <- peekT 1 ;;
      parseStatement_loop fuel token
  end

with parseStatement_loop (fuel : nat) (token : Token) : M Statement :=
  match fuel with
  | O => out_of_fuel
  | S fuel =>
      if negb (has_type token TokenType.EOF) then
        if type_is (tok_type token) TokenType_Match then
          data <- parseMatchStatement fuel ;;
          ret (St_match_statement data)
        else
          match tok_type token with
          | TokenType.Identifier =>
              data <- parseExpression fuel ;; ret (St_expression data)
          | TokenType.Return =>
              pop_ ;;;
              data <- parseExpression fuel ;; ret (St_return data)
          | TokenType.Let =>
              data <- parseVariableDecl fuel ;; ret (St_variable_decl data)
          | TokenType.If =>
              data <- parseIfStatement fuel ;; ret (St_if_statement data)
          | TokenType.For =>
              data <- parseForStatement fuel ;; ret (St_for_statement data)
          | TokenType.Break => pop_ ;;; ret St_break
          | TokenType.Skip => pop_ ;;; ret St_skip
          | TokenType.Defer =>
              pop_ ;;;
              data <- parseExpression fuel ;; ret (St_defer data)
          | _ =>
              token <- popT ;;
              parseStatement_loop fuel token
          end
      else throw "Incomplete statement"
  end

with parseIfStatement (fuel : nat) : M IfStatement :=
  match fuel with
  | O => out_of_fuel
  | S fuel =>
      token <- popT ;;
      expect token TokenType.If ("Expected 'if', got '" ++ got token ++ "'") ;;;
      condition <- parseExpression fuel ;;
      block <- parseBlock fuel ;;
      token <- peekT 1 ;;
      elseif <- parseIfStatement_loop fuel [] token ;;
      token <- peekT 1 ;;
      if has_type token TokenType.Else then
        pop_ ;;;
        elseBlock <- parseBlock fuel ;;
        ret (mkIfStatement condition block elseif (Some elseBlock))
      else ret (mkIfStatement condition block elseif None)
  end

with parseIfStatement_loop (fuel : nat) (elseif : list (Expression * Block))
  (token : Token) : M (list (Expression * Block)) :=
  match fuel with
  | O => out_of_fuel
  | S fuel =>
      if has_type token TokenType.ElseIf then
        pop_ ;;;
        condition <- parseExpression fuel ;;
        block <- parseBlock fuel ;;
        token <- peekT 1 ;;
        parseIfStatement_loop fuel (elseif ++ [(condition, block)]) token
      else ret elseif
  end

with parseMatchStatement (fuel : nat) : M MatchStatement :=
  match fuel with
  | O => out_of_fuel
  | S fuel =>
      token <- popT ;;
      if negb (type_is (tok_type token) TokenType_Match) then
        throw ("Expected 'match', got '" ++ got token ++ "'")
      else
        pattern <- parseExpression fuel ;;
        token <- popT ;;
        expect token TokenType.LBrace
          ("Expected '{', got '" ++ got token ++ "'") ;;;
        cases <- parseMatchStatement_loop fuel [] token ;;
        token <- popT ;;
        else_ <-
          (if has_type token TokenType.Else then
             elseBlock <- parseBlock fuel ;; ret (Some elseBlock)
           else ret None) ;;
        token <- popT ;;
        expect token TokenType.RBrace
          ("Expected '}', got '" ++ got token ++ "'") ;;;
        ret (mkMatchStatement pattern cases else_)
  end

with parseMatchStatement_loop (fuel : nat) (cases : list MatchCase)
  (token : Token) : M (list MatchCase) :=
  match fuel with
  | O => out_of_fuel
  | S fuel =>
      if not_end token TokenType.RBrace
         && negb (has_type token TokenType.Else)
      then
        case <- parseMatchCase fuel ;;
        token <- peekT 1 ;;
        parseMatchStatement_loop fuel (cases ++ [case]) token
      else ret cases
  end

with parseMatchCase (fuel : nat) : M MatchCase :=
  match fuel with
  | O => out_of_fuel
  | S fuel =>
      pattern <- parseExpression fuel ;;
      block <- parseBlock fuel ;;
      ret (mkMatchCase pattern block)
  end

with parseForStatement (fuel : nat) : M ForStatement :=
  match fuel with
  | O => out_of_fuel
  | S fuel =>
      token <- popT ;;
      expect token TokenType.For
        ("Expected 'for', got '" ++ got token ++ "'") ;;;
      token <- peekT 1 ;;
      if negb (has_type token TokenType.LBrace) then
        item <-
          (if has_type token TokenType.Identifier then
             let identifier := value_as_string token in
             token2 <- peekT 2 ;;
             if has_type token2 TokenType.In then
               pop_ ;;; ret (Some identifier)
             else ret None
           else ret None) ;;
        expression <- parseExpression fuel ;;
        block <- parseBlock fuel ;;
        ret (mkForStatement item (Some expression) block)
      else
        block <- parseBlock fuel ;;
        ret (mkForStatement None None block)
  end.

(** The [while] loop over the parameters of [parseFunction]; it ends at
    its condition or at the [break] taken when no comma follows. *)
Fixpoint parseFunction_loop (fuel : nat) (params : list FuncParameter)
  (token : Token) : M (list FuncParameter * Token) :=
  match fuel with
  | O => out_of_fuel
  | S fuel =>
      if not_end token TokenType.RParen then
        param <- parseFunctionParameter ;;
        token <- popT ;;
        if negb (has_type token TokenType.Comma) then
          ret ((params ++ [param])%list, token)
        else
          token <- peekT 1 ;;
          parseFunction_loop fuel (params ++ [param]) token
      else ret (params, token)
  end.

Definition parseFunction (fuel : nat) : M Func :=
  token <- popT ;;
  if has_type token TokenType.EOF then throw "Unexpected end of file"
  else if has_type token TokenType.Identifier then
    let name := value_as_string token in
    token <- popT ;;
    expect token TokenType.LParen
      ("Expected '(', got '" ++ got token ++ "'") ;;;
    token <- peekT 1 ;;
    token <- (if has_type token TokenType.RParen then popT else ret token) ;;
    '(params, token) <- parseFunction_loop fuel [] token ;;
    expect token TokenType.RParen
      ("Expected ')', got '" ++ got token ++ "'") ;;;
    returns <- parseType ;;
    block <- parseBlock fuel ;;
    ret (mkFunc name params block returns)
  else throw ("Expected function name, got '" ++ got token ++ "'").

Fixpoint parse_loop (fuel : nat) (result : list Func) (token : Token)
  : M ParsedFile :=
  match fuel with
  | O => out_of_fuel
  | S fuel =>
      if negb (has_type token TokenType.EOF) then
        result <-
          (if has_type token TokenType.Func then
             func <- parseFunction fuel ;; ret (result ++ [func])%list
           else ret result) ;;
        token <- popT ;;
        parse_loop fuel result token
      else ret (mkParsedFile result)
  end.

Definition parse (fuel : nat) : M ParsedFile :=
  token <- popT ;;
  parse_loop fuel [] token.

(* ================================================================== *)
(** * codegen.ts *)

(** Lines are collected in lists of strings; [+++] appends lists of
    lines, [++] strings. *)
Local Notation "l1 +++ l2" := (@app string l1 l2)
  (at level 60, right associativity).

Definition newline : string := String "010" "".
Definition tab : string := String "009" "".

(** [lines.join(sep)] *)
Definition join (sep : string) (lines : list string) : string :=
  String.concat sep lines.

(** [' '.repeat(n)] *)
Definition spaces (n : nat) : string := string_of_list_ascii (repeat " "%char n).

(** A number interpolated into a template string. *)
Definition string_of_nat (n : nat) : string :=
  NilZero.string_of_uint (Nat.to_uint n).

(** [arr.findIndex(p)]: the first index where [p] holds, or [-1]. *)
Fixpoint findIndex_from {A : Type} (p : A -> bool) (l : list A) (i : Z) : Z :=
  match l with
  | [] => (-1)%Z
  | x :: l' => if p x then i else findIndex_from p l' (i + 1)%Z
  end.

Definition findIndex {A : Type} (p : A -> bool) (l : list A) : Z :=
  findIndex_from p l 0%Z.

Definition translateOperator (operator : Operator.t) : string :=
  match operator with
  | Operator.Add => "+"
  | Operator.Subtract => "-"
  | Operator.Multiply => "*"
  | Operator.Divide => "/"
  | Operator.Equal => "==="
  | Operator.NotEqual => "!=="
  | Operator.LessThan => "<"
  | Operator.LessThanOrEqual => "<="
  | Operator.GreaterThan => ">"
  | Operator.GreaterThanOrEqual => ">="
  | Operator.And => "&&"
  | Operator.Or => "||"
  | _ => ""
  end.

(** The three [return]s of [translateFunctionCall], once the arguments
    are translated and joined into [args]. *)
Definition translateCall (name args : string) (context : ParsedFile)
  : string :=
  if String.eqb name "print" then
    "console.log(" ++ args ++ ");"
  else if negb (findIndex (fun func => String.eqb (func_name func) name)
                  (funcs context) =? -1)%Z then
    name ++ "(" ++ args ++ ")"
  else "".

Fixpoint translateExpression (expression : Expression) (context : ParsedFile)
  : string :=
  match expression with
  | E_function_call name arguments =>
      translateCall name
        (join ", " (map (fun arg => translateExpression arg context) arguments))
        context
  | E_string data => "'" ++ data ++ "'"
  | E_i32 data => data
  | E_bool data => data
  | E_variable data => data
  | E_operator _ => ""
  | E_binary_operation operator lhs rhs =>
      let left := translateExpression lhs context in
      let right := translateExpression rhs context in
      let op := translateOperator operator in
      left ++ " " ++ op ++ " " ++ right
  | E_array _ items =>
      "[" ++ join ", " (map (fun e => translateExpression e context) items)
      ++ "]"
  end.

Definition translateFunctionCall (name : string) (arguments : list Expression)
  (context : ParsedFile) : string :=
  translateCall name
    (join ", " (map (fun arg => translateExpression arg context) arguments))
    context.

(** Applied to the [data] of a binary operation. *)
Definition translateRangeExpression (lhs rhs : Expression)
  (context : ParsedFile) : string * string :=
  (translateExpression lhs context, translateExpression rhs context).

Definition translateVariableDecl (decl : VariableDecl) (context : ParsedFile)
  : string :=
  "const " ++ vd_name decl ++ " = "
  ++ translateExpression (vd_value decl) context ++ ";".

Definition translateFunctionParams (params : list FuncParameter) : string :=
  join ", " (map param_name params).

(** [st.item || 'it']: an absent or empty name is falsy. *)
Definition itemName_of (item : option string) : string :=
  match item with
  | Some "" => "it"
  | Some name => name
  | None => "it"
  end.

(** [translateStatement] is one turn of the [for] loop of
    [translateBlock]: given the deferred names collected so far, the
    lines pushed to [result] and the names pushed to [defers]. *)
Fixpoint translateBlock (block : Block) (context : ParsedFile)
  (indentLevel : nat) {struct block} : list string :=
  match block with
  | mkBlock statements _ =>
      let indent := spaces (indentLevel * 4) in
      let '(result, defers) :=
        fold_left
          (fun '(result, defers) statement =>
             let '(lines, names) :=
               translateStatement statement context indentLevel defers in
             (result +++ lines, defers +++ names))
          statements ([], []) in
      result +++ map (fun defer => indent ++ defer ++ "();") defers
  end

with translateStatement (statement : Statement) (context : ParsedFile)
  (indentLevel : nat) (defers : list string) {struct statement}
  : list string * list string :=
  let indent := spaces (indentLevel * 4) in
  match statement with
  | St_expression data =>
      ([indent ++ translateExpression data context], [])
  | St_return data =>
      ([indent ++ "return " ++ translateExpression data context ++ ";"], [])
  | St_variable_decl data =>
      ([indent ++ translateVariableDecl data context], [])
  | St_if_statement data =>
      ([translateIfStatement data context indentLevel], [])
  | St_match_statement data =>
      ([translateMatchStatement data context indentLevel], [])
  | St_for_statement data =>
      (translateForStatement data context indentLevel, [])
  | St_break => ([indent ++ "break;"], [])
  | St_skip => ([indent ++ "continue"], [])
  | St_defer data =>
      let deferName := "defer_" ++ string_of_nat (length defers) in
      ([indent ++ "const " ++ deferName ++ " = () => { "
        ++ translateExpression data context ++ "; };"],
       [deferName])
  end

with translateIfStatement (st : IfStatement) (context : ParsedFile)
  (indentLevel : nat) {struct st} : string :=
  match st with
  | mkIfStatement if_condition if_block elseif else_ =>
      let indent := spaces (indentLevel * 4) in
      let ifcondition := translateExpression if_condition context in
      let ifblock := translateBlock if_block context (indentLevel + 1) in
      let result := ((indent ++ "if (" ++ ifcondition ++ ") {") :: ifblock) in
      let result :=
        result +++
         ((fix elifs (l : list (Expression * Block)) : list string :=
            match l with
            | [] => []
            | (condition, block) :: l' =>
                let elifcondition := translateExpression condition context in
                let elifblock :=
                  translateBlock block context (indentLevel + 1) in
                ((indent ++ "} else if (" ++ elifcondition ++ ") {")
                   :: elifblock) +++ elifs l'
            end) elseif) in
      let result :=
        match else_ with
        | Some block =>
            result +++ [indent ++ "} else {"]
            +++ translateBlock block context (indentLevel + 1)
        | None => result
        end in
      join newline (result +++ [indent ++ "}"])
  end

with translateMatchStatement (st : MatchStatement) (context : ParsedFile)
  (indentLevel : nat) {struct st} : string :=
  match st with
  | mkMatchStatement pattern cases else_ =>
      let indent := spaces (indentLevel * 4) in
      let nextIndent := spaces ((indentLevel + 1) * 4) in
      let nextnextIndent := spaces ((indentLevel + 2) * 4) in
      let pattern := translateExpression pattern context in
      let result := [indent ++ "switch (" ++ pattern ++ ") {"] in
      let result :=
        result +++
         ((fix each (l : list MatchCase) : list string :=
            match l with
            | [] => []
            | c :: l' =>
                translateMatchCase c context (indentLevel + 1) +++ each l'
            end) cases) in
      let result :=
        match else_ with
        | Some block =>
            result +++ [nextIndent ++ "default: {"]
            +++ translateBlock block context (indentLevel + 2)
            +++ [nextnextIndent ++ "break;"; nextIndent ++ "}"]
        | None => result
        end in
      join newline (result +++ [indent ++ "}"])
  end

with translateMatchCase (c : MatchCase) (context : ParsedFile)
  (indentLevel : nat) {struct c} : list string :=
  match c with
  | mkMatchCase pattern block =>
      let indent := spaces (indentLevel * 4) in
      let nextIndent := spaces ((indentLevel + 1) * 4) in
      [indent ++ "case " ++ translateExpression pattern context ++ ": {"]
      +++ translateBlock block context (indentLevel + 1)
      +++ [nextIndent ++ "break;"; indent ++ "}"]
  end

with translateForStatement (st : ForStatement) (context : ParsedFile)
  (indentLevel : nat) {struct st} : list string :=
  match st with
  | mkForStatement item expression block =>
      let indent := spaces (indentLevel * 4) in
      match expression with
      | Some expression =>
          let itemName := itemName_of item in
          match expression with
          | E_binary_operation Operator.Range lhs rhs =>
              let '(start, end_) :=
                translateRangeExpression lhs rhs context in
              [indent ++ "for (let " ++ itemName ++ " = " ++ start ++ "; "
               ++ itemName ++ " < " ++ end_ ++ "; " ++ itemName ++ "++) {"]
              +++ translateBlock block context (indentLevel + 1)
              +++ [indent ++ "}"]
          | E_variable _ =>
              [indent ++ "for (const " ++ itemName ++ " of "
               ++ translateExpression expression context ++ ") {"]
              +++ translateBlock block context (indentLevel + 1)
              +++ [indent ++ "}"]
          | _ => []
          end
      | None =>
          [tab ++ "while (true) {"]
          +++ translateBlock block context (indentLevel + 1)
          +++ [tab ++ "}"]
      end
  end.

Definition translateFunction (func : Func) (context : ParsedFile)
  : list string :=
  ["function " ++ func_name func ++ "("
   ++ translateFunctionParams (func_params func) ++ ") {"]
  +++ translateBlock (func_block func) context 1
  +++ ["}"].

(** The array [result] of [translate] before it is joined. *)
Definition translate_lines (parsedFile : ParsedFile) : list string :=
  let result :=
    flat_map (fun func => translateFunction func parsedFile +++ [""])
      (funcs parsedFile) in
  if negb (findIndex (fun func => String.eqb (func_name func) "main")
             (funcs parsedFile) =? -1)%Z
  then result +++ ["main();"]
  else result.

Definition translate (parsedFile : ParsedFile) : string :=
  join newline (translate_lines parsedFile).

(** compiler.ts, [compile] without the file read and the dump options:
    the pipeline from source text to generated text. *)
Definition compile (fuel : nat) (src : string) : Res string :=
  match parse fuel (lex src) with
  | Ok parsedSrc tl => Ok (translate parsedSrc) tl
  | Throw e tl => Throw e tl
  | OutOfFuel => OutOfFuel
  end.

(* ================================================================== *)
(** * Vocabulary of the statements proved below *)

(** The state of the cursor after [n] calls of [pop]. *)
Definition pops (n : nat) (tl : TokenList) : TokenList :=
  Nat.iter n (fun tl => snd (pop tl)) tl.

(** The cursor stays at or above its initial value. *)
Definition wf (tl : TokenList) : Prop := (-1 <= cursor tl)%Z.

(** The tokens not yet consumed. *)
Definition ahead (tl : TokenList) : list Token :=
  skipn (Z.to_nat (cursor tl + 1)) (tokens tl).

(** The cursor moved [n] tokens forward. *)
Definition skip (n : Z) (tl : TokenList) : TokenList :=
  mkTokenList (tokens tl) (cursor tl + n).

(** A token that is an operand by itself, and the operand it denotes
    (an identifier is one when no opening parenthesis follows it). *)
Definition simple_operand (t : Token) : bool :=
  match tok_type t with
  | TokenType.String | TokenType.Number | TokenType.True | TokenType.False
  | TokenType.Identifier | TokenType.It => true
  | _ => false
  end.

Definition operand_expr (t : Token) : Expression :=
  match tok_type t with
  | TokenType.String => E_string (value_as_string t)
  | TokenType.Number => E_i32 (value_as_string t)
  | TokenType.True => E_bool "true"
  | TokenType.False => E_bool "false"
  | TokenType.It => E_variable "it"
  | _ => E_variable (value_as_string t)
  end.

(** The precedence tiers as the specification lists them, highest
    first: multiplicative, additive, range, relational and equality,
    logical. *)
Definition tier (op : Operator.t) : nat :=
  match op with
  | Operator.Multiply | Operator.Divide => 4
  | Operator.Add | Operator.Subtract => 3
  | Operator.Range => 2
  | Operator.Equal | Operator.NotEqual | Operator.LessThan
  | Operator.LessThanOrEqual | Operator.GreaterThan
  | Operator.GreaterThanOrEqual => 1
  | Operator.And | Operator.Or => 0
  end.

(** The lines of the function definitions, each followed by an empty
    line, as [translate] collects them before the call of [main]. *)
Definition definition_lines (parsedFile : ParsedFile) : list string :=
  flat_map (fun func => translateFunction func parsedFile ++ [""])%list
    (funcs parsedFile).

Definition has_function_named (name : string) (parsedFile : ParsedFile)
  : Prop :=
  exists func, In func (funcs parsedFile) /\ func_name func = name.

Definition has_zero_argument_main (parsedFile : ParsedFile) : Prop :=
  exists func, In func (funcs parsedFile) /\ func_name func = "main" /\
               func_params func = [].

(** The element-wise loop over [expression]. *)
Definition element_loop (item : option string) (expression : Expression)
  (block : Block) (context : ParsedFile) (indentLevel : nat) : list string :=
  ([spaces (indentLevel * 4) ++ "for (const " ++ itemName_of item ++ " of "
    ++ translateExpression expression context ++ ") {"]%string
   ++ translateBlock block context (indentLevel + 1)
   ++ [spaces (indentLevel * 4) ++ "}"]%string)%list.

Definition is_range (expression : Expression) : bool :=
  match expression with
  | E_binary_operation Operator.Range _ _ => true
  | _ => false
  end.

Definition is_variable (expression : Expression) : bool :=
  match expression with
  | E_variable _ => true
  | _ => false
  end.

(** The name of the [k]-th deferred closure of a block. *)
Definition deferName (k : nat) : string := "defer_" ++ string_of_nat k.

Fixpoint deferCount (statements : list Statement) : nat :=
  match statements with
  | [] => 0
  | St_defer _ :: statements' => S (deferCount statements')
  | _ :: statements' => deferCount statements'
  end.

(** The text of the statements of a block, in order, where [k] deferred
    closures were declared before them: a defer statement declares the
    closure [defer_k], any other statement is lowered as it stands. *)
Fixpoint blockBody (context : ParsedFile) (indentLevel : nat)
  (statements : list Statement) (k : nat) : list string :=
  match statements with
  | [] => []
  | St_defer data :: statements' =>
      (spaces (indentLevel * 4) ++ "const " ++ deferName k ++ " = () => { "
       ++ translateExpression data context ++ "; };")
      :: blockBody context indentLevel statements' (S k)
  | statement :: statements' =>
      (fst (translateStatement statement context indentLevel [])
       ++ blockBody context indentLevel statements' k)%list
  end.

(** The invocations of the first [n] deferred closures, in order. *)
Definition deferCalls (indentLevel n : nat) : list string :=
  map (fun k => spaces (indentLevel * 4) ++ deferName k ++ "();") (seq 0 n).

(** The tokens that follow the first element of an array literal whose
    further elements are [elems]: each preceded by a comma, then the
    closing bracket. *)
Fixpoint after_first (elems : list Token) : list Token :=
  match elems with
  | [] => [tok TokenType.RBracket]
  | b :: elems' => tok TokenType.Comma :: b :: after_first elems'
  end.

(** The token kinds to which the scanner attaches a payload. *)
Definition carries_payload (ty : TokenType.t) : bool :=
  match ty with
  | TokenType.Identifier | TokenType.Number | TokenType.String
  | TokenType.Type_ => true
  | _ => false
  end.

(** A token has a payload exactly when its kind carries one. *)
Definition payload_ok (t : Token) : bool :=
  match tok_value t with
  | Some _ => carries_payload (tok_type t)
  | None => negb (carries_payload (tok_type t))
  end.

(** The words of the keyword table of [lex]. *)
Definition keywords : list string :=
  ["func"; "string"; "i32"; "bool"; "void"; "return"; "let"; "true";
   "false"; "and"; "or"; "if"; "elif"; "else"; "for"; "it"; "in"; "break";
   "skip"; "defer"].

(** Every character of the text satisfies [p]. *)
Definition all_chars (p : ascii -> bool) (s : string) : bool :=
  forallb p (list_ascii_of_string s).

(** The first character of the text satisfies [p]. *)
Definition first_char (p : ascii -> bool) (s : string) : bool :=
  match s with
  | String c _ => p c
  | EmptyString => false
  end.

(** The variable declarations among the statements of a block. *)
Fixpoint declared_variables (statements : list Statement)
  : list VariableDecl :=
  match statements with
  | [] => []
  | St_variable_decl data :: statements' =>
      data :: declared_variables statements'
  | _ :: statements' => declared_variables statements'
  end.

(** The token kinds [parseOperand] accepts as the start of an operand. *)
Definition starts_operand (ty : TokenType.t) : bool :=
  match ty with
  | TokenType.String | TokenType.Number | TokenType.True | TokenType.False
  | TokenType.Identifier | TokenType.It | TokenType.LBracket => true
  | _ => false
  end.

(** The token kinds [parseStatement] dispatches on. *)
Definition starts_statement (ty : TokenType.t) : bool :=
  match ty with
  | TokenType.Identifier | TokenType.Return | TokenType.Let | TokenType.If
  | TokenType.For | TokenType.Break | TokenType.Skip | TokenType.Defer => true
  | _ => false
  end.

(** The data type a type token stands for in [parseType]. *)
Definition dataType_of (t : Token) : DataType.t :=
  match tok_value t with
  | Some v =>
      if String.eqb v "string" then DataType.String
      else if String.eqb v "i32" then DataType.I32
      else DataType.Void
  | None => DataType.Void
  end.

(** The parameter written [name : type]. *)
Definition param_of (p : Token * Token) : FuncParameter :=
  mkFuncParameter (value_as_string (fst p)) (dataType_of (snd p)).

(** The tokens that follow the first parameter of a function whose
    further parameters are [ps]: each preceded by a comma, then the
    closing parenthesis. *)
Fixpoint more_params (ps : list (Token * Token)) : list Token :=
  match ps with
  | [] => [tok TokenType.RParen]
  | (name, type) :: ps' =>
      tok TokenType.Comma :: name :: tok TokenType.Colon :: type
      :: more_params ps'
  end.

(** A parameter written with an identifier and a type token. *)
Definition param_tokens_ok (p : Token * Token) : Prop :=
  tok_type (fst p) = TokenType.Identifier /\
  tok_type (snd p) = TokenType.Type_.

(** Two programs declare functions of the same names. *)
Definition same_names (c1 c2 : ParsedFile) : Prop :=
  forall name, has_function_named name c1 <-> has_function_named name c2.

(** The first line of the text of a function. *)
Definition header_line (func : Func) : string :=
  "function " ++ func_name func ++ "("
  ++ translateFunctionParams (func_params func) ++ ") {".

(** The tokens of [func name(): void { print('text') }]. *)
Definition print_program (name text : string) : list Token :=
  [tok TokenType.Func; tokv TokenType.Identifier name; tok TokenType.LParen;
   tok TokenType.RParen; tok TokenType.Colon; tokv TokenType.Type_ "void";
   tok TokenType.LBrace; tokv TokenType.Identifier "print";
   tok TokenType.LParen; tokv TokenType.String text; tok TokenType.RParen;
   tok TokenType.RBrace; tok TokenType.EOF].

(** The characters no rule of [lex] starts on: neither whitespace, nor
    of the identifier class, nor one of the punctuation and operator
    characters; [!] is among them, since alone it yields no token. *)
Definition unrecognised (c : ascii) : bool :=
  negb (isWhitespace c || isCharacter c
        || existsb (Ascii.eqb c)
             (list_ascii_of_string "(){}[]',:=<>+-*/.#")).

(** The expression parser consumes exactly the tokens [es], and returns
    [e], when [es] stands as an element of an array literal: followed by
    a comma or a closing bracket.  [k] is the fuel the run needs. *)
Definition element_parses (k : nat) (es : list Token) (e : Expression)
  : Prop :=
  forall (fuel : nat) (tl : TokenList) (t : Token) (rest : list Token),
    wf tl ->
    ahead tl = (es ++ t :: rest)%list ->
    tok_type t = TokenType.Comma \/ tok_type t = TokenType.RBracket ->
    parseExpression (k + fuel) tl = Ok e (skip (Z.of_nat (length es)) tl).

(** The tokens of an array literal after its first element: each further
    element behind a comma, then the closing bracket. *)
Fixpoint after_elements (elems : list (list Token)) : list Token :=
  match elems with
  | [] => [tok TokenType.RBracket]
  | es :: elems' => (tok TokenType.Comma :: es ++ after_elements elems')%list
  end.

(** The token the parser has read last: after [pop] it is under the
    cursor, after [peek] it is the next one. *)
Definition at_cursor (t : Token) (tl : TokenList) : Prop :=
  index (tokens tl) (cursor tl) = Some t.

Definition after_cursor (t : Token) (tl : TokenList) : Prop :=
  index (tokens tl) (cursor tl + 1) = Some t.

Definition near (t : Token) (tl : TokenList) : Prop :=
  at_cursor t tl \/ after_cursor t tl.

(** What the messages of the parser say was expected. *)
Definition expectations : list string :=
  ["'('"; "')'"; "'{'"; "'}'"; "'['"; "'[]'"; "','"; "':'"; "'='";
   "'if'"; "'match'"; "'for'"; "'let'"; "function name"; "parameter name";
   "variable name"; "data type"; "expression"].

(** Where the token named by a message stands when the error is raised:
    the checks on an operand, on the separator of an array literal and on
    the end of a block look one token ahead; the check on a closing
    parenthesis is made on a token popped or, at the end of input, looked
    ahead; every other check is made on the token popped last. *)
Definition read_last (what : string) (t : Token) (tl : TokenList) : Prop :=
  if existsb (String.eqb what) ["expression"; "','"; "'}'"]
  then after_cursor t tl
  else if String.eqb what "')'" then near t tl
  else at_cursor t tl.

(** The message names what was expected and the kind of the token [t]
    found; two checks leave the quotes around the kind out. *)
Definition names_kinds (msg what : string) (t : Token) : Prop :=
  msg = "Expected " ++ what ++ ", got '" ++ got t ++ "'" \/
  msg = "Expected " ++ what ++ ", got " ++ got t /\
  (what = "'('" \/ what = "'[]'").

(** The exceptions the parser raises, with the cursor where they are
    raised. *)
Definition raised_at (e : Exn) (tl : TokenList) : Prop :=
  e = TypeError \/
  e = Error "Unexpected end of file" \/
  e = Error "Incomplete statement" \/
  exists msg what t,
    e = Error msg /\ In what expectations /\ names_kinds msg what t /\
    read_last what t tl.

(** The exceptions of the functions that parse expressions, at one
    amount of fuel; the loop of [parseFunctionCall] hands back the token
    it read last. *)
Definition expression_errors (fuel : nat) : Prop :=
  (forall tl e tl',
      parseExpression fuel tl = Throw e tl' -> raised_at e tl') /\
  (forall operands operators tl e tl',
      parseExpression_loop fuel operands operators tl = Throw e tl' ->
      raised_at e tl') /\
  (forall tl e tl', parseOperand fuel tl = Throw e tl' -> raised_at e tl') /\
  (forall tl e tl',
      parseFunctionCall fuel tl = Throw e tl' -> raised_at e tl') /\
  (forall arguments token tl e tl',
      near token tl ->
      parseFunctionCall_loop fuel arguments token tl = Throw e tl' ->
      raised_at e tl') /\
  (forall arguments token tl arguments' token' tl',
      near token tl ->
      parseFunctionCall_loop fuel arguments token tl
      = Ok (arguments', token') tl' ->
      near token' tl') /\
  (forall tl e tl', parseArray fuel tl = Throw e tl' -> raised_at e tl') /\
  (forall items token tl e tl',
      parseArray_loop fuel items token tl = Throw e tl' -> raised_at e tl').

(** The same for the functions that parse statements and blocks; the
    loop of [parseBlock] hands back the token it looked ahead at. *)
Definition statement_errors (fuel : nat) : Prop :=
  (forall tl e tl', parseBlock fuel tl = Throw e tl' -> raised_at e tl') /\
  (forall result token tl e tl',
      after_cursor token tl ->
      parseBlock_loop fuel result token tl = Throw e tl' ->
      raised_at e tl') /\
  (forall result token tl result' token' tl',
      after_cursor token tl ->
      parseBlock_loop fuel result token tl = Ok (result', token') tl' ->
      after_cursor token' tl') /\
  (forall tl e tl', parseStatement fuel tl = Throw e tl' -> raised_at e tl') /\
  (forall token tl e tl',
      parseStatement_loop fuel token tl = Throw e tl' -> raised_at e tl') /\
  (forall tl e tl',
      parseIfStatement fuel tl = Throw e tl' -> raised_at e tl') /\
  (forall elseif token tl e tl',
      parseIfStatement_loop fuel elseif token tl = Throw e tl' ->
      raised_at e tl') /\
  (forall tl e tl',
      parseMatchStatement fuel tl = Throw e tl' -> raised_at e tl') /\
  (forall cases token tl e tl',
      parseMatchStatement_loop fuel cases token tl = Throw e tl' ->
      raised_at e tl') /\
  (forall tl e tl', parseMatchCase fuel tl = Throw e tl' -> raised_at e tl') /\
  (forall tl e tl',
      parseForStatement fuel tl = Throw e tl' -> raised_at e tl').

(* ================================================================== *)
(** * The token cursor *)

Lemma pops_S (n : nat) (tl : TokenList) :
  pops (S n) tl = snd (pop (pops n tl)).
Proof. reflexivity. Qed.

Lemma pops_tokens (n : nat) (tl : TokenList) :
  tokens (pops n tl) = tokens tl.
Proof.
  induction n as [|n IH]; [reflexivity|].
  rewrite pops_S. unfold pop. simpl. exact IH.
Qed.

Lemma index_out_of_range {A : Type} (l : list A) :
  index l (Z.of_nat (length l)) = None.
Proof.
  unfold index.
  destruct (Z.of_nat (length l) <? 0)%Z eqn:E; [reflexivity|].
  rewrite Nat2Z.id. apply nth_error_None. lia.
Qed.

Lemma cursor_pop (tl : TokenList) :
  cursor (snd (pop tl)) =
  ((if (cursor tl >=? len tl)%Z then len tl - 1 else cursor tl) + 1)%Z.
Proof. reflexivity. Qed.

(** While tokens remain, [n] pops leave the cursor on token [n - 1];
    from then on it sits on the last valid index or one past it. *)
Lemma pops_cursor (ts : list Token) (n : nat) :
  let c := cursor (pops n (newTokenList ts)) in
  (n <= length ts -> c = (Z.of_nat n - 1)%Z) /\
  (length ts <= n ->
   c = (Z.of_nat (length ts) - 1)%Z \/ c = Z.of_nat (length ts)).
Proof.
  induction n as [|n IH]; intros c; subst c.
  - split; intros; [reflexivity|].
    left. assert (length ts = 0) by lia.
    change (cursor (pops 0 (newTokenList ts))) with (-1)%Z. lia.
  - rewrite pops_S, cursor_pop. unfold len. rewrite pops_tokens.
    change (tokens (newTokenList ts)) with ts.
    destruct IH as [IH1 IH2].
    destruct (cursor (pops n (newTokenList ts)) >=? Z.of_nat (length ts))%Z
      eqn:E; split; intros; lia.
Qed.

(** Within the sequence, [pop] yields the tokens in order. *)
Lemma pop_in_range (ts : list Token) (n : nat) :
  n < length ts ->
  fst (pop (pops n (newTokenList ts))) = nth_error ts n.
Proof.
  intros Hn.
  destruct (pops_cursor ts n) as [Hc _].
  specialize (Hc ltac:(lia)).
  unfold pop, len. rewrite pops_tokens, Hc.
  change (tokens (newTokenList ts)) with ts.
  destruct (Z.of_nat n - 1 >=? Z.of_nat (length ts))%Z eqn:E; [lia|].
  cbn [fst]. unfold index.
  destruct (Z.of_nat n - 1 + 1 <? 0)%Z eqn:E2; [lia|].
  f_equal. lia.
Qed.

(** C1 (the code departs from the claim).  Once the cursor has consumed
    all the tokens of a sequence, every further [pop] reads the slot one
    past the last valid index and returns [undefined], never the final
    token; a [peek] made right after the last token was consumed returns
    [undefined] as well. *)
Theorem pop_past_end_is_undefined (ts : list Token) (k : nat) :
  fst (pop (pops (length ts + k) (newTokenList ts))) = None /\
  fst (peek 1 (pops (length ts) (newTokenList ts))) = None.
Proof.
  split.
  - destruct (pops_cursor ts (length ts + k)) as [_ Hc].
    specialize (Hc ltac:(lia)).
    unfold pop, len. rewrite pops_tokens.
    change (tokens (newTokenList ts)) with ts. cbn [fst].
    destruct Hc as [Hc|Hc]; rewrite Hc.
    + destruct (Z.of_nat (length ts) - 1 >=? Z.of_nat (length ts))%Z eqn:E;
        [lia|].
      replace (Z.of_nat (length ts) - 1 + 1)%Z with (Z.of_nat (length ts))
        by lia.
      apply index_out_of_range.
    + destruct (Z.of_nat (length ts) >=? Z.of_nat (length ts))%Z eqn:E; [|lia].
      replace (Z.of_nat (length ts) - 1 + 1)%Z with (Z.of_nat (length ts))
        by lia.
      apply index_out_of_range.
  - destruct (pops_cursor ts (length ts)) as [Hc _].
    specialize (Hc ltac:(lia)).
    unfold peek, len. rewrite pops_tokens, Hc.
    change (tokens (newTokenList ts)) with ts. cbn [fst].
    destruct (Z.of_nat (length ts) - 1 >=? Z.of_nat (length ts))%Z eqn:E;
      [lia|].
    replace (Z.of_nat (length ts) - 1 + 1)%Z with (Z.of_nat (length ts))
      by lia.
    apply index_out_of_range.
Qed.

(** The scanner's output for the empty text is the lone end-of-stream
    token: the first [pop] returns it, the second returns [undefined]. *)
Example pop_twice_on_empty_source :
  fst (pop (lex "")) = Some (tok TokenType.EOF) /\
  fst (pop (snd (pop (lex "")))) = None.
Proof. split; reflexivity. Qed.

(* ================================================================== *)
(** * Stepping the cursor through the tokens ahead *)

Lemma tl_eta (tl : TokenList) : mkTokenList (tokens tl) (cursor tl) = tl.
Proof. destruct tl; reflexivity. Qed.

Lemma skipn_cons_length {A : Type} (n : nat) (l : list A) (x : A)
  (r : list A) :
  skipn n l = x :: r -> n < length l.
Proof.
  intros H.
  destruct (Nat.lt_ge_cases n (length l)) as [Hlt|Hge]; [exact Hlt|].
  rewrite skipn_all2 in H by lia. discriminate.
Qed.

Lemma skipn_cons_nth {A : Type} (n : nat) (l : list A) (x : A) (r : list A) :
  skipn n l = x :: r -> nth_error l n = Some x /\ skipn (S n) l = r.
Proof.
  revert l. induction n as [|n IH]; intros l H.
  - destruct l; simpl in H; [discriminate|]. inversion H. auto.
  - destruct l; simpl in H; [discriminate|]. simpl. apply IH. exact H.
Qed.

Section Ahead.
Variable tl : TokenList.
Hypothesis Hwf : wf tl.

Lemma ahead_in_range (t : Token) (r : list Token) :
  ahead tl = t :: r -> (cursor tl >=? len tl)%Z = false.
Proof.
  unfold ahead, len. intros H. apply skipn_cons_length in H.
  unfold wf in Hwf.
  destruct (cursor tl >=? Z.of_nat (length (tokens tl)))%Z eqn:E;
    [lia|reflexivity].
Qed.

Lemma ahead_index (t : Token) (r : list Token) :
  ahead tl = t :: r -> index (tokens tl) (cursor tl + 1) = Some t.
Proof.
  unfold ahead. intros H. apply skipn_cons_nth in H.
  unfold index, wf in *.
  destruct (cursor tl + 1 <? 0)%Z eqn:E; [lia|]. tauto.
Qed.

Lemma ahead_skip (t : Token) (r : list Token) :
  ahead tl = t :: r -> ahead (skip 1 tl) = r /\ wf (skip 1 tl).
Proof.
  unfold ahead, skip, wf in *. cbn [cursor tokens]. intros H.
  apply skipn_cons_nth in H. destruct H as [_ H].
  split; [|lia].
  replace (Z.to_nat (cursor tl + 1 + 1)) with (S (Z.to_nat (cursor tl + 1)))
    by lia.
  exact H.
Qed.

Lemma pop_ahead (t : Token) (r : list Token) :
  ahead tl = t :: r -> pop tl = (Some t, skip 1 tl).
Proof.
  intros H. unfold pop. rewrite (ahead_in_range _ _ H).
  rewrite (ahead_index _ _ H). reflexivity.
Qed.

Lemma peek_ahead (t : Token) (r : list Token) :
  ahead tl = t :: r -> peek 1 tl = (Some t, tl).
Proof.
  intros H. unfold peek. rewrite (ahead_in_range _ _ H).
  rewrite (ahead_index _ _ H), tl_eta. reflexivity.
Qed.

Lemma peek2_ahead (t t2 : Token) (r : list Token) :
  ahead tl = t :: t2 :: r -> peek 2 tl = (Some t2, tl).
Proof.
  intros H. unfold peek. rewrite (ahead_in_range _ _ H), tl_eta.
  f_equal.
  destruct (ahead_skip _ _ H) as [H1 H2].
  unfold ahead, skip in H1. cbn [cursor tokens] in H1.
  apply skipn_cons_nth in H1. destruct H1 as [H1 _].
  unfold index, wf in *.
  destruct (cursor tl + 2 <? 0)%Z eqn:E; [lia|].
  replace (Z.to_nat (cursor tl + 2)) with (Z.to_nat (cursor tl + 1 + 1))
    by lia.
  exact H1.
Qed.

Lemma popT_ahead (t : Token) (r : list Token) :
  ahead tl = t :: r -> popT tl = Ok t (skip 1 tl).
Proof. intros H. unfold popT. rewrite (pop_ahead _ _ H). reflexivity. Qed.

Lemma pop__ahead (t : Token) (r : list Token) :
  ahead tl = t :: r -> pop_ tl = Ok tt (skip 1 tl).
Proof. intros H. unfold pop_. rewrite (pop_ahead _ _ H). reflexivity. Qed.

Lemma peekT_ahead (t : Token) (r : list Token) :
  ahead tl = t :: r -> peekT 1 tl = Ok t tl.
Proof. intros H. unfold peekT. rewrite (peek_ahead _ _ H). reflexivity. Qed.

Lemma peekT2_ahead (t t2 : Token) (r : list Token) :
  ahead tl = t :: t2 :: r -> peekT 2 tl = Ok t2 tl.
Proof.
  intros H. unfold peekT. rewrite (peek2_ahead _ _ _ H). reflexivity.
Qed.
End Ahead.

Lemma skip_skip (a b : Z) (tl : TokenList) :
  skip a (skip b tl) = skip (b + a) tl.
Proof. unfold skip. cbn [cursor tokens]. f_equal. lia. Qed.

Lemma wf_new (ts : list Token) : wf (newTokenList ts).
Proof. unfold wf. simpl. lia. Qed.

Lemma ahead_new (ts : list Token) : ahead (newTokenList ts) = ts.
Proof. reflexivity. Qed.

Lemma has_type_true (t : Token) (ty : TokenType.t) :
  has_type t ty = true <-> tok_type t = ty.
Proof.
  unfold has_type, TokenType.eqb.
  destruct (TokenType.eq_dec (tok_type t) ty); split; congruence.
Qed.

Lemma has_type_false (t : Token) (ty : TokenType.t) :
  has_type t ty = false <-> tok_type t <> ty.
Proof.
  unfold has_type, TokenType.eqb.
  destruct (TokenType.eq_dec (tok_type t) ty); split; congruence.
Qed.

(** Tactics that run a parsing function over the tokens ahead. *)
Ltac step_pop :=
  match goal with
  | Hwf : wf ?tl, Ha : ahead ?tl = _ :: _ |- context [popT ?tl] =>
      rewrite (popT_ahead tl Hwf _ _ Ha);
      let Ha' := fresh "Ha" in
      let Hwf' := fresh "Hwf" in
      destruct (ahead_skip tl Hwf _ _ Ha) as [Ha' Hwf']
  | Hwf : wf ?tl, Ha : ahead ?tl = _ :: _ |- context [pop_ ?tl] =>
      rewrite (pop__ahead tl Hwf _ _ Ha);
      let Ha' := fresh "Ha" in
      let Hwf' := fresh "Hwf" in
      destruct (ahead_skip tl Hwf _ _ Ha) as [Ha' Hwf']
  end.

Ltac step_peek :=
  match goal with
  | Hwf : wf ?tl, Ha : ahead ?tl = _ :: _ |- context [peekT 1 ?tl] =>
      rewrite (peekT_ahead tl Hwf _ _ Ha)
  | Hwf : wf ?tl, Ha : ahead ?tl = _ :: _ :: _ |- context [peekT 2 ?tl] =>
      rewrite (peekT2_ahead tl Hwf _ _ _ Ha)
  end.

Ltac eval_eqb :=
  repeat match goal with
    | |- context [TokenType.eqb ?a ?b] =>
        let v := eval vm_compute in (TokenType.eqb a b) in
        match v with
        | true => change (TokenType.eqb a b) with true
        | false => change (TokenType.eqb a b) with false
        end
    end.

Lemma eqb_neq (a b : TokenType.t) : a <> b -> TokenType.eqb a b = false.
Proof.
  intros H. unfold TokenType.eqb.
  destruct (TokenType.eq_dec a b); congruence.
Qed.

Ltac type_rewrite :=
  match goal with
  | H : tok_type ?t = _ |- context [tok_type ?t] => rewrite H
  | H : tok_type ?t <> ?k |- context [TokenType.eqb (tok_type ?t) ?k] =>
      rewrite (eqb_neq _ _ H)
  end.

Ltac parser_step :=
  first [ step_pop | step_peek
        | progress unfold bind, ret, expect, throw, not_end, got, has_type
        | progress cbn [tok_type tok_value tok tokv negb andb orb]
        | type_rewrite | progress eval_eqb | progress cbv beta iota ].

Ltac run_parser := repeat parser_step.

(* ================================================================== *)
(** * The expression parser *)

Lemma parseOperand_simple (fuel : nat) (tl : TokenList) (t t2 : Token)
  (r : list Token) :
  wf tl -> ahead tl = t :: t2 :: r ->
  simple_operand t = true -> tok_type t2 <> TokenType.LParen ->
  parseOperand (S fuel) tl = Ok (operand_expr t) (skip 1 tl).
Proof.
  intros Hwf Ha Hs Hp.
  simpl. unfold bind.
  rewrite (peekT_ahead _ Hwf _ _ Ha).
  unfold simple_operand in Hs. unfold operand_expr.
  apply has_type_false in Hp.
  destruct (tok_type t); try discriminate Hs;
    try (rewrite (pop__ahead _ Hwf _ _ Ha); reflexivity).
  rewrite (peekT2_ahead _ Hwf _ _ _ Ha), Hp.
  rewrite (pop__ahead _ Hwf _ _ Ha). reflexivity.
Qed.

Lemma parseOperator_some (tl : TokenList) (o : Token) (r : list Token)
  (op : Operator.t) :
  wf tl -> ahead tl = o :: r -> operator_of (tok_type o) = Some op ->
  parseOperator tl = Ok (Some op) (skip 1 tl).
Proof.
  intros Hwf Ha Ho. unfold parseOperator, bind.
  rewrite (peekT_ahead _ Hwf _ _ Ha), Ho.
  rewrite (pop__ahead _ Hwf _ _ Ha). reflexivity.
Qed.

Lemma parseOperator_none (tl : TokenList) (t : Token) (r : list Token) :
  wf tl -> ahead tl = t :: r -> operator_of (tok_type t) = None ->
  parseOperator tl = Ok None tl.
Proof.
  intros Hwf Ha Ho. unfold parseOperator, bind.
  rewrite (peekT_ahead _ Hwf _ _ Ha), Ho. reflexivity.
Qed.

Lemma operator_not_EOF (o : Token) (op : Operator.t) :
  operator_of (tok_type o) = Some op -> has_type o TokenType.EOF = false.
Proof.
  intros H. apply has_type_false. intros E. rewrite E in H. discriminate.
Qed.

Lemma operator_not_LParen (o : Token) (op : Operator.t) :
  operator_of (tok_type o) = Some op -> tok_type o <> TokenType.LParen.
Proof. intros H E. rewrite E in H. discriminate. Qed.

(** The operand stack holds one entry more than the operator stack, so a
    reduction always finds its two operands. *)
Lemma reduce_length (op : Operator.t) (operands : list Expression) (n : nat) :
  length operands = S (S n) -> length (reduce op operands) = S n.
Proof.
  destruct operands as [|x [|y rest]]; simpl; intros H; try discriminate.
  lia.
Qed.

Lemma reduce_while_length (p : nat) (operators : list Operator.t) :
  forall operands,
    length operands = S (length operators) ->
    length (fst (reduce_while p operands operators)) =
    S (length (snd (reduce_while p operands operators))).
Proof.
  induction operators as [|op operators IH]; intros operands H; simpl.
  - exact H.
  - destruct (p <=? OPERATOR_PRECEDENCE op)%nat; simpl; [|exact H].
    apply IH. apply reduce_length. exact H.
Qed.

Lemma drain_length (operators : list Operator.t) :
  forall operands,
    length operands = S (length operators) ->
    length (drain operands operators) = 1.
Proof.
  induction operators as [|op operators IH]; intros operands H; simpl.
  - exact H.
  - apply IH. apply reduce_length. exact H.
Qed.

(** The loop of [parseExpression] keeps the two stacks in step, so the
    final reductions leave exactly one operand: the tree returned. *)
Lemma parseExpression_loop_stacks (fuel : nat) :
  forall (operands : list Expression) (operators : list Operator.t)
         (tl : TokenList) (operands' : list Expression)
         (operators' : list Operator.t) (tl' : TokenList),
    parseExpression_loop fuel operands operators tl
    = Ok (operands', operators') tl' ->
    length operands = S (length operators) ->
    length operands' = S (length operators').
Proof.
  induction fuel as [|fuel IH];
    intros operands operators tl operands' operators' tl' H Hlen.
  - discriminate H.
  - cbn [parseExpression_loop] in H. unfold bind in H.
    destruct (parseOperator tl) as [[op|] tl1| |]; try discriminate H.
    + pose proof (reduce_while_length (OPERATOR_PRECEDENCE op) operators
                    operands Hlen) as Hred.
      destruct (reduce_while (OPERATOR_PRECEDENCE op) operands operators)
        as [operands1 operators1].
      destruct (parseOperand fuel tl1) as [next tl2| |]; try discriminate H.
      apply IH in H; [exact H|]. simpl in *. lia.
    + inversion H; subst. exact Hlen.
Qed.

(** One turn of the loop of [parseExpression] on an operator followed by
    a simple operand. *)
Lemma parseExpression_loop_step (fuel : nat) (tl : TokenList)
  (o t t2 : Token) (r : list Token) (op : Operator.t)
  (operands : list Expression) (operators : list Operator.t) :
  wf tl -> ahead tl = o :: t :: t2 :: r ->
  operator_of (tok_type o) = Some op ->
  simple_operand t = true -> tok_type t2 <> TokenType.LParen ->
  parseExpression_loop (S (S fuel)) operands operators tl =
  parseExpression_loop (S fuel)
    (operand_expr t
       :: fst (reduce_while (OPERATOR_PRECEDENCE op) operands operators))
    (op :: snd (reduce_while (OPERATOR_PRECEDENCE op) operands operators))
    (skip 2 tl).
Proof.
  intros Hwf Ha Ho Hs Hp.
  change (parseExpression_loop (S (S fuel)) operands operators tl) with
    (bind parseOperator
       (fun operator =>
          match operator with
          | None => ret (operands, operators)
          | Some op =>
              let '(operandsStack, operatorStack) :=
                reduce_while (OPERATOR_PRECEDENCE op) operands operators in
              bind (parseOperand (S fuel))
                (fun nextOperand =>
                   parseExpression_loop (S fuel)
                     (nextOperand :: operandsStack) (op :: operatorStack))
          end) tl).
  unfold bind at 1.
  rewrite (parseOperator_some _ _ _ _ Hwf Ha Ho).
  destruct (reduce_while (OPERATOR_PRECEDENCE op) operands operators)
    as [operands' operators'].
  destruct (ahead_skip _ Hwf _ _ Ha) as [Ha1 Hwf1].
  unfold bind.
  rewrite (parseOperand_simple _ _ _ _ _ Hwf1 Ha1 Hs Hp).
  rewrite skip_skip. reflexivity.
Qed.

Lemma parseExpression_loop_end (fuel : nat) (tl : TokenList)
  (t : Token) (r : list Token)
  (operands : list Expression) (operators : list Operator.t) :
  wf tl -> ahead tl = t :: r -> operator_of (tok_type t) = None ->
  parseExpression_loop (S fuel) operands operators tl =
  Ok (operands, operators) tl.
Proof.
  intros Hwf Ha Ho. simpl. unfold bind.
  rewrite (parseOperator_none _ _ _ Hwf Ha Ho). reflexivity.
Qed.

Lemma parseExpression_unfold (fuel : nat) (tl : TokenList) :
  parseExpression (S fuel) tl =
  bind (parseOperand fuel)
    (fun operand =>
       bind (peekT 1)
         (fun token =>
            bind (if negb (has_type token TokenType.EOF)
                  then parseExpression_loop fuel [operand] []
                  else ret ([operand], []))
              (fun stacks =>
                 ret (bottom operand (drain (fst stacks) (snd stacks))))))
    tl.
Proof.
  simpl. unfold bind.
  destruct (parseOperand fuel tl) as [operand tl1| |]; try reflexivity.
  destruct (peekT 1 tl1) as [token tl2| |]; try reflexivity.
  destruct (negb (has_type token TokenType.EOF)); [|reflexivity].
  destruct (parseExpression_loop fuel [operand] [] tl2) as [[x y] tl3| |];
    reflexivity.
Qed.

(** The table [OPERATOR_PRECEDENCE] orders the operators as the tiers of
    the specification do. *)
Lemma tier_precedence (x y : Operator.t) :
  tier x < tier y <-> OPERATOR_PRECEDENCE x < OPERATOR_PRECEDENCE y.
Proof. destruct x, y; simpl; lia. Qed.

Lemma tier_precedence_eq (x y : Operator.t) :
  tier x = tier y <-> OPERATOR_PRECEDENCE x = OPERATOR_PRECEDENCE y.
Proof. destruct x, y; simpl; lia. Qed.

(** C8.  On a token stream [a op1 b op2 c] whose second operator lies in
    a higher tier than the first (multiplicative above additive above
    range above relational and equality above logical), the expression
    parser returns [op1 (a, op2 (b, c))]: the higher tier binds tighter;
    for [a + b * c] this is [Add (a, Multiply (b, c))]. *)
Theorem precedence_respected (fuel : nat) (tl : TokenList)
  (a o1 b o2 c t : Token) (rest : list Token) (op1 op2 : Operator.t) :
  wf tl ->
  ahead tl = a :: o1 :: b :: o2 :: c :: t :: rest ->
  simple_operand a = true ->
  simple_operand b = true ->
  simple_operand c = true ->
  operator_of (tok_type o1) = Some op1 ->
  operator_of (tok_type o2) = Some op2 ->
  tier op1 < tier op2 ->
  operator_of (tok_type t) = None ->
  tok_type t <> TokenType.LParen ->
  parseExpression (4 + fuel) tl =
  Ok (E_binary_operation op1 (operand_expr a)
        (E_binary_operation op2 (operand_expr b) (operand_expr c)))
     (skip 5 tl).
Proof.
  intros Hwf Ha Hsa Hsb Hsc Ho1 Ho2 Htier Hot Htp.
  apply tier_precedence in Htier.
  change (4 + fuel) with (S (S (S (S fuel)))).
  rewrite parseExpression_unfold. unfold bind at 1.
  rewrite (parseOperand_simple _ _ _ _ _ Hwf Ha Hsa
             (operator_not_LParen _ _ Ho1)).
  destruct (ahead_skip _ Hwf _ _ Ha) as [Ha1 Hwf1].
  unfold bind at 1. rewrite (peekT_ahead _ Hwf1 _ _ Ha1).
  rewrite (operator_not_EOF _ _ Ho1). cbn [negb].
  unfold bind at 1.
  rewrite (parseExpression_loop_step _ _ _ _ _ _ _ _ _ Hwf1 Ha1 Ho1 Hsb
             (operator_not_LParen _ _ Ho2)).
  cbn [reduce_while fst snd].
  destruct (ahead_skip _ Hwf1 _ _ Ha1) as [Ha2 Hwf2].
  destruct (ahead_skip _ Hwf2 _ _ Ha2) as [Ha3 Hwf3].
  rewrite !skip_skip in *. cbn [Z.add Pos.add] in *.
  rewrite (parseExpression_loop_step _ _ _ _ _ _ _ _ _ Hwf3 Ha3 Ho2 Hsc Htp).
  cbn [reduce_while].
  destruct (OPERATOR_PRECEDENCE op2 <=? OPERATOR_PRECEDENCE op1)%nat eqn:E.
  { apply Nat.leb_le in E. lia. }
  cbn [fst snd].
  destruct (ahead_skip _ Hwf3 _ _ Ha3) as [Ha4 Hwf4].
  destruct (ahead_skip _ Hwf4 _ _ Ha4) as [Ha5 Hwf5].
  rewrite !skip_skip in *. cbn [Z.add Pos.add] in *.
  rewrite (parseExpression_loop_end _ _ _ _ _ _ Hwf5 Ha5 Hot).
  reflexivity.
Qed.

Lemma precedence_respected_witness :
  parseExpression 4 (lex "a + b * c") =
  Ok (E_binary_operation Operator.Add (E_variable "a")
        (E_binary_operation Operator.Multiply (E_variable "b")
           (E_variable "c")))
     (skip 5 (lex "a + b * c")).
Proof.
  apply (precedence_respected 0 (lex "a + b * c")
           (tokv TokenType.Identifier "a") (tok TokenType.Plus)
           (tokv TokenType.Identifier "b") (tok TokenType.Asterisk)
           (tokv TokenType.Identifier "c") (tok TokenType.EOF) []
           Operator.Add Operator.Multiply);
    try reflexivity.
  - apply wf_new.
  - simpl. lia.
  - discriminate.
Defined.

(* ================================================================== *)
(** * Array literals *)

(** A token seen by [peek] is the token the next [pop] returns, and the
    cursor then sits on it. *)
Lemma peekT_then_popT (tl tl1 : TokenList) (t : Token) :
  peekT 1 tl = Ok t tl1 ->
  popT tl1 = Ok t (skip 1 tl1) /\
  index (tokens (skip 1 tl1)) (cursor (skip 1 tl1)) = Some t.
Proof.
  unfold peekT, popT, peek, pop, skip, len. intros H.
  destruct (index (tokens tl)
              ((if (cursor tl >=? Z.of_nat (length (tokens tl)))%Z
                then Z.of_nat (length (tokens tl)) - 2 else cursor tl) + 1)%Z)
    as [t'|] eqn:E; inversion H; subst; clear H.
  cbn [tokens cursor].
  destruct (cursor tl >=? Z.of_nat (length (tokens tl)))%Z eqn:C.
  - destruct (Z.of_nat (length (tokens tl)) - 2
              >=? Z.of_nat (length (tokens tl)))%Z eqn:C2; [lia|].
    rewrite E. auto.
  - rewrite C, E. auto.
Qed.

Lemma not_end_closing (t : Token) (closing : TokenType.t) :
  tok_type t = closing -> not_end t closing = false.
Proof.
  intros H. unfold not_end.
  apply has_type_true in H. rewrite H. apply andb_false_r.
Qed.

(** The loop of [parseArray] either does not run, or appends at least
    one item and stops right after consuming a closing bracket. *)
Lemma parseArray_loop_closing (fuel : nat) :
  forall (items : list Expression) (token : Token) (tl : TokenList)
         (items' : list Expression) (tl' : TokenList),
    parseArray_loop fuel items token tl = Ok items' tl' ->
    (not_end token TokenType.RBracket = false /\ items' = items /\ tl' = tl)
    \/
    (not_end token TokenType.RBracket = true /\
     (exists more, more <> [] /\ items' = (items ++ more)%list) /\
     exists rb, index (tokens tl') (cursor tl') = Some rb /\
                tok_type rb = TokenType.RBracket).
Proof.
  induction fuel as [|fuel IH]; intros items token tl items' tl' H.
  - discriminate H.
  - simpl in H.
    destruct (not_end token TokenType.RBracket) eqn:Hend.
    + right. split; [reflexivity|].
      unfold bind in H.
      destruct (parseExpression fuel tl) as [item tl1| |]; try discriminate H.
      destruct (peekT 1 tl1) as [t tl2| |] eqn:Hpeek; try discriminate H.
      destruct (negb (has_type t TokenType.Comma)
                && negb (has_type t TokenType.RBracket)) eqn:Hsep;
        [discriminate H|].
      destruct (peekT_then_popT _ _ _ Hpeek) as [Hpop Hidx].
      rewrite Hpop in H.
      apply IH in H. destruct H as [(Hne & -> & ->)|(Hne & (more & Hm & ->) & Hrb)].
      * split; [exists [item]; split; [discriminate|reflexivity]|].
        exists t. split; [exact Hidx|].
        unfold not_end in Hne.
        destruct (has_type t TokenType.RBracket) eqn:HR;
          [apply has_type_true; exact HR|].
        destruct (has_type t TokenType.Comma) eqn:HC; [|discriminate Hsep].
        apply has_type_true in HC.
        unfold has_type in Hne. rewrite HC in Hne. discriminate Hne.
      * split; [|exact Hrb].
        exists (item :: more). split; [discriminate|].
        rewrite <- app_assoc. reflexivity.
    + left. inversion H. auto.
Qed.

(** An expression made of one simple operand. *)
Lemma parseExpression_simple (fuel : nat) (tl : TokenList) (a t : Token)
  (r : list Token) :
  wf tl -> ahead tl = a :: t :: r ->
  simple_operand a = true ->
  operator_of (tok_type t) = None -> tok_type t <> TokenType.LParen ->
  parseExpression (2 + fuel) tl = Ok (operand_expr a) (skip 1 tl).
Proof.
  intros Hwf Ha Hs Ho Hp.
  change (2 + fuel) with (S (S fuel)).
  rewrite parseExpression_unfold. unfold bind at 1.
  rewrite (parseOperand_simple _ _ _ _ _ Hwf Ha Hs Hp).
  destruct (ahead_skip _ Hwf _ _ Ha) as [Ha1 Hwf1].
  unfold bind at 1. rewrite (peekT_ahead _ Hwf1 _ _ Ha1).
  destruct (has_type t TokenType.EOF); cbn [negb]; [reflexivity|].
  unfold bind.
  rewrite (parseExpression_loop_end _ _ _ _ _ _ Hwf1 Ha1 Ho). reflexivity.
Qed.

Lemma after_first_head (elems : list Token) :
  exists t r, after_first elems = t :: r /\
              (tok_type t = TokenType.Comma \/
               tok_type t = TokenType.RBracket).
Proof.
  destruct elems as [|b elems]; simpl; eauto.
Qed.

(** The loop of [parseArray] on simple elements separated by commas:
    it returns them all and consumes the closing bracket. *)
Lemma parseArray_loop_simple (elems : list Token) :
  forall (fuel : nat) (tl : TokenList) (items : list Expression)
         (token a : Token) (more : list Token),
    wf tl ->
    ahead tl = (a :: after_first elems ++ more)%list ->
    Forall (fun e => simple_operand e = true) (a :: elems) ->
    not_end token TokenType.RBracket = true ->
    parseArray_loop (3 + length elems + fuel) items token tl =
    Ok (items ++ map operand_expr (a :: elems))%list
       (skip (2 + 2 * Z.of_nat (length elems)) tl) /\
    ahead (skip (2 + 2 * Z.of_nat (length elems)) tl) = more.
Proof.
  induction elems as [|b elems IH];
    intros fuel tl items token a more Hwf Ha HF Hend;
    inversion HF as [|? ? Hsa HF']; subst.
  - simpl app in Ha. simpl length.
    change (3 + 0 + fuel) with (S (2 + fuel)).
    cbn [parseArray_loop]. rewrite Hend. unfold bind at 1.
    rewrite (parseExpression_simple fuel tl a (tok TokenType.RBracket) more
               Hwf Ha Hsa eq_refl ltac:(discriminate)).
    destruct (ahead_skip _ Hwf _ _ Ha) as [Ha1 Hwf1].
    destruct (ahead_skip _ Hwf1 _ _ Ha1) as [Ha2 Hwf2].
    run_parser. rewrite skip_skip in *. split; [reflexivity|exact Ha2].
  - simpl app in Ha.
    replace (3 + length (b :: elems) + fuel)
      with (S (2 + (1 + length elems + fuel))) by (simpl; lia).
    cbn [parseArray_loop]. rewrite Hend. unfold bind at 1.
    rewrite (parseExpression_simple _ tl a (tok TokenType.Comma) _
               Hwf Ha Hsa eq_refl ltac:(discriminate)).
    destruct (ahead_skip _ Hwf _ _ Ha) as [Hb Hwfb].
    destruct (ahead_skip _ Hwfb _ _ Hb) as [Ha1 Hwf1].
    run_parser.
    replace (2 + (1 + length elems + fuel)) with (3 + length elems + fuel)
      by lia.
    destruct (IH fuel (skip 1 (skip 1 tl)) (items ++ [operand_expr a])%list
                (tok TokenType.Comma) b more Hwf1 Ha1 HF' eq_refl)
      as [Hrun Hrest].
    assert (Hskip : skip (2 + 2 * Z.of_nat (length elems)) (skip 1 (skip 1 tl))
                    = skip (2 + 2 * Z.of_nat (length (b :: elems))) tl).
    { rewrite !skip_skip. unfold skip. f_equal.
      change (length (b :: elems)) with (S (length elems)). lia. }
    rewrite Hskip in *. rewrite Hrun. split; [|exact Hrest].
    rewrite <- app_assoc. reflexivity.
Qed.

(** An array literal of simple elements parses to its elements, and the
    tokens that remain are those after its closing bracket. *)
Lemma parseArray_simple (fuel : nat) (tl : TokenList) (lb a : Token)
  (elems more : list Token) :
  wf tl ->
  ahead tl = (lb :: a :: after_first elems ++ more)%list ->
  tok_type lb = TokenType.LBracket ->
  Forall (fun e => simple_operand e = true) (a :: elems) ->
  parseArray (4 + length elems + fuel) tl =
  Ok (DataType.I32, map operand_expr (a :: elems))
     (skip (3 + 2 * Z.of_nat (length elems)) tl) /\
  ahead (skip (3 + 2 * Z.of_nat (length elems)) tl) = more.
Proof.
  intros Hwf Ha Hlb HF.
  assert (Hend : not_end a TokenType.RBracket = true).
  { inversion HF as [|? ? Hs _]; subst. unfold simple_operand in Hs.
    unfold not_end, has_type.
    destruct (tok_type a); try discriminate Hs; reflexivity. }
  change (4 + length elems + fuel) with (S (3 + length elems + fuel)).
  cbn [parseArray]. run_parser.
  destruct (parseArray_loop_simple elems fuel (skip 1 tl) [] a a more
              Hwf0 Ha0 HF Hend) as [Hrun Hrest].
  fold (has_type a TokenType.EOF) (has_type a TokenType.RBracket).
  fold (not_end a TokenType.RBracket).
  assert (Hskip : skip (2 + 2 * Z.of_nat (length elems)) (skip 1 tl)
                  = skip (3 + 2 * Z.of_nat (length elems)) tl).
  { rewrite skip_skip. unfold skip. f_equal. lia. }
  rewrite Hskip in *. rewrite Hrun.
  split; [reflexivity|exact Hrest].
Qed.

(** Moving the cursor over a prefix of the tokens ahead. *)
Lemma ahead_skip_app (pre : list Token) :
  forall (tl : TokenList) (post : list Token),
    wf tl -> ahead tl = (pre ++ post)%list ->
    ahead (skip (Z.of_nat (length pre)) tl) = post /\
    wf (skip (Z.of_nat (length pre)) tl).
Proof.
  induction pre as [|p pre IH]; intros tl post Hwf Ha.
  - simpl in *. unfold skip, ahead, wf in *. cbn [cursor tokens].
    rewrite Z.add_0_r. split; [exact Ha|exact Hwf].
  - simpl app in Ha.
    destruct (ahead_skip _ Hwf _ _ Ha) as [Ha1 Hwf1].
    destruct (IH _ _ Hwf1 Ha1) as [Ha2 Hwf2].
    rewrite skip_skip in Ha2, Hwf2.
    replace (Z.of_nat (length (p :: pre))) with (1 + Z.of_nat (length pre))%Z
      by (change (length (p :: pre)) with (S (length pre)); lia).
    split; assumption.
Qed.

Lemma element_parses_more (k d : nat) (es : list Token) (e : Expression) :
  element_parses k es e -> element_parses (k + d) es e.
Proof.
  intros H fuel tl t rest Hwf Ha Ht.
  replace (k + d + fuel) with (k + (d + fuel)) by lia.
  exact (H _ _ _ _ Hwf Ha Ht).
Qed.

(** A simple operand is an element the expression parser consumes
    exactly. *)
Lemma element_parses_simple (a : Token) :
  simple_operand a = true -> element_parses 2 [a] (operand_expr a).
Proof.
  intros Hs fuel tl t rest Hwf Ha Ht. simpl app in Ha.
  apply (parseExpression_simple fuel tl a t rest Hwf Ha Hs);
    destruct Ht as [-> | ->]; (reflexivity || discriminate).
Qed.

(** So is a binary operation of two simple operands. *)
Lemma element_parses_binary (a o b : Token) (op : Operator.t) :
  simple_operand a = true -> operator_of (tok_type o) = Some op ->
  simple_operand b = true ->
  element_parses 3 [a; o; b]
    (E_binary_operation op (operand_expr a) (operand_expr b)).
Proof.
  intros Hsa Ho Hsb fuel tl t rest Hwf Ha Ht. simpl app in Ha.
  assert (Hto : operator_of (tok_type t) = None)
    by (destruct Ht as [-> | ->]; reflexivity).
  assert (Htp : tok_type t <> TokenType.LParen)
    by (destruct Ht as [-> | ->]; discriminate).
  change (3 + fuel) with (S (S (S fuel))).
  rewrite parseExpression_unfold. unfold bind at 1.
  rewrite (parseOperand_simple _ _ _ _ _ Hwf Ha Hsa
             (operator_not_LParen _ _ Ho)).
  destruct (ahead_skip _ Hwf _ _ Ha) as [Ha1 Hwf1].
  unfold bind at 1. rewrite (peekT_ahead _ Hwf1 _ _ Ha1).
  rewrite (operator_not_EOF _ _ Ho). cbn [negb]. unfold bind at 1.
  rewrite (parseExpression_loop_step _ _ _ _ _ _ _ _ _ Hwf1 Ha1 Ho Hsb Htp).
  destruct (ahead_skip _ Hwf1 _ _ Ha1) as [Ha2 Hwf2].
  destruct (ahead_skip _ Hwf2 _ _ Ha2) as [Ha3 Hwf3].
  rewrite skip_skip in Ha3, Hwf3.
  rewrite (parseExpression_loop_end _ _ _ _ _ _ Hwf3 Ha3 Hto).
  rewrite skip_skip. reflexivity.
Qed.

(** An element the expression parser accepts starts with a token that
    lets the loop of [parseArray] run. *)
Lemma element_parses_starts (k : nat) (es : list Token) (e : Expression) :
  element_parses k es e ->
  exists x es', es = x :: es' /\ not_end x TokenType.RBracket = true.
Proof.
  intros H.
  specialize (H 0 (newTokenList (es ++ [tok TokenType.Comma]))
                (tok TokenType.Comma) [] (wf_new _) (ahead_new _)
                (or_introl eq_refl)).
  pose proof (wf_new (es ++ [tok TokenType.Comma])) as Hwf.
  pose proof (ahead_new (es ++ [tok TokenType.Comma])) as Ha.
  set (tl := newTokenList _) in *.
  rewrite Nat.add_0_r in H.
  destruct k as [|[|k]]; try discriminate H.
  cbn [parseExpression parseOperand] in H. unfold bind at 1 2 in H.
  destruct es as [|x es'].
  - simpl app in Ha. rewrite (peekT_ahead _ Hwf _ _ Ha) in H.
    discriminate H.
  - simpl app in Ha. rewrite (peekT_ahead _ Hwf _ _ Ha) in H.
    exists x, es'. split; [reflexivity|].
    unfold not_end, has_type.
    destruct (tok_type x); try reflexivity; discriminate H.
Qed.

(** The loop of [parseArray] on elements separated by commas, each
    consumed exactly by the expression parser: it returns them all and
    consumes the closing bracket. *)
Lemma parseArray_loop_elements (k : nat)
  (elems : list (list Token * Expression)) :
  forall (fuel : nat) (tl : TokenList) (items : list Expression)
         (token : Token) (es : list Token) (e : Expression)
         (more : list Token),
    wf tl ->
    ahead tl = (es ++ after_elements (map fst elems) ++ more)%list ->
    element_parses k es e ->
    Forall (fun p => element_parses k (fst p) (snd p)) elems ->
    not_end token TokenType.RBracket = true ->
    parseArray_loop (2 + length elems + k + fuel) items token tl =
    Ok (items ++ e :: map snd elems)%list
       (skip (Z.of_nat (length (es ++ after_elements (map fst elems)))) tl).
Proof.
  induction elems as [|[es' e'] elems IH];
    intros fuel tl items token es e more Hwf Ha He HF Hend;
    inversion HF as [|? ? He' HF']; subst.
  - simpl map in *. simpl after_elements in *. simpl app in Ha.
    replace (2 + length (@nil (list Token * Expression)) + k + fuel)
      with (S (k + S fuel)) by (simpl; lia).
    cbn [parseArray_loop]. rewrite Hend. unfold bind at 1.
    rewrite (He (S fuel) tl (tok TokenType.RBracket) more Hwf Ha
               (or_intror eq_refl)).
    destruct (ahead_skip_app es _ _ Hwf Ha) as [Ha1 Hwf1].
    destruct (ahead_skip _ Hwf1 _ _ Ha1) as [Ha2 Hwf2].
    run_parser.
    replace (k + S fuel) with (S (k + fuel)) by lia.
    cbn [parseArray_loop]. run_parser.
    rewrite skip_skip. f_equal. unfold skip. f_equal.
    rewrite length_app. simpl length. lia.
  - simpl map in *. simpl after_elements in *. cbn [fst snd] in *.
    replace (2 + length ((es', e') :: elems) + k + fuel)
      with (S (k + (2 + length elems + fuel))) by (simpl; lia).
    cbn [parseArray_loop]. rewrite Hend. unfold bind at 1.
    assert (Ha' : ahead tl =
                  (es ++ tok TokenType.Comma
                      :: es' ++ after_elements (map fst elems) ++ more)%list).
    { rewrite Ha. simpl app. rewrite <- app_assoc. reflexivity. }
    rewrite (He _ tl (tok TokenType.Comma) _ Hwf Ha' (or_introl eq_refl)).
    destruct (ahead_skip_app es _ _ Hwf Ha') as [Ha1 Hwf1].
    destruct (ahead_skip _ Hwf1 _ _ Ha1) as [Ha2 Hwf2].
    run_parser.
    replace (k + (2 + length elems + fuel))
      with (2 + length elems + k + fuel) by lia.
    rewrite (IH fuel _ (items ++ [e])%list (tok TokenType.Comma) es' e' more
               Hwf2 Ha2 He' HF' eq_refl).
    rewrite <- app_assoc. simpl app.
    rewrite !skip_skip. f_equal. unfold skip. f_equal.
    rewrite !length_app. simpl length. rewrite !length_app. lia.
Qed.

(** An array literal with at least one element, each consumed exactly
    by the expression parser: the elements are returned in order and the
    tokens that remain are those after the closing bracket. *)
Lemma parseArray_elements (k fuel : nat) (tl : TokenList) (lb : Token)
  (es : list Token) (e : Expression)
  (elems : list (list Token * Expression)) (more : list Token) :
  wf tl ->
  tok_type lb = TokenType.LBracket ->
  ahead tl = (lb :: es ++ after_elements (map fst elems) ++ more)%list ->
  element_parses k es e ->
  Forall (fun p => element_parses k (fst p) (snd p)) elems ->
  parseArray (3 + length elems + k + fuel) tl =
  Ok (DataType.I32, e :: map snd elems)
     (skip (1 + Z.of_nat (length (es ++ after_elements (map fst elems))))
        tl) /\
  ahead (skip (1 + Z.of_nat (length (es ++ after_elements (map fst elems))))
           tl) = more.
Proof.
  intros Hwf Hlb Ha He HF.
  destruct (element_parses_starts _ _ _ He) as (x & es' & -> & Hend).
  destruct (ahead_skip _ Hwf _ _ Ha) as [Ha1 Hwf1].
  assert (Hrest : ahead (skip 1 tl) =
                  (((x :: es') ++ after_elements (map fst elems)) ++ more)%list)
    by (rewrite Ha1, <- app_assoc; reflexivity).
  destruct (ahead_skip_app _ _ _ Hwf1 Hrest) as [Ha2 _].
  rewrite skip_skip in Ha2. split; [|exact Ha2].
  change (3 + length elems + k + fuel)
    with (S (2 + length elems + k + fuel)).
  cbn [parseArray]. unfold bind at 1.
  rewrite (popT_ahead _ Hwf _ _ Ha).
  unfold expect, bind at 1. apply has_type_true in Hlb. rewrite Hlb.
  unfold ret at 1. unfold bind at 1.
  simpl app in Ha1.
  rewrite (peekT_ahead _ Hwf1 _ _ Ha1). unfold bind.
  rewrite (parseArray_loop_elements k elems fuel (skip 1 tl) [] x
             (x :: es') e more Hwf1 Ha1 He HF Hend).
  rewrite skip_skip. reflexivity.
Qed.

(** Such a literal is in turn an element the expression parser consumes
    exactly. *)
Lemma element_parses_array (k : nat) (lb : Token) (es : list Token)
  (e : Expression) (elems : list (list Token * Expression)) :
  tok_type lb = TokenType.LBracket ->
  element_parses k es e ->
  Forall (fun p => element_parses k (fst p) (snd p)) elems ->
  element_parses (5 + length elems + k)
    (lb :: es ++ after_elements (map fst elems))
    (E_array DataType.I32 (e :: map snd elems)).
Proof.
  intros Hlb He HF fuel tl t rest Hwf Ha Ht.
  assert (Hto : operator_of (tok_type t) = None)
    by (destruct Ht as [-> | ->]; reflexivity).
  assert (Ha' : ahead tl =
                (lb :: es ++ after_elements (map fst elems) ++ t :: rest)%list).
  { rewrite Ha. simpl app. rewrite <- app_assoc. reflexivity. }
  destruct (parseArray_elements k fuel tl lb es e elems (t :: rest)
              Hwf Hlb Ha' He HF) as [Hrun Hrest].
  assert (Hwf' : wf (skip (1 + Z.of_nat (length (es ++ after_elements
                                                   (map fst elems)))) tl))
    by (unfold wf, skip in *; cbn [cursor]; lia).
  replace (5 + length elems + k + fuel)
    with (S (S (3 + length elems + k + fuel))) by lia.
  rewrite parseExpression_unfold. unfold bind at 1.
  cbn [parseOperand]. unfold bind at 1.
  rewrite (peekT_ahead _ Hwf _ _ Ha'). rewrite Hlb.
  unfold bind at 1. rewrite Hrun. unfold ret at 1.
  unfold bind at 1. rewrite (peekT_ahead _ Hwf' _ _ Hrest).
  assert (HE : has_type t TokenType.EOF = false)
    by (apply has_type_false; destruct Ht as [-> | ->]; discriminate).
  rewrite HE. cbn [negb]. unfold bind at 1.
  replace (S (3 + length elems + k + fuel))
    with (S (S (2 + length elems + k + fuel))) by lia.
  rewrite (parseExpression_loop_end _ _ _ _ _ _ Hwf' Hrest Hto).
  unfold ret. cbn [fst snd drain bottom last].
  f_equal. unfold skip. f_equal.
  change (length (lb :: es ++ after_elements (map fst elems)))
    with (S (length (es ++ after_elements (map fst elems)))).
  lia.
Qed.

(** C10 (amended).  On [[ ]] the array parser consumes the opening
    bracket only: it returns no items and the closing bracket is the next
    token the cursor yields.  On a literal with at least one element,
    where the expression parser consumes exactly the tokens of each
    element, it returns the elements in order and consumes the closing
    bracket: the tokens that remain are those after it. *)
Theorem parseArray_closing_bracket (k fuel : nat) (tl : TokenList)
  (lb : Token) :
  wf tl ->
  tok_type lb = TokenType.LBracket ->
  (forall (rb : Token) (rest : list Token),
      ahead tl = lb :: rb :: rest ->
      tok_type rb = TokenType.RBracket ->
      parseArray (2 + fuel) tl = Ok (DataType.I32, []) (skip 1 tl) /\
      fst (pop (skip 1 tl)) = Some rb) /\
  (forall (es : list Token) (e : Expression)
          (elems : list (list Token * Expression)) (more : list Token),
      ahead tl = (lb :: es ++ after_elements (map fst elems) ++ more)%list ->
      element_parses k es e ->
      Forall (fun p => element_parses k (fst p) (snd p)) elems ->
      parseArray (3 + length elems + k + fuel) tl =
      Ok (DataType.I32, e :: map snd elems)
         (skip (1 + Z.of_nat (length (es ++ after_elements (map fst elems))))
            tl) /\
      ahead (skip (1 + Z.of_nat (length (es ++ after_elements (map fst elems))))
               tl) = more).
Proof.
  intros Hwf Hlb. split.
  - intros rb rest Ha Hrb.
    destruct (ahead_skip _ Hwf _ _ Ha) as [Ha1 Hwf1].
    split; [|rewrite (pop_ahead _ Hwf1 _ _ Ha1); reflexivity].
    simpl. unfold bind.
    rewrite (popT_ahead _ Hwf _ _ Ha).
    unfold expect. apply has_type_true in Hlb. rewrite Hlb.
    unfold ret at 1.
    rewrite (peekT_ahead _ Hwf1 _ _ Ha1).
    rewrite (not_end_closing _ _ Hrb). reflexivity.
  - intros es e elems more Ha He HF.
    apply (parseArray_elements k fuel tl lb); assumption.
Qed.

(** C10 (counterexample).  The literal [[[]]] has one element, the empty
    literal.  The array parser returns that element, but the one closing
    bracket it consumes is the element's: the literal's own closing
    bracket is still ahead when it returns.  The same holds of
    [[1, []]]. *)
Lemma nested_empty_array_keeps_closing_bracket :
  lex_tokens "[[]]" =
  [tok TokenType.LBracket; tok TokenType.LBracket; tok TokenType.RBracket;
   tok TokenType.RBracket; tok TokenType.EOF] /\
  parseArray 6 (lex "[[]]") =
  Ok (DataType.I32, [E_array DataType.I32 []]) (skip 3 (lex "[[]]")) /\
  ahead (skip 3 (lex "[[]]")) = [tok TokenType.RBracket; tok TokenType.EOF] /\
  parseArray 8 (lex "[1, []]") =
  Ok (DataType.I32, [E_i32 "1"; E_array DataType.I32 []])
     (skip 5 (lex "[1, []]")) /\
  ahead (skip 5 (lex "[1, []]")) = [tok TokenType.RBracket; tok TokenType.EOF].
Proof. repeat split; vm_compute; reflexivity. Qed.

Lemma parseArray_closing_bracket_witness :
  (parseArray 2 (lex "[]") = Ok (DataType.I32, []) (skip 1 (lex "[]")) /\
   fst (pop (skip 1 (lex "[]"))) = Some (tok TokenType.RBracket)) /\
  (parseArray 11 (lex "[1 + 2, [x]] y") =
   Ok (DataType.I32,
       [E_binary_operation Operator.Add (E_i32 "1") (E_i32 "2");
        E_array DataType.I32 [E_variable "x"]])
      (skip 9 (lex "[1 + 2, [x]] y")) /\
   ahead (skip 9 (lex "[1 + 2, [x]] y")) =
   [tokv TokenType.Identifier "y"; tok TokenType.EOF]).
Proof.
  split.
  - apply (proj1 (parseArray_closing_bracket 0 0 (lex "[]")
                    (tok TokenType.LBracket) (wf_new _) eq_refl)
             (tok TokenType.RBracket) [tok TokenType.EOF]); reflexivity.
  - apply (proj2 (parseArray_closing_bracket 7 0 (lex "[1 + 2, [x]] y")
                    (tok TokenType.LBracket) (wf_new _) eq_refl)
             [tokv TokenType.Number "1"; tok TokenType.Plus;
              tokv TokenType.Number "2"]
             (E_binary_operation Operator.Add (E_i32 "1") (E_i32 "2"))
             [([tok TokenType.LBracket; tokv TokenType.Identifier "x";
                tok TokenType.RBracket],
               E_array DataType.I32 [E_variable "x"])]
             [tokv TokenType.Identifier "y"; tok TokenType.EOF]).
    + reflexivity.
    + apply (element_parses_more 3 4),
        (element_parses_binary (tokv TokenType.Number "1")
           (tok TokenType.Plus) (tokv TokenType.Number "2"));
        reflexivity.
    + repeat constructor.
      apply (element_parses_array 2 (tok TokenType.LBracket)
               [tokv TokenType.Identifier "x"] (E_variable "x") []);
        [reflexivity| |constructor].
      apply (element_parses_simple (tokv TokenType.Identifier "x")).
      reflexivity.
Defined.

(* ================================================================== *)
(** * Statements *)

(** C7 (the code departs from the claim).  When the tokens ahead are
    [for], an identifier and [in], the parser of for-loops consumes the
    identifier but leaves [in] in place and then asks for an expression
    there: it raises [Expected expression, got 'in'], so a loop written
    [for i in 0..10 { }] yields no counted loop at all. *)
Theorem parseForStatement_bound_item_raises (fuel : nat) (tl : TokenList)
  (f x i : Token) (rest : list Token) :
  wf tl ->
  ahead tl = f :: x :: i :: rest ->
  tok_type f = TokenType.For ->
  tok_type x = TokenType.Identifier ->
  tok_type i = TokenType.In ->
  parseForStatement (3 + fuel) tl =
  Throw (Error "Expected expression, got 'in'") (skip 2 tl).
Proof.
  intros Hwf Ha Hf Hx Hi.
  change (3 + fuel) with (S (S (S fuel))).
  cbn [parseForStatement]. run_parser.
  rewrite parseExpression_unfold. cbn [parseOperand]. run_parser.
  rewrite skip_skip. reflexivity.
Qed.

Lemma parseForStatement_bound_item_raises_witness :
  parseForStatement 3 (lex "for i in 0..10 { }") =
  Throw (Error "Expected expression, got 'in'")
    (skip 2 (lex "for i in 0..10 { }")).
Proof.
  apply (parseForStatement_bound_item_raises 0 (lex "for i in 0..10 { }")
           (tok TokenType.For) (tokv TokenType.Identifier "i")
           (tok TokenType.In)
           [tokv TokenType.Number "0"; tok TokenType.Range;
            tokv TokenType.Number "10"; tok TokenType.LBrace;
            tok TokenType.RBrace; tok TokenType.EOF]);
    try reflexivity.
  apply wf_new.
Defined.

(* ================================================================== *)
(** * The [match] statement *)

(** No token kind equals the undefined [TokenType.Match]. *)
Lemma no_token_is_Match (src : string) (t : Token) :
  In t (lex_tokens src) -> type_is (tok_type t) TokenType_Match = false.
Proof. reflexivity. Qed.

Ltac split_result H :=
  repeat match type of H with
    | match ?m ?tl with _ => _ end = Ok _ _ =>
        let E := fresh "E" in
        destruct (m tl) eqn:E; try discriminate H
    | (let '(_, _) := ?p in _) _ = Ok _ _ => destruct p
    end.

(** The statement dispatcher never builds a match-statement node. *)
Lemma parseStatement_loop_never_match (fuel : nat) :
  forall (token : Token) (tl : TokenList) (s : Statement) (tl' : TokenList),
    parseStatement_loop fuel token tl = Ok s tl' ->
    forall data, s <> St_match_statement data.
Proof.
  induction fuel as [|fuel IH]; intros token tl s tl' H data.
  - discriminate H.
  - cbn [parseStatement_loop] in H.
    destruct (negb (has_type token TokenType.EOF)); [|discriminate H].
    unfold TokenType_Match, type_is in H.
    destruct (tok_type token); unfold bind, ret in H; split_result H;
      try (inversion H; subst; discriminate);
      try (eapply IH; eassumption).
Qed.

Lemma parseStatement_never_match (fuel : nat) (tl : TokenList)
  (s : Statement) (tl' : TokenList) :
  parseStatement fuel tl = Ok s tl' ->
  forall data, s <> St_match_statement data.
Proof.
  destruct fuel as [|fuel]; intros H; [discriminate H|].
  cbn [parseStatement] in H. unfold bind in H. split_result H.
  eapply parseStatement_loop_never_match; eassumption.
Qed.

(** The parser of match statements rejects every token it is given. *)
Lemma parseMatchStatement_never_returns (fuel : nat) (tl : TokenList)
  (m : MatchStatement) (tl' : TokenList) :
  parseMatchStatement fuel tl <> Ok m tl'.
Proof.
  destruct fuel as [|fuel]; intros H; [discriminate H|].
  cbn [parseMatchStatement] in H. unfold bind in H. split_result H.
Qed.

(** C5 (the code departs from the claim).  The scanner has no [match]
    keyword: in [match x { 1 { } }] the word is scanned as the identifier
    [match], and the statement dispatcher returns an expression statement
    holding the variable [match], not a match-statement node. *)
Theorem match_keyword_is_identifier :
  lex_tokens "match x { 1 { } }" =
  [tokv TokenType.Identifier "match"; tokv TokenType.Identifier "x";
   tok TokenType.LBrace; tokv TokenType.Number "1"; tok TokenType.LBrace;
   tok TokenType.RBrace; tok TokenType.RBrace; tok TokenType.EOF] /\
  parseStatement 5 (lex "match x { 1 { } }") =
  Ok (St_expression (E_variable "match")) (skip 1 (lex "match x { 1 { } }")).
Proof. split; vm_compute; reflexivity. Qed.

(** A whole program using [match] does not compile. *)
Example match_program_rejected :
  compile 40 "func main(): void { match x { 1 { } } }" =
  Throw (Error "Incomplete statement")
    (skip 16 (lex "func main(): void { match x { 1 { } } }")).
Proof. vm_compute. reflexivity. Qed.

(* ================================================================== *)
(** * Grammar mismatches *)

(** At top level every token that is not [func] is passed over. *)
Lemma parse_loop_skips (junk : list Token) :
  forall (fuel : nat) (tl : TokenList) (result : list Func)
         (t eof : Token) (rest : list Token),
    wf tl ->
    ahead tl = (junk ++ eof :: rest)%list ->
    Forall (fun j => tok_type j <> TokenType.Func /\
                     tok_type j <> TokenType.EOF) (t :: junk) ->
    tok_type eof = TokenType.EOF ->
    parse_loop (2 + length junk + fuel) result t tl =
    Ok (mkParsedFile result) (skip (Z.of_nat (length junk) + 1) tl).
Proof.
  induction junk as [|j junk IH];
    intros fuel tl result t eof rest Hwf Ha HF Heof;
    inversion HF as [|? ? [Hf He] HF']; subst.
  - simpl app in Ha. simpl length.
    change (2 + 0 + fuel) with (S (S fuel)).
    cbn [parse_loop]. run_parser. reflexivity.
  - simpl app in Ha.
    change (2 + length (j :: junk) + fuel)
      with (S (2 + length junk + fuel)).
    cbn [parse_loop]. run_parser.
    rewrite (IH fuel (skip 1 tl) result j eof rest Hwf0 Ha0 HF' Heof).
    rewrite skip_skip. f_equal. f_equal.
    change (length (j :: junk)) with (S (length junk)). lia.
Qed.

(** ** The errors the parser raises *)

Lemma at_cursor_near (t : Token) (tl : TokenList) :
  at_cursor t tl -> near t tl.
Proof. intros H. left. exact H. Qed.

Lemma after_cursor_near (t : Token) (tl : TokenList) :
  after_cursor t tl -> near t tl.
Proof. intros H. right. exact H. Qed.

Lemma popT_at_cursor (tl tl' : TokenList) (t : Token) :
  popT tl = Ok t tl' -> at_cursor t tl'.
Proof.
  unfold popT, pop. intros H.
  destruct (index _ _) eqn:E in H; inversion H; subst; clear H.
  exact E.
Qed.

Lemma peekT_after_cursor (tl tl' : TokenList) (t : Token) :
  peekT 1 tl = Ok t tl' -> after_cursor t tl'.
Proof.
  unfold peekT, peek. intros H.
  destruct (index _ _) eqn:E in H; inversion H; subst; clear H.
  exact E.
Qed.

Lemma popT_throws (tl tl' : TokenList) (e : Exn) :
  popT tl = Throw e tl' -> e = TypeError.
Proof.
  unfold popT. destruct (pop tl) as [[t|] tl1]; intros H; inversion H.
  reflexivity.
Qed.

Lemma peekT_throws (pos : Z) (tl tl' : TokenList) (e : Exn) :
  peekT pos tl = Throw e tl' -> e = TypeError.
Proof.
  unfold peekT. destruct (peek pos tl) as [[t|] tl1]; intros H; inversion H.
  reflexivity.
Qed.

(** Case analysis of a run with a known outcome: the outcome of each
    call and of each test in turn, in the order the function makes
    them. *)
Ltac head_scrutinee t :=
  lazymatch t with
  | (match ?s with _ => _ end) _ => head_scrutinee s
  | match ?s with _ => _ end => head_scrutinee s
  | _ => t
  end.

Ltac crack H :=
  repeat (cbv beta iota in H;
          match type of H with
          | ?X = _ =>
              let s := head_scrutinee X in
              lazymatch s with
              | X => fail
              | _ => destruct s eqn:?
              end
          end).

Ltac near_facts :=
  repeat match goal with
    | E : popT _ = Ok _ _ |- _ => apply popT_at_cursor in E
    | E : peekT 1 _ = Ok _ _ |- _ => apply peekT_after_cursor in E
    | E : popT _ = Throw _ _ |- _ => apply popT_throws in E; subst
    | E : peekT _ _ = Throw _ _ |- _ => apply peekT_throws in E; subst
    end.

Ltac found := solve [eauto using at_cursor_near, after_cursor_near].

Ltac name_kind what :=
  match goal with
  | |- raised_at (Error ?msg) _ =>
      match msg with
      | context [got ?t] =>
          right; right; right; exists msg, what, t;
          split; [reflexivity|];
          split; [simpl; tauto|];
          split; [first [left; reflexivity
                        | right; split; [reflexivity|tauto]]|];
          unfold read_last; simpl existsb; simpl String.eqb; cbv iota;
          found
      end
  end.

Ltac name_kind_among whats :=
  match whats with
  | ?what :: ?whats' => first [name_kind what | name_kind_among whats']
  end.

Ltac raised :=
  match goal with
  | |- raised_at TypeError _ => left; reflexivity
  | |- raised_at (Error "Unexpected end of file") _ =>
      right; left; reflexivity
  | |- raised_at (Error "Incomplete statement") _ =>
      right; right; left; reflexivity
  | |- _ =>
      let whats := eval unfold expectations in expectations in
      name_kind_among whats
  end.

Ltac settle H :=
  try discriminate H;
  try (unfold pop_ in *; discriminate);
  try (inversion H; subst; clear H; near_facts;
       first [raised | found]);
  try (near_facts; found).

Ltac errors H :=
  unfold expect in H; unfold bind, ret, throw in H; crack H; settle H.

Lemma parseType_raises (tl : TokenList) (e : Exn) (tl' : TokenList) :
  parseType tl = Throw e tl' -> raised_at e tl'.
Proof. unfold parseType. intros H. errors H. Qed.

Lemma parseFunctionParameter_raises (tl : TokenList) (e : Exn)
  (tl' : TokenList) :
  parseFunctionParameter tl = Throw e tl' -> raised_at e tl'.
Proof.
  pose proof parseType_raises as IH.
  unfold parseFunctionParameter. intros H. errors H.
Qed.

Lemma parseOperator_raises (tl : TokenList) (e : Exn) (tl' : TokenList) :
  parseOperator tl = Throw e tl' -> raised_at e tl'.
Proof. unfold parseOperator. intros H. errors H. Qed.

Lemma expression_raises (fuel : nat) : expression_errors fuel.
Proof.
  pose proof parseOperator_raises as HO.
  induction fuel as [|fuel IH]; unfold expression_errors.
  - repeat split; intros; discriminate.
  - destruct IH as (IH1 & IH2 & IH3 & IH4 & IH5 & IH6 & IH7 & IH8).
    repeat split.
    + intros tl e tl' H. cbn [parseExpression] in H. errors H.
    + intros operands operators tl e tl' H.
      cbn [parseExpression_loop] in H. errors H.
    + intros tl e tl' H. cbn [parseOperand] in H. errors H.
    + intros tl e tl' H. cbn [parseFunctionCall] in H. errors H.
    + intros arguments token tl e tl' Hn H.
      cbn [parseFunctionCall_loop] in H. errors H.
    + intros arguments token tl arguments' token' tl' Hn H.
      cbn [parseFunctionCall_loop] in H. errors H.
    + intros tl e tl' H. cbn [parseArray] in H. errors H.
    + intros items token tl e tl' H. cbn [parseArray_loop] in H. errors H.
Qed.

Lemma parseVariableDecl_raises (fuel : nat) (tl : TokenList) (e : Exn)
  (tl' : TokenList) :
  parseVariableDecl fuel tl = Throw e tl' -> raised_at e tl'.
Proof.
  pose proof parseType_raises as HT.
  destruct (expression_raises fuel) as (HE & _).
  unfold parseVariableDecl. intros H. errors H.
Qed.

Lemma statement_raises (fuel : nat) : statement_errors fuel.
Proof.
  induction fuel as [|fuel IH]; unfold statement_errors.
  - repeat split; intros; discriminate.
  - destruct IH as (IH1 & IH2 & IH3 & IH4 & IH5 & IH6 & IH7 & IH8 & IH9
                    & IH10 & IH11).
    destruct (expression_raises fuel) as (HE & _).
    pose proof (parseVariableDecl_raises fuel) as HV.
    repeat split.
    + intros tl e tl' H. cbn [parseBlock] in H. errors H.
    + intros result token tl e tl' Hn H. cbn [parseBlock_loop] in H.
      errors H.
    + intros result token tl result' token' tl' Hn H.
      cbn [parseBlock_loop] in H. errors H.
    + intros tl e tl' H. cbn [parseStatement] in H. errors H.
    + intros token tl e tl' H. cbn [parseStatement_loop] in H.
      unfold TokenType_Match, type_is in H. errors H.
    + intros tl e tl' H. cbn [parseIfStatement] in H. errors H.
    + intros elseif token tl e tl' H. cbn [parseIfStatement_loop] in H.
      errors H.
    + intros tl e tl' H. cbn [parseMatchStatement] in H.
      unfold TokenType_Match, type_is in H. errors H.
    + intros cases token tl e tl' H. cbn [parseMatchStatement_loop] in H.
      errors H.
    + intros tl e tl' H. cbn [parseMatchCase] in H. errors H.
    + intros tl e tl' H. cbn [parseForStatement] in H. errors H.
Qed.

Lemma parseFunction_loop_raises (fuel : nat) :
  forall (params : list FuncParameter) (token : Token) (tl : TokenList),
    near token tl ->
    (forall e tl',
        parseFunction_loop fuel params token tl = Throw e tl' ->
        raised_at e tl') /\
    (forall params' token' tl',
        parseFunction_loop fuel params token tl = Ok (params', token') tl' ->
        near token' tl').
Proof.
  pose proof parseFunctionParameter_raises as HP.
  induction fuel as [|fuel IH]; intros params token tl Hn.
  - split; intros; discriminate.
  - split.
    + intros e tl' H. cbn [parseFunction_loop] in H. errors H.
      near_facts. eapply IH; [|eassumption]. found.
    + intros params' token' tl' H. cbn [parseFunction_loop] in H. errors H.
      near_facts. eapply IH; [|eassumption]. found.
Qed.

Lemma parseFunction_raises (fuel : nat) (tl : TokenList) (e : Exn)
  (tl' : TokenList) :
  parseFunction fuel tl = Throw e tl' -> raised_at e tl'.
Proof.
  pose proof parseType_raises as HT.
  destruct (statement_raises fuel) as (HB & _).
  assert (HL1 : forall params token tl e tl',
             near token tl ->
             parseFunction_loop fuel params token tl = Throw e tl' ->
             raised_at e tl')
    by (intros; eapply parseFunction_loop_raises; eassumption).
  assert (HL2 : forall params token tl params' token' tl',
             near token tl ->
             parseFunction_loop fuel params token tl
             = Ok (params', token') tl' ->
             near token' tl')
    by (intros; eapply parseFunction_loop_raises; eassumption).
  unfold parseFunction. intros H. errors H.
Qed.

Lemma parse_loop_raises (fuel : nat) :
  forall (result : list Func) (token : Token) (tl : TokenList) (e : Exn)
         (tl' : TokenList),
    parse_loop fuel result token tl = Throw e tl' -> raised_at e tl'.
Proof.
  induction fuel as [|fuel IH]; intros result token tl e tl' H.
  - discriminate H.
  - pose proof (parseFunction_raises fuel) as HF.
    cbn [parse_loop] in H. errors H.
Qed.

(** Whatever the tokens, an exception raised by [parse] is one of
    [raised_at]. *)
Lemma parse_raises (fuel : nat) (tl : TokenList) (e : Exn)
  (tl' : TokenList) :
  parse fuel tl = Throw e tl' -> raised_at e tl'.
Proof.
  pose proof (parse_loop_raises fuel) as HL.
  unfold parse. intros H. errors H.
Qed.

(** A function header followed by a token other than an opening brace:
    the parse ends with the error of [parseBlock], the cursor on that
    token. *)
Lemma parse_header_without_block (fuel : nat) (name type : string)
  (t : Token) (rest : list Token) :
  tok_type t <> TokenType.LBrace ->
  parse (2 + fuel)
    (newTokenList
       (tok TokenType.Func :: tokv TokenType.Identifier name
        :: tok TokenType.LParen :: tok TokenType.RParen
        :: tok TokenType.Colon :: tokv TokenType.Type_ type :: t :: rest)) =
  Throw (Error ("Expected '{', got '" ++ tokenToString (tok_type t) ++ "'"))
    (skip 7
       (newTokenList
          (tok TokenType.Func :: tokv TokenType.Identifier name
           :: tok TokenType.LParen :: tok TokenType.RParen
           :: tok TokenType.Colon :: tokv TokenType.Type_ type :: t :: rest))).
Proof.
  intros Ht.
  pose proof (wf_new
    (tok TokenType.Func :: tokv TokenType.Identifier name
     :: tok TokenType.LParen :: tok TokenType.RParen
     :: tok TokenType.Colon :: tokv TokenType.Type_ type :: t :: rest))
    as Hwf.
  pose proof (ahead_new
    (tok TokenType.Func :: tokv TokenType.Identifier name
     :: tok TokenType.LParen :: tok TokenType.RParen
     :: tok TokenType.Colon :: tokv TokenType.Type_ type :: t :: rest))
    as Ha.
  set (tl := newTokenList _) in *.
  change (2 + fuel) with (S (S fuel)).
  unfold parse. run_parser.
  cbn [parse_loop]. run_parser.
  unfold parseFunction. run_parser.
  cbn [parseFunction_loop]. run_parser.
  unfold parseType. run_parser.
  assert (Hb : parseBlock (S fuel) (skip 1 (skip 1 (skip 1 (skip 1 (skip 1
                 (skip 1 tl)))))) =
               Throw (Error ("Expected '{', got '"
                             ++ tokenToString (tok_type t) ++ "'"))
                 (skip 7 tl)).
  { cbn [parseBlock]. run_parser.
    rewrite !skip_skip. reflexivity. }
  destruct (type =? "string")%string;
    [|destruct (type =? "i32")%string;
      [|destruct (type =? "void")%string]];
    rewrite Hb; reflexivity.
Qed.

(** A token sequence without [func] parses to the empty program. *)
Lemma parse_without_func (fuel : nat) (eof : Token) (junk : list Token) :
  Forall (fun j => tok_type j <> TokenType.Func /\
                   tok_type j <> TokenType.EOF) junk ->
  tok_type eof = TokenType.EOF ->
  parse (2 + length junk + fuel) (newTokenList (junk ++ [eof])) =
  Ok (mkParsedFile [])
    (skip (Z.of_nat (length junk) + 1) (newTokenList (junk ++ [eof]))).
Proof.
  intros HF Heof.
  destruct junk as [|j junk].
  - simpl app. simpl length. change (2 + 0 + fuel) with (S (S fuel)).
    pose proof (wf_new [eof]) as Hwf.
    pose proof (ahead_new [eof]) as Ha.
    unfold parse. run_parser. cbn [parse_loop].
    run_parser. reflexivity.
  - pose proof (wf_new ((j :: junk) ++ [eof])) as Hwf.
    pose proof (ahead_new ((j :: junk) ++ [eof])) as Ha.
    set (tl := newTokenList _) in *. simpl app in Ha.
    unfold parse. run_parser.
    replace (2 + length (j :: junk) + fuel)
      with (2 + length junk + S fuel) by (simpl; lia).
    rewrite (parse_loop_skips junk (S fuel) (skip 1 tl) [] j eof []
               Hwf0 Ha0 HF Heof).
    rewrite skip_skip. f_equal. f_equal.
    change (length (j :: junk)) with (S (length junk)). lia.
Qed.




(* ================================================================== *)
(** * The code generator *)

Lemma findIndex_from_ge {A : Type} (p : A -> bool) (l : list A) :
  forall i, (0 <= i)%Z ->
    findIndex_from p l i = (-1)%Z \/ (i <= findIndex_from p l i)%Z.
Proof.
  induction l as [|x l IH]; intros i Hi; simpl.
  - left. reflexivity.
  - destruct (p x); [right; lia|].
    destruct (IH (i + 1)%Z ltac:(lia)) as [H|H]; [left; exact H|right; lia].
Qed.

Lemma findIndex_from_found {A : Type} (p : A -> bool) (l : list A) :
  forall i, (0 <= i)%Z ->
    findIndex_from p l i <> (-1)%Z <-> exists x, In x l /\ p x = true.
Proof.
  induction l as [|x l IH]; intros i Hi; simpl.
  - split; [congruence|]. intros (x & [] & _).
  - destruct (p x) eqn:Hp.
    + split; [|lia]. intros _. exists x. auto.
    + rewrite (IH (i + 1)%Z ltac:(lia)). split.
      * intros (y & Hy & Hpy). exists y. auto.
      * intros (y & [<-|Hy] & Hpy); [congruence|]. exists y. auto.
Qed.

(** [findIndex] differs from [-1] exactly when a function of that name
    is declared. *)
Lemma declared_findIndex (name : string) (context : ParsedFile) :
  negb (findIndex (fun func => String.eqb (func_name func) name)
          (funcs context) =? -1)%Z = true
  <-> has_function_named name context.
Proof.
  rewrite negb_true_iff, Z.eqb_neq. unfold findIndex.
  rewrite findIndex_from_found by lia. unfold has_function_named.
  split; intros (f & Hin & Hf); exists f; split; auto;
    apply String.eqb_eq; exact Hf.
Qed.

Lemma undeclared_findIndex (name : string) (context : ParsedFile) :
  negb (findIndex (fun func => String.eqb (func_name func) name)
          (funcs context) =? -1)%Z = false
  <-> ~ has_function_named name context.
Proof.
  rewrite <- declared_findIndex.
  destruct (negb _); split; congruence.
Qed.

(** C4 (amended).  The generator appends the line [main();] after the
    function definitions exactly when the program declares a function
    named [main], whatever its parameters; when none is named [main] the
    output is the definitions alone. *)
Theorem main_call_appended_iff_named (parsedFile : ParsedFile) :
  (translate_lines parsedFile
   = (definition_lines parsedFile ++ ["main();"])%list
   <-> has_function_named "main" parsedFile) /\
  (translate_lines parsedFile = definition_lines parsedFile
   <-> ~ has_function_named "main" parsedFile).
Proof.
  unfold translate_lines. fold (definition_lines parsedFile).
  destruct (negb (findIndex (fun func => String.eqb (func_name func) "main")
                    (funcs parsedFile) =? -1)%Z) eqn:E.
  - apply declared_findIndex in E. split; split; intros H; auto.
    + apply (f_equal (@length string)) in H.
      rewrite length_app in H. simpl in H. lia.
    + contradiction.
  - apply undeclared_findIndex in E. split; split; intros H; auto.
    + apply (f_equal (@length string)) in H.
      rewrite length_app in H. simpl in H. lia.
    + contradiction.
Qed.

(** C4 (counterexample).  A program whose only function named [main]
    takes a parameter has no zero-argument [main], and still the call of
    [main] is appended. *)
Lemma main_with_parameter_is_called :
  let parsedFile :=
    mkParsedFile
      [mkFunc "main" [mkFuncParameter "x" DataType.I32] (mkBlock [] [])
         DataType.Void] in
  ~ has_zero_argument_main parsedFile /\
  translate_lines parsedFile = ["function main(x) {"; "}"; ""; "main();"].
Proof.
  split; [|reflexivity].
  intros (f & [<-|[]] & _ & Hp). discriminate Hp.
Qed.

(** The same from source text. *)
Example compile_main_with_parameter :
  compile 20 "func main(x: i32): void { }" =
  Ok ("function main(x) {" ++ newline ++ "}" ++ newline ++ newline
      ++ "main();")
     (skip 12 (lex "func main(x: i32): void { }")).
Proof. vm_compute. reflexivity. Qed.

Lemma translateExpression_call (name : string) (arguments : list Expression)
  (context : ParsedFile) :
  translateExpression (E_function_call name arguments) context =
  translateFunctionCall name arguments context.
Proof. reflexivity. Qed.

(** C9.  A call named [print] is lowered to [console.log(args);]; any
    other call is lowered to [name(args)] when a function of that name
    is declared in the program, and to the empty text when none is.  The
    lowering is a total function: no case raises. *)
Theorem translateFunctionCall_cases (name : string)
  (arguments : list Expression) (context : ParsedFile) :
  let args :=
    join ", " (map (fun arg => translateExpression arg context) arguments) in
  (name = "print" ->
   translateFunctionCall name arguments context
   = "console.log(" ++ args ++ ");") /\
  (name <> "print" -> has_function_named name context ->
   translateFunctionCall name arguments context = name ++ "(" ++ args ++ ")")
  /\
  (name <> "print" -> ~ has_function_named name context ->
   translateFunctionCall name arguments context = "").
Proof.
  intros args. unfold translateFunctionCall, translateCall. fold args.
  split; [|split].
  - intros ->. reflexivity.
  - intros Hn Hd. apply String.eqb_neq in Hn. rewrite Hn.
    apply declared_findIndex in Hd. rewrite Hd. reflexivity.
  - intros Hn Hd. apply String.eqb_neq in Hn. rewrite Hn.
    apply undeclared_findIndex in Hd. rewrite Hd. reflexivity.
Qed.

Lemma translateFunctionCall_cases_witness :
  let context :=
    mkParsedFile [mkFunc "greet" [] (mkBlock [] []) DataType.Void] in
  translateFunctionCall "print" [E_string "hi"; E_i32 "1"] context
  = "console.log('hi', 1);" /\
  translateFunctionCall "greet" [E_variable "x"] context = "greet(x)" /\
  translateFunctionCall "missing" [E_variable "x"] context = "".
Proof.
  intros context. split; [|split].
  - apply (proj1 (translateFunctionCall_cases "print"
                    [E_string "hi"; E_i32 "1"] context)).
    reflexivity.
  - apply (proj1 (proj2 (translateFunctionCall_cases "greet"
                           [E_variable "x"] context))).
    + discriminate.
    + exists (mkFunc "greet" [] (mkBlock [] []) DataType.Void).
      split; [left|]; reflexivity.
  - apply (proj2 (proj2 (translateFunctionCall_cases "missing"
                           [E_variable "x"] context))).
    + discriminate.
    + intros (f & [<-|[]] & Hf). discriminate Hf.
Defined.

(* ================================================================== *)
(** * Loops *)

(** C2 (amended).  A for-loop whose iteration expression is a variable
    reference is lowered to the element-wise loop
    [for (const item of variable) { ... }] around the lowered block, the
    bound name being [it] when the loop names none. *)
Theorem variable_loop_is_element_wise (item : option string)
  (data : string) (block : Block) (context : ParsedFile)
  (indentLevel : nat) :
  translateForStatement (mkForStatement item (Some (E_variable data)) block)
    context indentLevel
  = element_loop item (E_variable data) block context indentLevel /\
  translateForStatement (mkForStatement None (Some (E_variable data)) block)
    context indentLevel
  = [spaces (indentLevel * 4) ++ "for (const it of " ++ data ++ ") {"]
    +++ translateBlock block context (indentLevel + 1)
    +++ [spaces (indentLevel * 4) ++ "}"].
Proof. split; reflexivity. Qed.

(** Every other iteration expression that is not a range is lowered to
    no text at all. *)
Lemma other_loop_is_dropped (item : option string) (expression : Expression)
  (block : Block) (context : ParsedFile) (indentLevel : nat) :
  is_range expression = false ->
  is_variable expression = false ->
  translateForStatement (mkForStatement item (Some expression) block)
    context indentLevel = [].
Proof.
  destruct expression as [| | | | | |op|op l r]; simpl; intros Hr Hv;
    try reflexivity; try discriminate.
  destruct op; try reflexivity; discriminate.
Qed.

(** C2 (counterexample).  The array literal [[1, 2]] is an iteration
    expression that is present and is no range, and the loop over it is
    lowered to nothing, not to the element-wise loop. *)
Lemma array_loop_is_not_element_wise :
  let expression := E_array DataType.I32 [E_i32 "1"; E_i32 "2"] in
  let context := mkParsedFile [] in
  is_range expression = false /\
  translateForStatement
    (mkForStatement None (Some expression) (mkBlock [St_break] []))
    context 1 = [] /\
  translateForStatement
    (mkForStatement None (Some expression) (mkBlock [St_break] []))
    context 1
  <> element_loop None expression (mkBlock [St_break] []) context 1.
Proof.
  intros expression context. split; [reflexivity|]. split; [reflexivity|].
  discriminate.
Qed.

(** The text of a loop over a range: a counted loop from [start] while
    below [end], in steps of one. *)
Lemma range_loop_text (item : option string) (lhs rhs : Expression)
  (block : Block) (context : ParsedFile) (indentLevel : nat) :
  translateForStatement
    (mkForStatement item
       (Some (E_binary_operation Operator.Range lhs rhs)) block)
    context indentLevel
  = [spaces (indentLevel * 4) ++ "for (let " ++ itemName_of item ++ " = "
     ++ translateExpression lhs context ++ "; " ++ itemName_of item ++ " < "
     ++ translateExpression rhs context ++ "; " ++ itemName_of item
     ++ "++) {"]
    +++ translateBlock block context (indentLevel + 1)
    +++ [spaces (indentLevel * 4) ++ "}"].
Proof. reflexivity. Qed.

(** Without a bound name the range loop compiles. *)
Example compile_range_loop :
  compile 20 "func main(): void { for 0..10 { } }" =
  Ok ("function main() {" ++ newline
      ++ "    for (let it = 0; it < 10; it++) {" ++ newline
      ++ "    }" ++ newline ++ "}" ++ newline ++ newline ++ "main();")
     (skip 15 (lex "func main(): void { for 0..10 { } }")).
Proof. vm_compute. reflexivity. Qed.

(** With a bound name it does not. *)
Example compile_range_loop_with_item :
  compile 20 "func main(): void { for i in 0..10 { } }" =
  Throw (Error "Expected expression, got 'in'")
    (skip 9 (lex "func main(): void { for i in 0..10 { } }")).
Proof. vm_compute. reflexivity. Qed.

(* ================================================================== *)
(** * Deferred closures *)

Lemma translateStatement_not_defer (statement : Statement)
  (context : ParsedFile) (indentLevel : nat) (defers : list string) :
  (forall data, statement <> St_defer data) ->
  translateStatement statement context indentLevel defers
  = (fst (translateStatement statement context indentLevel []), []).
Proof.
  destruct statement; intros H; try reflexivity.
  exfalso. eapply H. reflexivity.
Qed.

Lemma deferNames_length (k : nat) : length (map deferName (seq 0 k)) = k.
Proof. rewrite length_map, length_seq. reflexivity. Qed.

(** The loop of [translateBlock], started with [k] deferred closures
    declared: it appends the text of the statements and the names of the
    closures they declare. *)
Lemma translateBlock_loop (context : ParsedFile) (indentLevel : nat)
  (statements : list Statement) :
  forall (result : list string) (k : nat),
    fold_left
      (fun '(result, defers) statement =>
         let '(lines, names) :=
           translateStatement statement context indentLevel defers in
         ((result ++ lines)%list, (defers ++ names)%list))
      statements (result, map deferName (seq 0 k))
    = ((result ++ blockBody context indentLevel statements k)%list,
       map deferName (seq 0 (k + deferCount statements))).
Proof.
  induction statements as [|statement statements IH]; intros result k.
  - simpl. rewrite app_nil_r, Nat.add_0_r. reflexivity.
  - cbn [fold_left].
    destruct statement as [e|e|d|d|d|d| | |e];
      try (rewrite translateStatement_not_defer by discriminate;
           rewrite app_nil_r, IH; cbn [blockBody deferCount];
           rewrite <- app_assoc; reflexivity).
    cbn [translateStatement]. rewrite deferNames_length.
    fold (deferName k).
    replace (map deferName (seq 0 k) ++ [deferName k])%list
      with (map deferName (seq 0 (S k)))
      by (rewrite seq_S, map_app; reflexivity).
    rewrite IH. cbn [blockBody deferCount].
    rewrite <- app_assoc, Nat.add_succ_r. reflexivity.
Qed.

(** C6.  The text of a block is the text of its statements, in order,
    followed by the invocations [defer_0();], [defer_1();], ... of the
    closures its defer statements declare, in declaration order: every
    invocation comes after every statement of the block, a [return] or
    [break] included. *)
Theorem deferred_calls_close_the_block (block : Block)
  (context : ParsedFile) (indentLevel : nat) :
  translateBlock block context indentLevel
  = (blockBody context indentLevel (statements block) 0
     ++ deferCalls indentLevel (deferCount (statements block)))%list.
Proof.
  destruct block as [ss vs]. cbn [translateBlock statements].
  change (@nil string) with (map deferName (seq 0 0)) at 2.
  rewrite (translateBlock_loop context indentLevel ss [] 0).
  cbn [app Nat.add]. unfold deferCalls. rewrite map_map. reflexivity.
Qed.

(** Two deferred calls around a [return]: both invocations follow the
    [return] line, in the order of their declaration. *)
Example defer_then_return :
  translateBlock
    (mkBlock [St_defer (E_function_call "print" [E_string "a"]);
              St_return (E_i32 "1");
              St_defer (E_function_call "print" [E_string "b"])] [])
    (mkParsedFile []) 1
  = ["    const defer_0 = () => { console.log('a');; };";
     "    return 1;";
     "    const defer_1 = () => { console.log('b');; };";
     "    defer_0();";
     "    defer_1();"].
Proof. vm_compute. reflexivity. Qed.

(* ================================================================== *)
(** * The scanner *)

Lemma nth_error_some_lt {A : Type} (l : list A) (n : nat) (x : A) :
  nth_error l n = Some x -> n < length l.
Proof. intros H. apply nth_error_Some. congruence. Qed.

Lemma scan_while_ge (p : ascii -> bool) (chars : list ascii) (fuel : nat) :
  forall i, i <= scan_while fuel p chars i.
Proof.
  induction fuel as [|fuel IH]; intros i; simpl; [lia|].
  destruct (nth_error chars i) as [c|]; [|lia].
  destruct (p c); [|lia].
  specialize (IH (S i)). lia.
Qed.

Lemma scan_while_between (p : ascii -> bool) (chars : list ascii)
  (fuel : nat) :
  forall i k, i <= k < scan_while fuel p chars i ->
    exists c, nth_error chars k = Some c /\ p c = true.
Proof.
  induction fuel as [|fuel IH]; intros i k Hk; simpl in Hk; [lia|].
  destruct (nth_error chars i) as [c|] eqn:E; [|lia].
  destruct (p c) eqn:Hp; [|lia].
  destruct (Nat.eq_dec k i) as [->|Hne]; [eauto|].
  apply (IH (S i)). lia.
Qed.

Lemma scan_while_stop (p : ascii -> bool) (chars : list ascii) (fuel : nat) :
  forall i, length chars <= i + fuel ->
    match nth_error chars (scan_while fuel p chars i) with
    | Some c => p c = false
    | None => True
    end.
Proof.
  induction fuel as [|fuel IH]; intros i Hf; simpl.
  - destruct (nth_error chars i) eqn:E; [|exact I].
    apply nth_error_some_lt in E. lia.
  - destruct (nth_error chars i) as [c|] eqn:E; [|rewrite E; exact I].
    destruct (p c) eqn:Hp; [|rewrite E; exact Hp].
    apply IH. lia.
Qed.

(** X1.  [skipWhitespace] never moves backwards, passes over whitespace
    only, and stops at the end of the text or on a character that is no
    whitespace. *)
Theorem skipWhitespace_spec (chars : list ascii) (i : nat) :
  i <= skipWhitespace chars i /\
  (forall k, i <= k < skipWhitespace chars i ->
     exists c, nth_error chars k = Some c /\ isWhitespace c = true) /\
  match nth_error chars (skipWhitespace chars i) with
  | Some c => isWhitespace c = false
  | None => True
  end.
Proof.
  unfold skipWhitespace. split; [apply scan_while_ge|]. split.
  - apply scan_while_between.
  - apply scan_while_stop. lia.
Qed.

(** A loop over characters that all satisfy the test runs to the end. *)
Lemma scan_while_all (p : ascii -> bool) (chars : list ascii) (fuel : nat) :
  forall i, length chars <= i + fuel -> i <= length chars ->
    (forall k c, i <= k -> nth_error chars k = Some c -> p c = true) ->
    scan_while fuel p chars i = length chars.
Proof.
  induction fuel as [|fuel IH]; intros i Hf Hi Hp; simpl; [lia|].
  destruct (nth_error chars i) as [c|] eqn:E.
  - rewrite (Hp i c (le_n _) E).
    apply IH; [lia| |].
    + apply nth_error_some_lt in E. lia.
    + intros k c' Hk. apply Hp. lia.
  - apply nth_error_None in E. lia.
Qed.

Lemma all_chars_nth (p : ascii -> bool) (s : string) (k : nat) (c : ascii) :
  all_chars p s = true ->
  nth_error (list_ascii_of_string s) k = Some c -> p c = true.
Proof.
  unfold all_chars. intros H E. rewrite forallb_forall in H.
  apply H. eapply nth_error_In. exact E.
Qed.

Lemma slice_all (chars : list ascii) :
  slice chars 0 (length chars) = string_of_list_ascii chars.
Proof.
  unfold slice. rewrite Nat.sub_0_r. simpl skipn. rewrite firstn_all.
  reflexivity.
Qed.

Lemma lex_loop_at_end (fuel : nat) (chars : list ascii) (i : nat)
  (result : list Token) :
  length chars <= i -> lex_loop fuel chars i result = result.
Proof.
  intros H. destruct fuel as [|fuel]; simpl; [reflexivity|].
  destruct (i <? length chars)%nat eqn:E; [|reflexivity].
  apply Nat.ltb_lt in E. lia.
Qed.

Lemma digit_is_no_whitespace (c : ascii) :
  isDigit c = true -> isWhitespace c = false.
Proof.
  destruct c as [[] [] [] [] [] [] [] []]; intros H;
    try discriminate H; reflexivity.
Qed.

Lemma character_is_no_whitespace (c : ascii) :
  isCharacter c = true -> isWhitespace c = false.
Proof.
  destruct c as [[] [] [] [] [] [] [] []]; intros H;
    try discriminate H; reflexivity.
Qed.

Lemma lex_step_digit (chars : list ascii) (i : nat) (c : ascii) :
  nth_error chars i = Some c -> isDigit c = true ->
  lex_step chars i =
  (scan_while (length chars) isDigit chars i - 1,
   [tokv TokenType.Number
      (slice chars i (scan_while (length chars) isDigit chars i))]).
Proof.
  intros E Hd. unfold lex_step. rewrite E.
  destruct c as [[] [] [] [] [] [] [] []]; try discriminate Hd; reflexivity.
Qed.

Lemma lex_step_word (chars : list ascii) (i : nat) (c : ascii) :
  nth_error chars i = Some c -> isCharacter c = true -> isDigit c = false ->
  lex_step chars i =
  (scan_while (length chars) isCharacter chars i - 1,
   [classify
      (slice chars i (scan_while (length chars) isCharacter chars i))]).
Proof.
  intros E Hc Hd. unfold lex_step. rewrite E.
  destruct c as [[] [] [] [] [] [] [] []]; try discriminate Hc;
    try discriminate Hd; reflexivity.
Qed.

Lemma skipWhitespace_stays (chars : list ascii) (c : ascii) :
  nth_error chars 0 = Some c -> isWhitespace c = false ->
  skipWhitespace chars 0 = 0.
Proof.
  intros E Hw. unfold skipWhitespace.
  destruct chars as [|c' chars]; [discriminate E|].
  simpl in E. inversion E; subst. simpl. rewrite Hw. reflexivity.
Qed.

(** The scanner on a text that is one run of characters of the class
    [p], the first of which (of the class [q] as well) makes [lex_step]
    scan the run into the token built by [mk]. *)
Lemma lex_one_run (p q : ascii -> bool) (mk : string -> Token) (s : string) :
  all_chars p s = true ->
  (forall c, p c = true -> isWhitespace c = false) ->
  (forall chars c, nth_error chars 0 = Some c -> p c = true -> q c = true ->
     lex_step chars 0 =
     (scan_while (length chars) p chars 0 - 1,
      [mk (slice chars 0 (scan_while (length chars) p chars 0))])) ->
  first_char p s = true ->
  first_char q s = true ->
  lex_tokens s = [mk s; tok TokenType.EOF].
Proof.
  intros Hall Hws Hstep Hfirst Hq.
  unfold lex_tokens.
  remember (list_ascii_of_string s) as chars eqn:Hchars.
  destruct s as [|c s']; [discriminate Hfirst|].
  simpl in Hfirst, Hq.
  assert (E : nth_error chars 0 = Some c) by (subst; reflexivity).
  assert (Hlen : length chars = S (length (list_ascii_of_string s')))
    by (subst; reflexivity).
  rewrite Hlen at 1. cbn [lex_loop].
  assert (Hlt : (0 <? length chars)%nat = true)
    by (apply Nat.ltb_lt; lia).
  rewrite Hlt.
  rewrite (skipWhitespace_stays chars c E (Hws c Hfirst)).
  rewrite (Hstep chars c E Hfirst Hq).
  assert (Hscan : scan_while (length chars) p chars 0 = length chars).
  { apply scan_while_all; [lia|lia|].
    intros k c' _ Hk. subst chars. eapply all_chars_nth; eassumption. }
  rewrite Hscan, slice_all.
  rewrite lex_loop_at_end by lia.
  subst chars. rewrite string_of_list_ascii_of_string. reflexivity.
Qed.

Lemma first_char_of_all (p : ascii -> bool) (s : string) :
  s <> "" -> all_chars p s = true -> first_char p s = true.
Proof.
  intros Hne Hall. destruct s as [|c s']; [congruence|].
  unfold all_chars in Hall. simpl in Hall.
  apply andb_true_iff in Hall. apply Hall.
Qed.

(** X2.  A text made of digits only is scanned into one number token
    whose payload is the text itself, followed by the end-of-stream
    token. *)
Theorem lex_number (s : string) :
  s <> "" -> all_chars isDigit s = true ->
  lex_tokens s = [tokv TokenType.Number s; tok TokenType.EOF].
Proof.
  intros Hne Hall.
  apply (lex_one_run isDigit isDigit (tokv TokenType.Number)); auto.
  - apply digit_is_no_whitespace.
  - intros chars c E Hc _. apply (lex_step_digit chars 0 c E Hc).
  - apply first_char_of_all; assumption.
  - apply first_char_of_all; assumption.
Qed.

Lemma lex_number_witness :
  lex_tokens "2024" = [tokv TokenType.Number "2024"; tok TokenType.EOF].
Proof.
  apply (lex_number "2024"); [discriminate|reflexivity].
Defined.

Lemma classify_non_keyword (w : string) :
  ~ In w keywords -> classify w = tokv TokenType.Identifier w.
Proof.
  intros H. unfold classify.
  repeat match goal with
    | |- context [String.eqb w ?k] =>
        destruct (String.eqb_spec w k) as [->|_];
        [exfalso; apply H; simpl; tauto|]
    end.
  reflexivity.
Qed.

(** X3.  A text made of letters, digits and underscores that does not
    start with a digit and is no keyword is scanned into one identifier
    token whose payload is the text itself. *)
Theorem lex_identifier (s : string) :
  all_chars isCharacter s = true ->
  first_char (fun c => negb (isDigit c)) s = true ->
  ~ In s keywords ->
  lex_tokens s = [tokv TokenType.Identifier s; tok TokenType.EOF].
Proof.
  intros Hall Hfirst Hkw.
  rewrite <- (classify_non_keyword s Hkw).
  apply (lex_one_run isCharacter (fun c => negb (isDigit c)) classify); auto.
  - apply character_is_no_whitespace.
  - intros chars c E Hc Hd. apply negb_true_iff in Hd.
    apply (lex_step_word chars 0 c E Hc Hd).
  - apply first_char_of_all; [|assumption].
    intros ->. discriminate Hfirst.
Qed.

Lemma lex_identifier_witness :
  lex_tokens "total_2" = [tokv TokenType.Identifier "total_2";
                          tok TokenType.EOF].
Proof.
  apply (lex_identifier "total_2"); [reflexivity|reflexivity|].
  simpl. intros H.
  repeat (destruct H as [H|H]; [discriminate H|]). exact H.
Defined.

(** X4.  A text made of whitespace only is scanned into the lone
    end-of-stream token. *)
Theorem lex_blank (s : string) :
  all_chars isWhitespace s = true -> lex_tokens s = [tok TokenType.EOF].
Proof.
  intros Hall. unfold lex_tokens.
  remember (list_ascii_of_string s) as chars eqn:Hchars.
  destruct chars as [|c chars']; [reflexivity|].
  cbn [length lex_loop].
  change (0 <? S (length chars'))%nat with true. cbv iota.
  assert (Hskip : skipWhitespace (c :: chars') 0 = length (c :: chars')).
  { unfold skipWhitespace. apply scan_while_all; [lia|lia|].
    intros k c' _ Hk. rewrite Hchars in Hk.
    eapply all_chars_nth; eassumption. }
  rewrite Hskip.
  assert (Hstep : lex_step (c :: chars') (length (c :: chars'))
                  = (length (c :: chars'), [])).
  { unfold lex_step.
    destruct (nth_error (c :: chars') (length (c :: chars'))) eqn:E;
      [|reflexivity].
    apply nth_error_some_lt in E. lia. }
  rewrite Hstep. rewrite lex_loop_at_end by (simpl; lia). reflexivity.
Qed.

Lemma lex_blank_witness :
  lex_tokens (String " " (String "009" (String "010" ""))) =
  [tok TokenType.EOF].
Proof.
  apply (lex_blank (String " " (String "009" (String "010" "")))).
  reflexivity.
Defined.

Lemma lex_step_hash (chars : list ascii) :
  lex_step ("#"%char :: chars) 0 =
  (scan_while (length ("#"%char :: chars))
     (fun ch => negb (Ascii.eqb ch "010")) ("#"%char :: chars) 0, []).
Proof. reflexivity. Qed.

(** X5.  A text that is one comment, a [#] followed by characters other
    than the line feed, is scanned into the lone end-of-stream token. *)
Theorem lex_comment (s : string) :
  all_chars (fun ch => negb (Ascii.eqb ch "010")) s = true ->
  lex_tokens (String "#" s) = [tok TokenType.EOF].
Proof.
  intros Hall. unfold lex_tokens.
  change (list_ascii_of_string (String "#" s))
    with ("#"%char :: list_ascii_of_string s).
  remember (list_ascii_of_string s) as chars eqn:Hchars.
  cbn [length lex_loop].
  change (0 <? S (length chars))%nat with true. cbv iota.
  rewrite (skipWhitespace_stays ("#"%char :: chars) "#" eq_refl eq_refl).
  assert (Hscan : scan_while (length ("#"%char :: chars))
                    (fun ch => negb (Ascii.eqb ch "010"))
                    ("#"%char :: chars) 0
                  = length ("#"%char :: chars)).
  { apply scan_while_all; [lia|lia|].
    intros [|k] c' _ Hk; simpl in Hk.
    - inversion Hk; subst. reflexivity.
    - rewrite Hchars in Hk.
      apply (all_chars_nth _ s k c' Hall Hk). }
  rewrite lex_step_hash, Hscan.
  rewrite lex_loop_at_end by (simpl; lia). reflexivity.
Qed.

Lemma lex_comment_witness :
  lex_tokens "# print('x') is not scanned" = [tok TokenType.EOF].
Proof.
  apply (lex_comment " print('x') is not scanned"). reflexivity.
Defined.

Lemma scan_while_until (p : ascii -> bool) (chars : list ascii) (fuel : nat) :
  forall i j, i <= j -> j <= i + fuel ->
    (forall k, i <= k < j ->
       exists c, nth_error chars k = Some c /\ p c = true) ->
    match nth_error chars j with
    | Some c => p c = false
    | None => True
    end ->
    scan_while fuel p chars i = j.
Proof.
  induction fuel as [|fuel IH]; intros i j Hij Hf Hin Hstop; simpl; [lia|].
  destruct (Nat.eq_dec i j) as [->|Hne].
  - destruct (nth_error chars j) as [c|]; [rewrite Hstop|]; reflexivity.
  - destruct (Hin i ltac:(lia)) as (c & E & Hp). rewrite E, Hp.
    apply IH; [lia|lia| |exact Hstop].
    intros k Hk. apply Hin. lia.
Qed.

Lemma lex_step_quote (chars : list ascii) :
  lex_step ("'"%char :: chars) 0 =
  (scan_while (length ("'"%char :: chars))
     (fun ch => negb (Ascii.eqb ch "'")) ("'"%char :: chars) 1,
   [tokv TokenType.String
      (slice ("'"%char :: chars) 1
         (scan_while (length ("'"%char :: chars))
            (fun ch => negb (Ascii.eqb ch "'")) ("'"%char :: chars) 1))]).
Proof. reflexivity. Qed.

Lemma list_ascii_of_string_app (a b : string) :
  list_ascii_of_string (a ++ b)
  = (list_ascii_of_string a ++ list_ascii_of_string b)%list.
Proof.
  induction a as [|c a IH]; simpl; [reflexivity|]. rewrite IH. reflexivity.
Qed.

(** X6.  A single-quoted text without a quote inside is scanned into one
    string token whose payload is the text between the quotes, taken
    verbatim; when the closing quote is missing the literal silently runs
    to the end of the input and the result is the same. *)
Theorem lex_string_literal (s : string) :
  all_chars (fun ch => negb (Ascii.eqb ch "'")) s = true ->
  lex_tokens (String "'" (s ++ String "'" ""))
  = [tokv TokenType.String s; tok TokenType.EOF] /\
  lex_tokens (String "'" s) = [tokv TokenType.String s; tok TokenType.EOF].
Proof.
  intros Hall.
  set (p := fun ch => negb (Ascii.eqb ch "'")) in *.
  remember (list_ascii_of_string s) as cs eqn:Hcs.
  assert (Hin : forall (rest : list ascii) k,
             1 <= k < S (length cs) ->
             exists c, nth_error ("'"%char :: cs ++ rest)%list k = Some c
                       /\ p c = true).
  { intros rest [|k] Hk; [lia|]. simpl.
    destruct (nth_error cs k) as [c|] eqn:E.
    - exists c. rewrite nth_error_app1 by lia. split; [exact E|].
      rewrite Hcs in E. apply (all_chars_nth p s k c Hall E).
    - apply nth_error_None in E. lia. }
  split; unfold lex_tokens.
  - change (list_ascii_of_string (String "'" (s ++ String "'" "")))
      with ("'"%char :: list_ascii_of_string (s ++ String "'" "")).
    rewrite list_ascii_of_string_app, <- Hcs.
    change (list_ascii_of_string (String "'" "")) with ["'"%char].
    cbn [length lex_loop].
    change (0 <? S (length (cs ++ ["'"%char])))%nat with true. cbv iota.
    rewrite (skipWhitespace_stays ("'"%char :: cs ++ ["'"%char]) "'"
               eq_refl eq_refl).
    rewrite lex_step_quote. fold p.
    assert (Hscan : scan_while (length ("'"%char :: cs ++ ["'"%char])) p
                      ("'"%char :: cs ++ ["'"%char]) 1 = S (length cs)).
    { apply scan_while_until;
        [lia|simpl; rewrite length_app; simpl; lia|apply Hin|].
      simpl. rewrite nth_error_app2 by lia.
      rewrite Nat.sub_diag. reflexivity. }
    rewrite Hscan.
    rewrite lex_loop_at_end by (simpl; rewrite length_app; simpl; lia).
    unfold slice. cbn [skipn].
    replace (S (length cs) - 1) with (length cs) by lia.
    rewrite firstn_app, Nat.sub_diag, firstn_all. simpl firstn.
    rewrite app_nil_r, Hcs, string_of_list_ascii_of_string. reflexivity.
  - change (list_ascii_of_string (String "'" s))
      with ("'"%char :: list_ascii_of_string s).
    rewrite <- Hcs.
    cbn [length lex_loop].
    change (0 <? S (length cs))%nat with true. cbv iota.
    rewrite (skipWhitespace_stays ("'"%char :: cs) "'" eq_refl eq_refl).
    rewrite lex_step_quote. fold p.
    assert (Hscan : scan_while (length ("'"%char :: cs)) p
                      ("'"%char :: cs) 1 = S (length cs)).
    { apply scan_while_until; [lia|simpl; lia| |].
      - intros k Hk. specialize (Hin [] k Hk).
        rewrite app_nil_r in Hin. exact Hin.
      - simpl. destruct (nth_error cs (length cs)) eqn:E; [|exact I].
        apply nth_error_some_lt in E. lia. }
    rewrite Hscan.
    rewrite lex_loop_at_end by (simpl; lia).
    unfold slice. cbn [skipn].
    replace (S (length cs) - 1) with (length cs) by lia.
    rewrite firstn_all, Hcs, string_of_list_ascii_of_string. reflexivity.
Qed.

Lemma lex_string_literal_witness :
  lex_tokens "'hello, world!'"
  = [tokv TokenType.String "hello, world!"; tok TokenType.EOF] /\
  lex_tokens "'hello, world!"
  = [tokv TokenType.String "hello, world!"; tok TokenType.EOF].
Proof.
  apply (lex_string_literal "hello, world!"). reflexivity.
Defined.

(** ** Invariants of the token sequence *)

Lemma classify_not_EOF (value : string) :
  tok_type (classify value) <> TokenType.EOF.
Proof.
  unfold classify.
  repeat match goal with
    | |- context [if ?b then _ else _] => destruct b
    end; discriminate.
Qed.

Lemma classify_payload_ok (value : string) :
  payload_ok (classify value) = true.
Proof.
  unfold classify.
  repeat match goal with
    | |- context [if ?b then _ else _] => destruct b
    end; reflexivity.
Qed.

(** Whatever holds of the tokens [lex_step] can push holds of all the
    tokens pushed by the loop of [lex]. *)
Lemma lex_step_Forall (P : Token -> Prop) (chars : list ascii) (i : nat) :
  (forall ty, ty <> TokenType.EOF -> carries_payload ty = false ->
              P (tok ty)) ->
  (forall v, P (tokv TokenType.Number v)) ->
  (forall v, P (tokv TokenType.String v)) ->
  (forall v, P (classify v)) ->
  Forall P (snd (lex_step chars i)).
Proof.
  intros Htok Hnum Hstr Hcls. unfold lex_step.
  destruct (nth_error chars i) as [c|]; [|constructor].
  repeat match goal with
    | |- context [if ?b then _ else _] => destruct b
    end; cbn [snd]; repeat constructor; auto;
    apply Htok; solve [discriminate | reflexivity].
Qed.

Lemma lex_loop_Forall (P : Token -> Prop) (chars : list ascii) (fuel : nat) :
  (forall i, Forall P (snd (lex_step chars i))) ->
  forall i result, Forall P result -> Forall P (lex_loop fuel chars i result).
Proof.
  intros Hstep. induction fuel as [|fuel IH]; intros i result Hr; simpl;
    [exact Hr|].
  destruct (i <? length chars)%nat; [|exact Hr].
  specialize (Hstep (skipWhitespace chars i)).
  destruct (lex_step chars (skipWhitespace chars i)) as [i2 pushed].
  apply IH. apply Forall_app. split; [exact Hr|exact Hstep].
Qed.

(** X7.  For every source text the token sequence ends with the
    end-of-stream token, and no token before it is one. *)
Theorem lex_ends_with_single_EOF (src : string) :
  exists body,
    lex_tokens src = (body ++ [tok TokenType.EOF])%list /\
    Forall (fun t => tok_type t <> TokenType.EOF) body.
Proof.
  unfold lex_tokens. eexists. split; [reflexivity|].
  apply lex_loop_Forall; [|constructor].
  intros i. apply lex_step_Forall.
  - intros ty H _. exact H.
  - discriminate.
  - discriminate.
  - apply classify_not_EOF.
Qed.

(** X8.  For every source text, a token of the sequence has a payload
    exactly when it is an identifier, a number, a string or a type
    name. *)
Theorem lex_payload_invariant (src : string) :
  Forall (fun t => payload_ok t = true) (lex_tokens src).
Proof.
  unfold lex_tokens. apply Forall_app. split; [|repeat constructor].
  apply lex_loop_Forall; [|constructor].
  intros i. apply lex_step_Forall.
  - intros ty _ H. unfold payload_ok. simpl. rewrite H. reflexivity.
  - reflexivity.
  - reflexivity.
  - apply classify_payload_ok.
Qed.

(** X9.  The names [tokenToString] gives to the token kinds are pairwise
    distinct, so an error message identifies the kind it names. *)
Theorem tokenToString_distinct (a b : TokenType.t) :
  a <> b -> tokenToString a <> tokenToString b.
Proof.
  destruct a, b; intros H; try discriminate; exfalso; apply H; reflexivity.
Qed.

Lemma tokenToString_distinct_witness :
  tokenToString TokenType.Else <> tokenToString TokenType.ElseIf.
Proof.
  apply (tokenToString_distinct TokenType.Else TokenType.ElseIf).
  discriminate.
Defined.

(* ================================================================== *)
(** * More on the token cursor *)

(** X10.  Popping a fresh cursor as many times as the sequence has
    tokens returns exactly the tokens of the sequence, in order. *)
Theorem pops_return_the_sequence (ts : list Token) :
  map (fun n => fst (pop (pops n (newTokenList ts)))) (seq 0 (length ts))
  = map Some ts.
Proof.
  apply nth_error_ext. intros n.
  rewrite !nth_error_map, nth_error_seq.
  destruct (n <? length ts)%nat eqn:E.
  - apply Nat.ltb_lt in E. cbn [option_map Nat.add].
    rewrite (pop_in_range ts n E).
    destruct (nth_error ts n) eqn:En; [reflexivity|].
    apply nth_error_None in En. lia.
  - apply Nat.ltb_ge in E. apply nth_error_None in E. rewrite E.
    reflexivity.
Qed.

(** X11.  In every state of the cursor, a token returned by [peek] is the
    token the next [pop] returns, and a second [peek] returns it again:
    looking ahead consumes nothing. *)
Theorem peek_agrees_with_pop (tl : TokenList) (t : Token) :
  fst (peek 1 tl) = Some t ->
  fst (pop (snd (peek 1 tl))) = Some t /\
  fst (peek 1 (snd (peek 1 tl))) = Some t.
Proof.
  unfold peek, pop, len. cbn [fst snd tokens cursor]. intros H.
  destruct (cursor tl >=? Z.of_nat (length (tokens tl)))%Z eqn:C.
  - destruct (Z.of_nat (length (tokens tl)) - 2
              >=? Z.of_nat (length (tokens tl)))%Z eqn:C2; [lia|].
    auto.
  - rewrite C. auto.
Qed.

Lemma peek_agrees_with_pop_witness :
  fst (pop (snd (peek 1 (lex "a + b"))))
  = Some (tokv TokenType.Identifier "a") /\
  fst (peek 1 (snd (peek 1 (lex "a + b"))))
  = Some (tokv TokenType.Identifier "a").
Proof.
  apply (peek_agrees_with_pop (lex "a + b") (tokv TokenType.Identifier "a")).
  reflexivity.
Defined.

Lemma pops_cursor_past_end (ts : list Token) (k : nat) :
  cursor (pops (length ts + S k) (newTokenList ts)) = Z.of_nat (length ts).
Proof.
  rewrite Nat.add_succ_r, pops_S, cursor_pop. unfold len.
  rewrite pops_tokens. change (tokens (newTokenList ts)) with ts.
  destruct (pops_cursor ts (length ts + k)) as [_ Hc].
  specialize (Hc ltac:(lia)).
  destruct (cursor (pops (length ts + k) (newTokenList ts))
            >=? Z.of_nat (length ts))%Z eqn:E; lia.
Qed.

(** X12.  After the cursor was popped past the end, [peek] steps back:
    it returns the last token of the sequence (nothing when the sequence
    is empty), and so does the [pop] that follows, although the last
    token had been consumed before. *)
Theorem peek_after_over_read (ts : list Token) (k : nat) :
  let tl := pops (length ts + S k) (newTokenList ts) in
  fst (peek 1 tl) = nth_error ts (length ts - 1) /\
  fst (pop (snd (peek 1 tl))) = nth_error ts (length ts - 1).
Proof.
  intros tl.
  assert (Hc : cursor tl = Z.of_nat (length ts))
    by apply pops_cursor_past_end.
  assert (Ht : tokens tl = ts) by apply pops_tokens.
  assert (Hidx : index ts (Z.of_nat (length ts) - 2 + 1)
                 = nth_error ts (length ts - 1)).
  { unfold index.
    destruct (Z.of_nat (length ts) - 2 + 1 <? 0)%Z eqn:E.
    - assert (length ts = 0) by lia.
      destruct ts; [reflexivity|discriminate].
    - f_equal. lia. }
  unfold peek, pop, len. cbn [fst snd tokens cursor]. rewrite Ht, Hc.
  destruct (Z.of_nat (length ts) >=? Z.of_nat (length ts))%Z eqn:E; [|lia].
  destruct (Z.of_nat (length ts) - 2 >=? Z.of_nat (length ts))%Z eqn:E2;
    [lia|].
  auto.
Qed.

(* ================================================================== *)
(** * More on the parser *)

Lemma tier_precedence_le (x y : Operator.t) :
  tier x <= tier y <-> OPERATOR_PRECEDENCE x <= OPERATOR_PRECEDENCE y.
Proof. destruct x, y; simpl; lia. Qed.

(** X13.  On a token stream [a op1 b op2 c] whose second operator lies
    in the same tier as the first or in a lower one, the expression
    parser returns [op2 (op1 (a, b), c)]: operators of one tier associate
    to the left, and a lower tier binds looser. *)
Theorem left_associative (fuel : nat) (tl : TokenList)
  (a o1 b o2 c t : Token) (rest : list Token) (op1 op2 : Operator.t) :
  wf tl ->
  ahead tl = a :: o1 :: b :: o2 :: c :: t :: rest ->
  simple_operand a = true ->
  simple_operand b = true ->
  simple_operand c = true ->
  operator_of (tok_type o1) = Some op1 ->
  operator_of (tok_type o2) = Some op2 ->
  tier op2 <= tier op1 ->
  operator_of (tok_type t) = None ->
  tok_type t <> TokenType.LParen ->
  parseExpression (4 + fuel) tl =
  Ok (E_binary_operation op2
        (E_binary_operation op1 (operand_expr a) (operand_expr b))
        (operand_expr c))
     (skip 5 tl).
Proof.
  intros Hwf Ha Hsa Hsb Hsc Ho1 Ho2 Htier Hot Htp.
  apply tier_precedence_le in Htier.
  change (4 + fuel) with (S (S (S (S fuel)))).
  rewrite parseExpression_unfold. unfold bind at 1.
  rewrite (parseOperand_simple _ _ _ _ _ Hwf Ha Hsa
             (operator_not_LParen _ _ Ho1)).
  destruct (ahead_skip _ Hwf _ _ Ha) as [Ha1 Hwf1].
  unfold bind at 1. rewrite (peekT_ahead _ Hwf1 _ _ Ha1).
  rewrite (operator_not_EOF _ _ Ho1). cbn [negb].
  unfold bind at 1.
  rewrite (parseExpression_loop_step _ _ _ _ _ _ _ _ _ Hwf1 Ha1 Ho1 Hsb
             (operator_not_LParen _ _ Ho2)).
  cbn [reduce_while fst snd].
  destruct (ahead_skip _ Hwf1 _ _ Ha1) as [Ha2 Hwf2].
  destruct (ahead_skip _ Hwf2 _ _ Ha2) as [Ha3 Hwf3].
  rewrite !skip_skip in *. cbn [Z.add Pos.add] in *.
  rewrite (parseExpression_loop_step _ _ _ _ _ _ _ _ _ Hwf3 Ha3 Ho2 Hsc Htp).
  cbn [reduce_while].
  destruct (OPERATOR_PRECEDENCE op2 <=? OPERATOR_PRECEDENCE op1)%nat eqn:E.
  2:{ apply Nat.leb_gt in E. lia. }
  cbn [reduce reduce_while fst snd].
  destruct (ahead_skip _ Hwf3 _ _ Ha3) as [Ha4 Hwf4].
  destruct (ahead_skip _ Hwf4 _ _ Ha4) as [Ha5 Hwf5].
  rewrite !skip_skip in *. cbn [Z.add Pos.add] in *.
  rewrite (parseExpression_loop_end _ _ _ _ _ _ Hwf5 Ha5 Hot).
  reflexivity.
Qed.

Lemma left_associative_witness :
  parseExpression 4 (lex "a - b - c") =
  Ok (E_binary_operation Operator.Subtract
        (E_binary_operation Operator.Subtract (E_variable "a")
           (E_variable "b"))
        (E_variable "c"))
     (skip 5 (lex "a - b - c")).
Proof.
  apply (left_associative 0 (lex "a - b - c")
           (tokv TokenType.Identifier "a") (tok TokenType.Minus)
           (tokv TokenType.Identifier "b") (tok TokenType.Minus)
           (tokv TokenType.Identifier "c") (tok TokenType.EOF) []
           Operator.Subtract Operator.Subtract);
    try reflexivity.
  - apply wf_new.
  - discriminate.
Defined.

(** X14.  [parseType] never returns the boolean type: it knows the
    annotations [string], [i32] and [void] and reads every other type
    name, [bool] included, as [void]. *)
Theorem parseType_never_Bool (tl : TokenList) (type : DataType.t)
  (tl' : TokenList) :
  parseType tl = Ok type tl' -> type <> DataType.Bool.
Proof.
  unfold parseType, bind, expect. intros H.
  destruct (popT tl) as [t1 tl1| |]; try discriminate H.
  destruct (has_type t1 TokenType.Colon); try discriminate H.
  unfold ret at 1 in H.
  destruct (popT tl1) as [t2 tl2| |]; try discriminate H.
  destruct (has_type t2 TokenType.Type_); try discriminate H.
  unfold ret at 1 in H.
  destruct (tok_value t2) as [v|].
  - destruct (v =? "string")%string;
      [|destruct (v =? "i32")%string; [|destruct (v =? "void")%string]];
      inversion H; discriminate.
  - inversion H; discriminate.
Qed.

Lemma parseType_never_Bool_witness :
  parseType (lex ": bool") = Ok DataType.Void (skip 2 (lex ": bool")) /\
  DataType.Void <> DataType.Bool.
Proof.
  split; [reflexivity|].
  apply (parseType_never_Bool (lex ": bool") DataType.Void
           (skip 2 (lex ": bool"))).
  reflexivity.
Defined.

(** X15.  In every block the parser returns, the list of variables is
    the list of the variable declarations among its statements, in the
    same order. *)
Theorem parseBlock_variables (fuel : nat) (tl : TokenList) (block : Block)
  (tl' : TokenList) :
  parseBlock fuel tl = Ok block tl' ->
  variables block = declared_variables (statements block).
Proof.
  assert (Hsnoc : forall ss s,
            declared_variables (ss ++ [s]) =
            (declared_variables ss ++
             match s with St_variable_decl d => [d] | _ => [] end)%list).
  { induction ss as [|x ss IH]; intros s.
    - destruct s; reflexivity.
    - simpl. destruct x; rewrite ?IH; reflexivity. }
  assert (Hloop : forall fuel result token tl block token' tl',
            parseBlock_loop fuel result token tl = Ok (block, token') tl' ->
            variables result = declared_variables (statements result) ->
            variables block = declared_variables (statements block)).
  { clear fuel tl block tl'.
    induction fuel as [|fuel IH];
      intros result token tl block token' tl' H Hinv; [discriminate H|].
    cbn [parseBlock_loop] in H.
    destruct (not_end token TokenType.RBrace).
    - unfold bind in H.
      destruct (parseStatement fuel tl) as [s tl1| |]; try discriminate H.
      destruct (peekT 1 tl1) as [t tl2| |]; try discriminate H.
      apply IH in H; [exact H|].
      cbn [variables statements]. rewrite Hsnoc, Hinv.
      destruct s; rewrite ?app_nil_r; reflexivity.
    - inversion H; subst. exact Hinv. }
  destruct fuel as [|fuel]; intros H; [discriminate H|].
  cbn [parseBlock] in H. unfold bind in H.
  destruct (popT tl) as [t tl1| |]; try discriminate H.
  destruct (expect t TokenType.LBrace _ tl1) as [u tl2| |];
    try discriminate H.
  destruct (peekT 1 tl2) as [t2 tl3| |]; try discriminate H.
  destruct (parseBlock_loop fuel (mkBlock [] []) t2 tl3)
    as [[result t3] tl4| |] eqn:E; try discriminate H.
  destruct (expect t3 TokenType.RBrace _ tl4) as [u2 tl5| |];
    try discriminate H.
  unfold pop_, ret in H. inversion H; subst.
  eapply Hloop; [exact E|reflexivity].
Qed.

Lemma parseBlock_variables_witness :
  let block :=
    mkBlock
      [St_variable_decl (mkVariableDecl "x" DataType.I32 false (E_i32 "1"));
       St_break;
       St_variable_decl
         (mkVariableDecl "y" DataType.String false (E_string "a"))]
      [mkVariableDecl "x" DataType.I32 false (E_i32 "1");
       mkVariableDecl "y" DataType.String false (E_string "a")] in
  variables block = declared_variables (statements block).
Proof.
  intros block.
  apply (parseBlock_variables 8
           (lex "{ let x: i32 = 1 break let y: string = 'a' }") block
           (skip 15 (lex "{ let x: i32 = 1 break let y: string = 'a' }"))).
  vm_compute. reflexivity.
Defined.

Lemma simple_operand_kind (t : Token) :
  simple_operand t = true ->
  tok_type t <> TokenType.EOF /\ tok_type t <> TokenType.RParen /\
  tok_type t <> TokenType.RBracket.
Proof.
  unfold simple_operand. intros H.
  repeat split; intros E; rewrite E in H; discriminate H.
Qed.

(** X16.  [parseFunctionCall] does not check what separates two
    arguments: whatever single token stands between them (a comma or
    any other token that is no operator, parenthesis or end of input) is
    consumed, and the call has both arguments. *)
Theorem parseFunctionCall_separator (fuel : nat) (tl : TokenList)
  (f lp a sep b rp : Token) (rest : list Token) :
  wf tl ->
  ahead tl = f :: lp :: a :: sep :: b :: rp :: rest ->
  tok_type f = TokenType.Identifier ->
  tok_type lp = TokenType.LParen ->
  simple_operand a = true ->
  simple_operand b = true ->
  operator_of (tok_type sep) = None ->
  tok_type sep <> TokenType.LParen ->
  tok_type sep <> TokenType.RParen ->
  tok_type sep <> TokenType.EOF ->
  tok_type rp = TokenType.RParen ->
  parseFunctionCall (5 + fuel) tl =
  Ok (value_as_string f, [operand_expr a; operand_expr b]) (skip 6 tl).
Proof.
  intros Hwf Ha Hf Hlp Hsa Hsb Hop Hs1 Hs2 Hs3 Hrp.
  destruct (simple_operand_kind a Hsa) as (Ha1 & Ha2 & _).
  destruct (simple_operand_kind b Hsb) as (Hb1 & Hb2 & _).
  change (5 + fuel) with (S (S (2 + S fuel))).
  cbn [parseFunctionCall]. run_parser.
  cbn [parseFunctionCall_loop]. run_parser.
  rewrite (parseExpression_simple (S fuel) _ a sep _ Hwf1 Ha3 Hsa Hop Hs1).
  destruct (ahead_skip _ Hwf1 _ _ Ha3) as [Ha4 Hwf4].
  run_parser.
  change (2 + S fuel) with (S (2 + fuel)).
  cbn [parseFunctionCall_loop]. run_parser.
  rewrite (parseExpression_simple fuel _ b rp _ Hwf2 Ha5 Hsb
             ltac:(rewrite Hrp; reflexivity)
             ltac:(rewrite Hrp; discriminate)).
  destruct (ahead_skip _ Hwf2 _ _ Ha5) as [Ha6 Hwf6].
  run_parser.
  change (2 + fuel) with (S (S fuel)).
  cbn [parseFunctionCall_loop]. run_parser.
  rewrite !skip_skip. reflexivity.
Qed.

Lemma parseFunctionCall_separator_witness :
  parseFunctionCall 5 (lex "add(1 : 2)") =
  Ok ("add", [E_i32 "1"; E_i32 "2"]) (skip 6 (lex "add(1 : 2)")).
Proof.
  apply (parseFunctionCall_separator 0 (lex "add(1 : 2)")
           (tokv TokenType.Identifier "add") (tok TokenType.LParen)
           (tokv TokenType.Number "1") (tok TokenType.Colon)
           (tokv TokenType.Number "2") (tok TokenType.RParen)
           [tok TokenType.EOF]);
    try reflexivity; try discriminate.
Defined.

(** X17.  When the token ahead cannot start an operand, the expression
    parser raises [Expected expression, got '<kind>'] naming the kind of
    that token, and consumes nothing. *)
Theorem parseExpression_rejects (fuel : nat) (tl : TokenList) (t : Token)
  (rest : list Token) :
  wf tl ->
  ahead tl = t :: rest ->
  starts_operand (tok_type t) = false ->
  parseExpression (2 + fuel) tl =
  Throw (Error ("Expected expression, got '"
                ++ tokenToString (tok_type t) ++ "'")) tl.
Proof.
  intros Hwf Ha Hs.
  change (2 + fuel) with (S (S fuel)).
  rewrite parseExpression_unfold. unfold bind at 1.
  cbn [parseOperand]. unfold bind at 1.
  rewrite (peekT_ahead _ Hwf _ _ Ha). unfold got.
  destruct (tok_type t); try discriminate Hs; reflexivity.
Qed.

Lemma parseExpression_rejects_witness :
  parseExpression 2 (lex ") + 1") =
  Throw (Error "Expected expression, got 'rparen'") (lex ") + 1").
Proof.
  apply (parseExpression_rejects 0 (lex ") + 1") (tok TokenType.RParen)
           [tok TokenType.Plus; tokv TokenType.Number "1";
            tok TokenType.EOF]);
    [apply wf_new|reflexivity|reflexivity].
Defined.

(** X18.  A stray token in front of a statement makes the dispatcher
    read one token too far: the stray token is passed over, the keyword
    after it is reached by a [pop] instead of a [peek], and the [pop] the
    rule of [break] then makes consumes the token that follows the
    keyword. *)
Theorem parseStatement_stray_token (fuel : nat) (tl : TokenList)
  (j b x : Token) (rest : list Token) :
  wf tl ->
  ahead tl = j :: b :: x :: rest ->
  starts_statement (tok_type j) = false ->
  tok_type j <> TokenType.EOF ->
  tok_type b = TokenType.Break ->
  parseStatement (4 + fuel) tl = Ok St_break (skip 3 tl).
Proof.
  intros Hwf Ha Hj Hje Hb.
  change (4 + fuel) with (S (S (S (S fuel)))).
  cbn [parseStatement]. run_parser.
  cbn [parseStatement_loop]. unfold TokenType_Match, type_is.
  destruct (tok_type j) eqn:Ej; try discriminate Hj; try congruence;
    run_parser; rewrite ?Ej; run_parser;
    rewrite ?Ej; run_parser; rewrite !skip_skip; reflexivity.
Qed.

Lemma parseStatement_stray_token_witness :
  parseStatement 4 (lex ", break x") =
  Ok St_break (skip 3 (lex ", break x")).
Proof.
  apply (parseStatement_stray_token 0 (lex ", break x")
           (tok TokenType.Comma) (tok TokenType.Break)
           (tokv TokenType.Identifier "x") [tok TokenType.EOF]);
    try reflexivity; try discriminate.
Defined.

(** X19.  No token sequence makes the statement dispatcher return a
    match-statement node, and the parser of match statements returns on
    none: the kind it compares with is not a member of [TokenType]. *)
Theorem match_statement_unreachable (fuel : nat) (tl : TokenList) :
  (forall s tl', parseStatement fuel tl = Ok s tl' ->
                 forall data, s <> St_match_statement data) /\
  (forall m tl', parseMatchStatement fuel tl <> Ok m tl').
Proof.
  split.
  - intros s tl' H. exact (parseStatement_never_match fuel tl s tl' H).
  - intros m tl'. apply parseMatchStatement_never_returns.
Qed.

Lemma match_statement_unreachable_witness :
  St_expression (E_variable "match")
  <> St_match_statement (mkMatchStatement (E_variable "x") [] None).
Proof.
  apply (proj1 (match_statement_unreachable 5 (lex "match x { }"))
           (St_expression (E_variable "match"))
           (skip 1 (lex "match x { }"))).
  reflexivity.
Defined.

Lemma wf_skip (n : Z) (tl : TokenList) :
  wf tl -> (0 <= n)%Z -> wf (skip n tl).
Proof. unfold wf, skip. simpl. lia. Qed.

(** X20.  An array literal of simple elements separated by commas,
    followed by a token that is no operator, is parsed as an expression
    into the array of its elements in order, and exactly the tokens after
    its closing bracket remain. *)
Theorem parseExpression_array (fuel : nat) (tl : TokenList) (lb a t : Token)
  (elems rest : list Token) :
  wf tl ->
  ahead tl = (lb :: a :: after_first elems ++ t :: rest)%list ->
  tok_type lb = TokenType.LBracket ->
  Forall (fun e => simple_operand e = true) (a :: elems) ->
  operator_of (tok_type t) = None ->
  parseExpression (6 + length elems + fuel) tl =
  Ok (E_array DataType.I32 (map operand_expr (a :: elems)))
     (skip (3 + 2 * Z.of_nat (length elems)) tl) /\
  ahead (skip (3 + 2 * Z.of_nat (length elems)) tl) = t :: rest.
Proof.
  intros Hwf Ha Hlb HF Hop.
  destruct (parseArray_simple fuel tl lb a elems (t :: rest) Hwf Ha Hlb HF)
    as [Hrun Hrest].
  split; [|exact Hrest].
  assert (Hwf' : wf (skip (3 + 2 * Z.of_nat (length elems)) tl))
    by (apply wf_skip; [exact Hwf|lia]).
  change (6 + length elems + fuel) with (S (S (4 + length elems + fuel))).
  rewrite parseExpression_unfold. unfold bind at 1.
  cbn [parseOperand]. unfold bind at 1.
  rewrite (peekT_ahead _ Hwf _ _ Ha), Hlb.
  unfold bind at 1. rewrite Hrun. unfold ret at 1.
  unfold bind at 1. rewrite (peekT_ahead _ Hwf' _ _ Hrest).
  destruct (has_type t TokenType.EOF); cbn [negb]; [reflexivity|].
  unfold bind.
  rewrite (parseExpression_loop_end _ _ _ _ _ _ Hwf' Hrest Hop).
  reflexivity.
Qed.

Lemma parseExpression_array_witness :
  parseExpression 8 (lex "[1, x, 'a'] }") =
  Ok (E_array DataType.I32 [E_i32 "1"; E_variable "x"; E_string "a"])
     (skip 7 (lex "[1, x, 'a'] }")) /\
  ahead (skip 7 (lex "[1, x, 'a'] }"))
  = [tok TokenType.RBrace; tok TokenType.EOF].
Proof.
  apply (parseExpression_array 0 (lex "[1, x, 'a'] }")
           (tok TokenType.LBracket) (tokv TokenType.Number "1")
           (tok TokenType.RBrace)
           [tokv TokenType.Identifier "x"; tokv TokenType.String "a"]
           [tok TokenType.EOF]);
    try reflexivity.
  - apply wf_new.
  - repeat constructor.
Defined.

(** A type annotation [: type]. *)
Lemma parseType_ok (tl : TokenList) (colon ty : Token) (rest : list Token) :
  wf tl -> ahead tl = colon :: ty :: rest ->
  tok_type colon = TokenType.Colon -> tok_type ty = TokenType.Type_ ->
  parseType tl = Ok (dataType_of ty) (skip 2 tl).
Proof.
  intros Hwf Ha Hc Ht. unfold parseType. run_parser.
  unfold dataType_of. rewrite !skip_skip.
  destruct (tok_value ty) as [v|]; [|reflexivity].
  destruct (v =? "string")%string; [reflexivity|].
  destruct (v =? "i32")%string; [reflexivity|].
  destruct (v =? "void")%string; reflexivity.
Qed.

Lemma parseFunctionParameter_ok (tl : TokenList) (name colon ty : Token)
  (rest : list Token) :
  wf tl -> ahead tl = name :: colon :: ty :: rest ->
  tok_type name = TokenType.Identifier ->
  tok_type colon = TokenType.Colon -> tok_type ty = TokenType.Type_ ->
  parseFunctionParameter tl = Ok (param_of (name, ty)) (skip 3 tl).
Proof.
  intros Hwf Ha Hn Hc Ht. unfold parseFunctionParameter. run_parser.
  rewrite (parseType_ok _ colon ty rest Hwf0 Ha0 Hc Ht).
  rewrite !skip_skip. reflexivity.
Qed.

(** The loop over the parameters of [parseFunction]: it returns them in
    order and stops on the closing parenthesis, which it has consumed. *)
Lemma parseFunction_loop_params (ps : list (Token * Token)) :
  forall (fuel : nat) (tl : TokenList) (params : list FuncParameter)
         (token name ty : Token) (rest : list Token),
    wf tl ->
    ahead tl = (name :: tok TokenType.Colon :: ty :: more_params ps
                ++ rest)%list ->
    Forall param_tokens_ok ((name, ty) :: ps) ->
    not_end token TokenType.RParen = true ->
    parseFunction_loop (1 + length ps + fuel) params token tl =
    Ok ((params ++ map param_of ((name, ty) :: ps))%list,
        tok TokenType.RParen)
       (skip (4 + 4 * Z.of_nat (length ps)) tl) /\
    ahead (skip (4 + 4 * Z.of_nat (length ps)) tl) = rest.
Proof.
  induction ps as [|[name' ty'] ps IH];
    intros fuel tl params token name ty rest Hwf Ha HF Hend;
    inversion HF as [|? ? [Hn Ht] HF']; subst; cbn [fst snd] in Hn, Ht.
  - simpl app in Ha. simpl length.
    change (1 + 0 + fuel) with (S fuel).
    cbn [parseFunction_loop]. rewrite Hend. unfold bind at 1.
    rewrite (parseFunctionParameter_ok tl name (tok TokenType.Colon) ty _
               Hwf Ha Hn eq_refl Ht).
    destruct (ahead_skip _ Hwf _ _ Ha) as [Ha1 Hwf1].
    destruct (ahead_skip _ Hwf1 _ _ Ha1) as [Ha2 Hwf2].
    destruct (ahead_skip _ Hwf2 _ _ Ha2) as [Ha3 Hwf3].
    rewrite !skip_skip in Ha3, Hwf3. cbn [Z.add Pos.add] in Ha3, Hwf3.
    run_parser.
    destruct (ahead_skip _ Hwf3 _ _ Ha3) as [Ha4 Hwf4].
    rewrite !skip_skip in *. split; [reflexivity|exact Ha4].
  - simpl app in Ha.
    change (1 + length ((name', ty') :: ps) + fuel)
      with (S (1 + length ps + fuel)).
    cbn [parseFunction_loop]. rewrite Hend. unfold bind at 1.
    rewrite (parseFunctionParameter_ok tl name (tok TokenType.Colon) ty _
               Hwf Ha Hn eq_refl Ht).
    destruct (ahead_skip _ Hwf _ _ Ha) as [Ha1 Hwf1].
    destruct (ahead_skip _ Hwf1 _ _ Ha1) as [Ha2 Hwf2].
    destruct (ahead_skip _ Hwf2 _ _ Ha2) as [Ha3 Hwf3].
    rewrite !skip_skip in Ha3, Hwf3. cbn [Z.add Pos.add] in Ha3, Hwf3.
    run_parser.
    inversion HF' as [|? ? [Hn' _] _]; subst. cbn [fst] in Hn'.
    destruct (IH fuel (skip 1 (skip 3 tl)) (params ++ [param_of (name, ty)])%list
                name' name' ty' rest Hwf0 Ha0 HF'
                ltac:(unfold not_end, has_type; rewrite Hn'; reflexivity))
      as [Hrun Hrest].
    assert (Hskip : skip (4 + 4 * Z.of_nat (length ps)) (skip 1 (skip 3 tl))
                    = skip (4 + 4 * Z.of_nat (length ((name', ty') :: ps)))
                        tl).
    { rewrite !skip_skip. unfold skip. f_equal.
      change (length ((name', ty') :: ps)) with (S (length ps)). lia. }
    rewrite Hskip in *. rewrite Hrun. split; [|exact Hrest].
    rewrite <- app_assoc. reflexivity.
Qed.

(** X21.  After [func], a header [name ( p1 : t1 , ... , pn : tn ) : t]
    with at least one parameter, followed by a block, is parsed into the
    function of that name whose parameters are the declared ones in
    order, whose return type is the one [t] stands for, and whose body is
    the block [parseBlock] returns. *)
Theorem parseFunction_header (fuel : nat) (tl tl' : TokenList)
  (name lp p ty colon ret_ty : Token) (ps : list (Token * Token))
  (body : list Token) (block : Block) :
  wf tl ->
  ahead tl = (name :: lp :: p :: tok TokenType.Colon :: ty
              :: more_params ps ++ colon :: ret_ty :: body)%list ->
  tok_type name = TokenType.Identifier ->
  tok_type lp = TokenType.LParen ->
  Forall param_tokens_ok ((p, ty) :: ps) ->
  tok_type colon = TokenType.Colon ->
  tok_type ret_ty = TokenType.Type_ ->
  parseBlock (1 + length ps + fuel)
    (skip (8 + 4 * Z.of_nat (length ps)) tl) = Ok block tl' ->
  parseFunction (1 + length ps + fuel) tl =
  Ok (mkFunc (value_as_string name) (map param_of ((p, ty) :: ps)) block
        (dataType_of ret_ty)) tl'.
Proof.
  intros Hwf Ha Hn Hlp HF Hc Hr Hblock.
  inversion HF as [|? ? [Hp Ht] HF']; subst. cbn [fst snd] in Hp, Ht.
  unfold parseFunction. run_parser.
  destruct (parseFunction_loop_params ps fuel (skip 1 (skip 1 tl)) [] p p ty
              (colon :: ret_ty :: body) Hwf1 Ha1 HF
              ltac:(unfold not_end, has_type; rewrite Hp; reflexivity))
    as [Hrun Hrest].
  fold (has_type p TokenType.EOF) (has_type p TokenType.RParen).
  fold (not_end p TokenType.RParen).
  rewrite Hrun. cbn [app]. run_parser.
  assert (Hwf' : wf (skip (4 + 4 * Z.of_nat (length ps))
                       (skip 1 (skip 1 tl))))
    by (apply wf_skip; [exact Hwf1|lia]).
  rewrite (parseType_ok _ colon ret_ty body Hwf' Hrest Hc Hr).
  assert (Hskip : skip 2 (skip (4 + 4 * Z.of_nat (length ps))
                            (skip 1 (skip 1 tl)))
                  = skip (8 + 4 * Z.of_nat (length ps)) tl).
  { rewrite !skip_skip. unfold skip. f_equal. lia. }
  rewrite Hskip, Hblock. reflexivity.
Qed.

Lemma parseFunction_header_witness :
  parseFunction 2 (skip 1 (lex "func add(a: i32, b: string): bool { }")) =
  Ok (mkFunc "add"
        [mkFuncParameter "a" DataType.I32;
         mkFuncParameter "b" DataType.String]
        (mkBlock [] []) DataType.Void)
     (skip 15 (lex "func add(a: i32, b: string): bool { }")).
Proof.
  apply (parseFunction_header 0
           (skip 1 (lex "func add(a: i32, b: string): bool { }"))
           (skip 15 (lex "func add(a: i32, b: string): bool { }"))
           (tokv TokenType.Identifier "add") (tok TokenType.LParen)
           (tokv TokenType.Identifier "a") (tokv TokenType.Type_ "i32")
           (tok TokenType.Colon) (tokv TokenType.Type_ "bool")
           [(tokv TokenType.Identifier "b", tokv TokenType.Type_ "string")]
           [tok TokenType.LBrace; tok TokenType.RBrace; tok TokenType.EOF]
           (mkBlock [] []));
    try reflexivity.
  - unfold wf. simpl. lia.
  - repeat constructor.
Defined.

(** X22.  A [for] followed by an opening brace is parsed into the loop
    without item and without iteration expression whose body is the block
    [parseBlock] returns; a [for] followed by a simple operand that is
    not a bound name is parsed into the loop over that operand, again
    without item. *)
Theorem parseForStatement_shapes (fuel : nat) (tl tl' : TokenList)
  (block : Block) :
  wf tl ->
  (forall f lb rest,
      ahead tl = f :: lb :: rest ->
      tok_type f = TokenType.For ->
      tok_type lb = TokenType.LBrace ->
      parseBlock fuel (skip 1 tl) = Ok block tl' ->
      parseForStatement (1 + fuel) tl =
      Ok (mkForStatement None None block) tl') /\
  (forall f e t rest,
      ahead tl = f :: e :: t :: rest ->
      tok_type f = TokenType.For ->
      simple_operand e = true ->
      operator_of (tok_type t) = None ->
      tok_type t <> TokenType.LParen ->
      tok_type t <> TokenType.In ->
      parseBlock (2 + fuel) (skip 2 tl) = Ok block tl' ->
      parseForStatement (3 + fuel) tl =
      Ok (mkForStatement None (Some (operand_expr e)) block) tl').
Proof.
  intros Hwf. split.
  - intros f lb rest Ha Hf Hlb Hblock.
    change (1 + fuel) with (S fuel).
    cbn [parseForStatement]. run_parser. rewrite Hblock. reflexivity.
  - intros f e t rest Ha Hf He Hop Htp Hti Hblock.
    change (3 + fuel) with (S (2 + fuel)).
    pose proof He as He'. unfold simple_operand in He'.
    cbn [parseForStatement].
    destruct (tok_type e) eqn:Ee; try discriminate He'; run_parser;
      rewrite (parseExpression_simple fuel _ e t rest Hwf0 Ha0 He Hop Htp);
      rewrite skip_skip; change (1 + 1)%Z with 2%Z;
      rewrite Hblock; reflexivity.
Qed.

Lemma parseForStatement_shapes_witness :
  parseForStatement 3 (lex "for { }") =
  Ok (mkForStatement None None (mkBlock [] [])) (skip 3 (lex "for { }")) /\
  parseForStatement 5 (lex "for xs { }") =
  Ok (mkForStatement None (Some (E_variable "xs")) (mkBlock [] []))
     (skip 4 (lex "for xs { }")).
Proof.
  split.
  - apply (proj1 (parseForStatement_shapes 2 (lex "for { }")
                    (skip 3 (lex "for { }")) (mkBlock [] []) (wf_new _))
             (tok TokenType.For) (tok TokenType.LBrace)
             [tok TokenType.RBrace; tok TokenType.EOF]);
      reflexivity.
  - apply (proj2 (parseForStatement_shapes 2 (lex "for xs { }")
                    (skip 4 (lex "for xs { }")) (mkBlock [] []) (wf_new _))
             (tok TokenType.For) (tokv TokenType.Identifier "xs")
             (tok TokenType.LBrace)
             [tok TokenType.RBrace; tok TokenType.EOF]);
      try reflexivity; discriminate.
Defined.

Lemma ahead_skip2 (tl : TokenList) (a b : Token) (r : list Token) :
  wf tl -> ahead tl = a :: b :: r ->
  ahead (skip 2 tl) = r /\ wf (skip 2 tl).
Proof.
  intros Hwf Ha.
  destruct (ahead_skip _ Hwf _ _ Ha) as [Ha1 Hwf1].
  destruct (ahead_skip _ Hwf1 _ _ Ha1) as [Ha2 Hwf2].
  rewrite skip_skip in Ha2, Hwf2. auto.
Qed.

(** X23.  A declaration [let name : type = value], with or without the
    brackets [[ ]] after the type, is parsed into the declaration of that
    name and type whose array flag tells whether the brackets were
    written. *)
Theorem parseVariableDecl_array_flag (fuel : nat) (tl : TokenList)
  (isArray : bool) (l name colon ty lb rb eq e t : Token)
  (rest : list Token) :
  wf tl ->
  ahead tl = (l :: name :: colon :: ty
              :: (if isArray then [lb; rb] else [])
              ++ eq :: e :: t :: rest)%list ->
  tok_type l = TokenType.Let ->
  tok_type name = TokenType.Identifier ->
  tok_type colon = TokenType.Colon ->
  tok_type ty = TokenType.Type_ ->
  tok_type lb = TokenType.LBracket ->
  tok_type rb = TokenType.RBracket ->
  tok_type eq = TokenType.Assign ->
  simple_operand e = true ->
  operator_of (tok_type t) = None ->
  tok_type t <> TokenType.LParen ->
  parseVariableDecl (2 + fuel) tl =
  Ok (mkVariableDecl (value_as_string name) (dataType_of ty) isArray
        (operand_expr e))
     (skip (if isArray then 8 else 6) tl).
Proof.
  intros Hwf Ha Hl Hn Hc Ht Hlb Hrb Heq He Hop Htp.
  unfold parseVariableDecl. run_parser.
  rewrite (parseType_ok _ colon ty _ Hwf1 Ha1 Hc Ht).
  destruct (ahead_skip2 _ _ _ _ Hwf1 Ha1) as [Ha3 Hwf3].
  destruct isArray; simpl app in Ha3; run_parser;
    match goal with
    | Hw : wf ?s, Hs : ahead ?s = e :: t :: rest |- _ =>
        rewrite (parseExpression_simple fuel s e t rest Hw Hs He Hop Htp)
    end;
    rewrite !skip_skip; reflexivity.
Qed.

Lemma parseVariableDecl_array_flag_witness :
  parseVariableDecl 2 (lex "let xs: i32[] = ys }") =
  Ok (mkVariableDecl "xs" DataType.I32 true (E_variable "ys"))
     (skip 8 (lex "let xs: i32[] = ys }")).
Proof.
  apply (parseVariableDecl_array_flag 0 (lex "let xs: i32[] = ys }") true
           (tok TokenType.Let) (tokv TokenType.Identifier "xs")
           (tok TokenType.Colon) (tokv TokenType.Type_ "i32")
           (tok TokenType.LBracket) (tok TokenType.RBracket)
           (tok TokenType.Assign) (tokv TokenType.Identifier "ys")
           (tok TokenType.RBrace) [tok TokenType.EOF]);
    try reflexivity; try discriminate.
Defined.

(* ================================================================== *)
(** * More on the code generator *)

Lemma translateCall_same_names (name args : string) (c1 c2 : ParsedFile) :
  same_names c1 c2 -> translateCall name args c1 = translateCall name args c2.
Proof.
  intros H. unfold translateCall.
  destruct (name =? "print")%string; [reflexivity|].
  destruct (negb (findIndex (fun func => (func_name func =? name)%string)
                    (funcs c1) =? -1)%Z) eqn:E1;
  destruct (negb (findIndex (fun func => (func_name func =? name)%string)
                    (funcs c2) =? -1)%Z) eqn:E2; try reflexivity.
  - apply declared_findIndex in E1. apply undeclared_findIndex in E2.
    exfalso. apply E2, H, E1.
  - apply undeclared_findIndex in E1. apply declared_findIndex in E2.
    exfalso. apply E1, H, E2.
Qed.

(** Induction over an expression and the expressions nested in its
    argument and item lists. *)
Lemma translateExpression_context (c1 c2 : ParsedFile) :
  same_names c1 c2 ->
  forall expression,
    translateExpression expression c1 = translateExpression expression c2.
Proof.
  intros H.
  fix IH 1.
  intros [name arguments|data|data|data|type items|data|op|op lhs rhs];
    cbn [translateExpression]; try reflexivity.
  - rewrite (translateCall_same_names _ _ c1 c2 H). f_equal. f_equal.
    induction arguments as [|a arguments IHa]; [reflexivity|].
    cbn [map]. rewrite (IH a), IHa. reflexivity.
  - f_equal. f_equal. f_equal.
    induction items as [|a items IHa]; [reflexivity|].
    cbn [map]. rewrite (IH a), IHa. reflexivity.
  - rewrite (IH lhs), (IH rhs). reflexivity.
Qed.

(** X24.  The text of an expression depends on the program only through
    the names of the functions it declares: programs that declare the
    same names, in whatever order and with whatever parameters and
    bodies, lower every expression to the same text. *)
Theorem translateExpression_same_names (c1 c2 : ParsedFile)
  (expression : Expression) :
  same_names c1 c2 ->
  translateExpression expression c1 = translateExpression expression c2.
Proof.
  intros H. apply translateExpression_context. exact H.
Qed.

Lemma translateExpression_same_names_witness :
  let f := mkFunc "f" [] (mkBlock [] []) DataType.Void in
  let f' := mkFunc "f" [mkFuncParameter "x" DataType.I32]
              (mkBlock [St_break] []) DataType.I32 in
  let g := mkFunc "g" [] (mkBlock [] []) DataType.Void in
  let expression :=
    E_binary_operation Operator.Add
      (E_function_call "f" [E_function_call "h" []])
      (E_array DataType.I32 [E_function_call "g" [E_i32 "1"]]) in
  translateExpression expression (mkParsedFile [f; g])
  = translateExpression expression (mkParsedFile [g; f'; g]).
Proof.
  intros f f' g expression.
  apply (translateExpression_same_names (mkParsedFile [f; g])
           (mkParsedFile [g; f'; g]) expression).
  intros name. unfold has_function_named. simpl.
  split; intros (x & Hin & Hx);
    repeat (destruct Hin as [<-|Hin]; [simpl in Hx; subst name|]);
    try contradiction.
  - exists f'. simpl. tauto.
  - exists g. simpl. tauto.
  - exists g. simpl. tauto.
  - exists f. simpl. tauto.
  - exists g. simpl. tauto.
Defined.

(** X25.  Every function of the program is emitted: its header line
    [function name(parameters) {] occurs among the lines [translate]
    joins. *)
Theorem function_is_emitted (parsedFile : ParsedFile) (func : Func) :
  In func (funcs parsedFile) ->
  In (header_line func) (translate_lines parsedFile).
Proof.
  intros Hin.
  assert (Hdef : In (header_line func) (definition_lines parsedFile)).
  { unfold definition_lines. apply in_flat_map. exists func.
    split; [exact Hin|]. apply in_or_app. left.
    unfold translateFunction. left. reflexivity. }
  unfold translate_lines. fold (definition_lines parsedFile).
  destruct (negb _); [apply in_or_app; left|]; exact Hdef.
Qed.

Lemma function_is_emitted_witness :
  let helper :=
    mkFunc "helper" [mkFuncParameter "a" DataType.I32;
                     mkFuncParameter "b" DataType.I32]
      (mkBlock [] []) DataType.I32 in
  In "function helper(a, b) {"
    (translate_lines
       (mkParsedFile [mkFunc "main" [] (mkBlock [] []) DataType.Void;
                      helper])).
Proof.
  intros helper.
  apply (function_is_emitted
           (mkParsedFile [mkFunc "main" [] (mkBlock [] []) DataType.Void;
                          helper]) helper).
  simpl. tauto.
Defined.

Lemma string_append_assoc (a b c : string) :
  ((a ++ b) ++ c)%string = (a ++ b ++ c)%string.
Proof.
  induction a as [|x a IH]; simpl; [reflexivity|]. rewrite IH. reflexivity.
Qed.

(** X26.  For every function name and every text, the tokens of
    [func name(): void { print('text') }] are parsed into the program
    of that one function, and the program is translated into the
    function that logs the quoted text, followed by the call of [main]
    when that is the function's name. *)
Theorem print_program_compiles (name text : string) :
  let parsedFile :=
    mkParsedFile
      [mkFunc name []
         (mkBlock [St_expression (E_function_call "print" [E_string text])]
            [])
         DataType.Void] in
  parse 12 (newTokenList (print_program name text))
  = Ok parsedFile (skip 13 (newTokenList (print_program name text))) /\
  translate parsedFile
  = join newline
      (["function " ++ name ++ "() {";
        "    console.log('" ++ text ++ "');";
        "}"; ""]
       +++ (if String.eqb name "main" then ["main();"] else [])).
Proof.
  intros parsedFile. split.
  - vm_compute. reflexivity.
  - unfold translate, translate_lines, parsedFile, findIndex.
    cbn [funcs findIndex_from func_name].
    destruct (name =? "main")%string; cbn;
      rewrite (string_append_assoc text); reflexivity.
Qed.

(* ================================================================== *)
(** * More on the scanner *)

Lemma lex_step_unrecognised (chars : list ascii) (i : nat) (c : ascii) :
  nth_error chars i = Some c -> unrecognised c = true ->
  char_at_is chars (S i) "=" = false ->
  lex_step chars i = (i, []).
Proof.
  intros E Hu Hn. unfold lex_step. rewrite E.
  destruct c as [[] [] [] [] [] [] [] []]; try discriminate Hu;
    try reflexivity.
  cbv beta iota delta -[char_at_is]. rewrite Hn. reflexivity.
Qed.

Lemma unrecognised_no_whitespace (c : ascii) :
  unrecognised c = true -> isWhitespace c = false.
Proof.
  unfold unrecognised. intros H. apply negb_true_iff in H.
  apply orb_false_iff in H. destruct H as [H _].
  apply orb_false_iff in H. apply H.
Qed.

Lemma lex_loop_unrecognised (chars : list ascii) (fuel : nat) :
  (forall k c, nth_error chars k = Some c -> unrecognised c = true) ->
  forall i result, lex_loop fuel chars i result = result.
Proof.
  intros Hall. induction fuel as [|fuel IH]; intros i result;
    [reflexivity|].
  cbn [lex_loop].
  destruct (i <? length chars)%nat eqn:Hlt; [|reflexivity].
  apply Nat.ltb_lt in Hlt.
  destruct (nth_error chars i) as [c|] eqn:E;
    [|apply nth_error_None in E; lia].
  assert (Hskip : skipWhitespace chars i = i).
  { unfold skipWhitespace. destruct (length chars); [lia|]. simpl.
    rewrite E, (unrecognised_no_whitespace c (Hall i c E)). reflexivity. }
  rewrite Hskip.
  rewrite (lex_step_unrecognised chars i c E (Hall i c E)).
  - rewrite app_nil_r. apply IH.
  - unfold char_at_is.
    destruct (nth_error chars (S i)) as [c'|] eqn:E'; [|reflexivity].
    specialize (Hall (S i) c' E').
    destruct c' as [[] [] [] [] [] [] [] []]; try discriminate Hall;
      reflexivity.
Qed.

(** X27.  Characters no rule of the scanner starts on are dropped
    without a token and without an error: a text made of such characters
    only is scanned into the lone end-of-stream token. *)
Theorem lex_drops_unrecognised (s : string) :
  all_chars unrecognised s = true -> lex_tokens s = [tok TokenType.EOF].
Proof.
  intros Hall. unfold lex_tokens.
  rewrite lex_loop_unrecognised; [reflexivity|].
  intros k c E. eapply all_chars_nth; eassumption.
Qed.

Lemma lex_drops_unrecognised_witness :
  lex_tokens "@!$;?!" = [tok TokenType.EOF].
Proof.
  apply (lex_drops_unrecognised "@!$;?!"). reflexivity.
Defined.

(* ================================================================== *)
(** * Operators and blocks in the generated text *)

(** X28.  [translateOperator] gives distinct operators distinct texts,
    and the empty text to the range operator alone. *)
Theorem translateOperator_distinct (a b : Operator.t) :
  (a <> b -> translateOperator a <> translateOperator b) /\
  (translateOperator a = "" <-> a = Operator.Range).
Proof.
  split.
  - destruct a, b; intros H; try discriminate; exfalso; apply H;
      reflexivity.
  - destruct a; split; intros H; try discriminate H; reflexivity.
Qed.

Lemma translateOperator_distinct_witness :
  translateOperator Operator.Equal <> translateOperator Operator.LessThanOrEqual.
Proof.
  apply (proj1 (translateOperator_distinct Operator.Equal
                  Operator.LessThanOrEqual)).
  discriminate.
Defined.

(** X29.  The text of a block, with the statements nested in it, depends
    on the program only through the names of the functions it declares:
    programs that declare the same names lower every block to the same
    lines. *)
Theorem translateBlock_same_names (c1 c2 : ParsedFile) :
  same_names c1 c2 ->
  forall block indentLevel,
    translateBlock block c1 indentLevel = translateBlock block c2 indentLevel.
Proof.
  intros H.
  pose proof (translateExpression_context c1 c2 H) as He.
  fix IHb 1 with
    (IHs (s : Statement) {struct s} :
       forall indentLevel defers,
         translateStatement s c1 indentLevel defers
         = translateStatement s c2 indentLevel defers)
    (IHi (st : IfStatement) {struct st} :
       forall indentLevel,
         translateIfStatement st c1 indentLevel
         = translateIfStatement st c2 indentLevel)
    (IHm (st : MatchStatement) {struct st} :
       forall indentLevel,
         translateMatchStatement st c1 indentLevel
         = translateMatchStatement st c2 indentLevel)
    (IHc (c : MatchCase) {struct c} :
       forall indentLevel,
         translateMatchCase c c1 indentLevel
         = translateMatchCase c c2 indentLevel)
    (IHf (st : ForStatement) {struct st} :
       forall indentLevel,
         translateForStatement st c1 indentLevel
         = translateForStatement st c2 indentLevel).
  - intros [ss vs] indentLevel. cbn [translateBlock].
    assert (Hfold : forall acc,
      fold_left
        (fun '(result, defers) statement =>
           let '(lines, names) :=
             translateStatement statement c1 indentLevel defers in
           (result +++ lines, defers +++ names)) ss acc
      = fold_left
          (fun '(result, defers) statement =>
             let '(lines, names) :=
               translateStatement statement c2 indentLevel defers in
             (result +++ lines, defers +++ names)) ss acc).
    { induction ss as [|s ss IHss]; intros [result defers]; [reflexivity|].
      cbn [fold_left]. rewrite (IHs s). apply IHss. }
    rewrite Hfold. reflexivity.
  - intros [e|e|d|d|d|d| | |e] indentLevel defers;
      cbn [translateStatement]; unfold translateVariableDecl;
      rewrite ?He, ?IHi, ?IHm, ?IHf; reflexivity.
  - intros [c b elifs els] indentLevel. cbn [translateIfStatement].
    rewrite He, (IHb b).
    assert (Helifs :
      (fix elifs (l : list (Expression * Block)) : list string :=
         match l with
         | [] => []
         | (condition, block) :: l' =>
             ((spaces (indentLevel * 4) ++ "} else if ("
               ++ translateExpression condition c1 ++ ") {")
                :: translateBlock block c1 (indentLevel + 1)) +++ elifs l'
         end) elifs
      = (fix elifs (l : list (Expression * Block)) : list string :=
           match l with
           | [] => []
           | (condition, block) :: l' =>
               ((spaces (indentLevel * 4) ++ "} else if ("
                 ++ translateExpression condition c2 ++ ") {")
                  :: translateBlock block c2 (indentLevel + 1)) +++ elifs l'
           end) elifs).
    { induction elifs as [|[c' b'] elifs IHe]; [reflexivity|].
      rewrite IHe, He, (IHb b'). reflexivity. }
    rewrite Helifs.
    destruct els as [b'|]; [rewrite (IHb b')|]; reflexivity.
  - intros [p cases els] indentLevel. cbn [translateMatchStatement].
    rewrite He.
    assert (Hcases :
      (fix each (l : list MatchCase) : list string :=
         match l with
         | [] => []
         | c :: l' => translateMatchCase c c1 (indentLevel + 1) +++ each l'
         end) cases
      = (fix each (l : list MatchCase) : list string :=
           match l with
           | [] => []
           | c :: l' => translateMatchCase c c2 (indentLevel + 1) +++ each l'
           end) cases).
    { induction cases as [|c cases IHe]; [reflexivity|].
      rewrite IHe, (IHc c). reflexivity. }
    rewrite Hcases.
    destruct els as [b'|]; [rewrite (IHb b')|]; reflexivity.
  - intros [p b] indentLevel. cbn [translateMatchCase].
    rewrite He, (IHb b). reflexivity.
  - intros [item [e|] b] indentLevel; cbn [translateForStatement].
    + destruct e as [| | | | | |op|op l r]; try reflexivity.
      * rewrite He, (IHb b). reflexivity.
      * destruct op; try reflexivity.
        unfold translateRangeExpression. rewrite !He, (IHb b). reflexivity.
    + rewrite (IHb b). reflexivity.
Qed.

Lemma translateBlock_same_names_witness :
  let f := mkFunc "f" [] (mkBlock [] []) DataType.Void in
  let f' := mkFunc "f" [mkFuncParameter "x" DataType.I32]
              (mkBlock [St_skip] []) DataType.I32 in
  let block :=
    mkBlock
      [St_defer (E_function_call "f" []);
       St_if_statement
         (mkIfStatement (E_function_call "g" []) (mkBlock [St_break] [])
            [(E_bool "true", mkBlock [St_expression (E_function_call "f" [])]
                               [])]
            None)] [] in
  translateBlock block (mkParsedFile [f]) 1
  = translateBlock block (mkParsedFile [f'; f]) 1.
Proof.
  intros f f' block.
  apply (translateBlock_same_names (mkParsedFile [f]) (mkParsedFile [f'; f])).
  intros name. unfold has_function_named. simpl.
  split; intros (x & Hin & Hx);
    repeat (destruct Hin as [<-|Hin]; [simpl in Hx; subst name|]);
    try contradiction; exists f; simpl; tauto.
Defined.
